(** * Bot Browser: card utilities and the Chub API adapter

    A shallow embedding of the card utilities (sorting, filtering,
    de-duplication, random pick) and of the Chub API service
    ([modules/services/chubApi.js]) of the Bot Browser extension, with the
    properties the specification states about them.

    Conventions of the embedding.
    - A JavaScript string is a [string]; a character stands for the code unit
      of the same number, so the strings covered are those whose code units
      are below 256 (Latin-1).  [toLowerCase] and [trim] are the ECMAScript
      functions restricted to that range.
    - A property that may be absent is an [option]; [None] is [undefined]
      (or [null]).  The JavaScript [a || b] on such values is [orDefault] /
      [orElse]: the empty string is falsy, like [undefined].
    - Calls to [console.log] only write to the console and are left out,
      except in [fetchChubCards], where the catch block's logging is part of
      the behaviour described. *)

From Stdlib Require Import ZArith QArith Qround Ascii String Lia.
From stdpp Require Import base option list gmap strings sorting pretty.

Close Scope Q_scope.
Local Open Scope stdpp_scope.

(** ** ECMAScript strings *)

Module JSString.

Definition codeUnit (c : ascii) : N := N_of_ascii c.

(** WhiteSpace and LineTerminator code points below 256: TAB, LF, VT, FF,
    CR, SP and NBSP. *)
Definition isWhiteSpace (c : ascii) : bool :=
  bool_decide (codeUnit c ∈ [9; 10; 11; 12; 13; 32; 160]%N).

(** Default Unicode lower-casing below 256: A-Z, and the Latin-1 capitals
    U+00C0-U+00DE without the multiplication sign U+00D7. *)
Definition isUpper (c : ascii) : bool :=
  let n := codeUnit c in
  ((65 <=? n) && (n <=? 90) ||
   (192 <=? n) && (n <=? 222) && negb (n =? 215))%N.

Definition lowerChar (c : ascii) : ascii :=
  if isUpper c then ascii_of_N (codeUnit c + 32) else c.

Fixpoint toLowerCase (s : string) : string :=
  match s with
  | EmptyString => EmptyString
  | String c s' => String (lowerChar c) (toLowerCase s')
  end.

Fixpoint trimStart (s : string) : string :=
  match s with
  | EmptyString => EmptyString
  | String c s' => if isWhiteSpace c then trimStart s' else s
  end.

Fixpoint trimEnd (s : string) : string :=
  match s with
  | EmptyString => EmptyString
  | String c s' =>
      match trimEnd s' with
      | EmptyString => if isWhiteSpace c then EmptyString else String c EmptyString
      | r => String c r
      end
  end.

Definition trim (s : string) : string := trimEnd (trimStart s).

(** [s.startsWith(p)] *)
Fixpoint startsWith (s p : string) {struct p} : bool :=
  match p, s with
  | EmptyString, _ => true
  | String _ _, EmptyString => false
  | String a p', String b s' => bool_decide (a = b) && startsWith s' p'
  end.

(** [s.includes(t)]: [t] occurs in [s] at some position. *)
Fixpoint includes (s t : string) : bool :=
  startsWith s t ||
  match s with
  | EmptyString => false
  | String _ s' => includes s' t
  end.

Definition isEmpty (s : string) : bool :=
  match s with EmptyString => true | String _ _ => false end.

(** [(v || d)] for a string-valued property [v] and a string [d]. *)
Definition orDefault (v : option string) (d : string) : string :=
  match v with
  | Some (String c s) => String c s
  | _ => d
  end.

(** Truthiness of a string-valued property. *)
Definition truthy (v : option string) : bool :=
  match v with
  | Some (String _ _) => true
  | _ => false
  end.

(** [(a || b)] for two string-valued properties. *)
Definition orElse (a b : option string) : option string :=
  if truthy a then a else b.

End JSString.

Import JSString.

(** ** Cards *)

(** The card record, with the fields the utilities read. [possibleNsfw] is
    the truthiness of the property. *)
Record Card := mkCard {
  name : option string;
  creator : option string;
  tags : option (list string);
  desc_search : option string;
  desc_preview : option string;
  description : option string;
  possibleNsfw : bool;
  avatar_url : option string;
  image_url : option string;
  service : option string;
  sourceService : option string
}.

(** ** deduplicateCards *)

(** The key of a card, as the loop body computes it. *)
Definition cardKey (card : Card) : string :=
  let normalizedName := trim (toLowerCase (orDefault (name card) "")) in
  let normalizedCreator := trim (toLowerCase (orDefault (creator card) "unknown")) in
  normalizedName +:+ "|" +:+ normalizedCreator.
Arguments cardKey : simpl never.

(** One iteration of the loop over [cards]: the state is the [seen] map and
    the [deduplicated] array. *)
Definition dedupStep (st : gmap string Card * list Card) (card : Card)
  : gmap string Card * list Card :=
  let '(seen, deduplicated) := st in
  let key := cardKey card in
  match seen !! key with
  | Some firstCard => (seen, deduplicated)
  | None => (<[key := card]> seen, deduplicated ++ [card])
  end.

Definition deduplicateCards (cards : list Card) : list Card :=
  (foldl dedupStep (∅, []) cards).2.

(** What the specification says is kept: the cards whose key does not occur
    at an earlier position of the input. *)
Definition firstOccurrences (cards : list Card) : list Card :=
  (filter (λ ic : nat * Card, cardKey ic.2 ∉ cardKey <$> take ic.1 cards)
          (imap pair cards)).*2.

(** The loop, unfolded from a given [seen] map. *)
Fixpoint dedupFrom (seen : gmap string Card) (cards : list Card) : list Card :=
  match cards with
  | [] => []
  | card :: rest =>
      match seen !! cardKey card with
      | Some _ => dedupFrom seen rest
      | None => card :: dedupFrom (<[cardKey card := card]> seen) rest
      end
  end.

(** ** Exceptions *)

(** The values thrown in the code modelled here. The engine's own errors
    carry a host-defined message, which is not modelled. *)
Inductive JSError :=
| TypeError
| SyntaxError
| Error (message : string).

Inductive Result (A : Type) :=
| Ok (a : A)
| Throw (e : JSError).
Arguments Ok {A} a.
Arguments Throw {A} e.

Definition bindR {A B} (m : Result A) (k : A → Result B) : Result B :=
  match m with
  | Ok a => k a
  | Throw e => Throw e
  end.

Notation "x ←ᵣ m ; k" := (bindR m (λ x, k))
  (at level 20, m at level 100, k at level 200, right associativity,
   only parsing).

Definition isOk {A} (m : Result A) : bool :=
  match m with Ok _ => true | Throw _ => false end.

(** [l.map(f)] for a callback that may throw. *)
Fixpoint mapR {A B} (f : A → Result B) (l : list A) : Result (list B) :=
  match l with
  | [] => Ok []
  | x :: l' => y ←ᵣ f x; ys ←ᵣ mapR f l'; Ok (y :: ys)
  end.

(** [l.filter(f)] for a callback that may throw. *)
Fixpoint filterR {A} (f : A → Result bool) (l : list A) : Result (list A) :=
  match l with
  | [] => Ok []
  | x :: l' =>
      b ←ᵣ f x; ys ←ᵣ filterR f l'; Ok (if b then x :: ys else ys)
  end.

(** ** filterCards *)

Record Filters := mkFilters {
  filters_search : option string;
  filters_tags : list string;
  filters_creator : option string
}.

(** [extension_settings[extensionName]] *)
Record Settings := mkSettings {
  hideNsfw : bool;
  tagBlocklist : option (list string)
}.

(** A Fuse.js result; only [item] is read. *)
Record FuseResult := mkFuseResult { item : Card }.

(** The Fuse.js index: [fuse.search(pattern)]. *)
Definition Fuse := string → list FuseResult.

(** [arr.includes(x)] on an array of strings. *)
Definition arrayIncludes (arr : list string) (x : string) : bool :=
  bool_decide (x ∈ arr).

(** The blocklist part of the callback: [false] where the callback
    returns [false] because of a blocked tag or term. *)
Definition passesBlocklist (settings : Settings) (card : Card) : bool :=
  let blocklist := default [] (tagBlocklist settings) in
  if 0 <? length blocklist then
    let normalizedBlocklist :=
      filter (λ term, 0 < String.length term)
             (map (λ term, trim (toLowerCase term)) blocklist) in
    if 0 <? length normalizedBlocklist then
      if match tags card with
         | Some cardTags =>
             let normalizedTags := map (λ tag, trim (toLowerCase tag)) cardTags in
             existsb (arrayIncludes normalizedTags) normalizedBlocklist
         | None => false
         end
      then false
      else
        let desc :=
          toLowerCase
            (orDefault (orElse (orElse (desc_search card) (desc_preview card))
                               (description card)) "") in
        if existsb (includes desc) normalizedBlocklist then false
        else
          let name := toLowerCase (orDefault (name card) "") in
          if existsb (includes name) normalizedBlocklist then false
          else true
    else true
  else true.

(** The callback given to [filteredCards.filter]. Reading a property of
    [extension_settings[extensionName]] throws when there is no such entry. *)
Definition filterCallback (filters : Filters) (extensionName : string)
    (extension_settings : gmap string Settings) (card : Card) : Result bool :=
  if (0 <? length (filters_tags filters)) &&
     negb (match tags card with
           | Some cardTags => forallb (arrayIncludes cardTags) (filters_tags filters)
           | None => false
           end)
  then Ok false
  else if truthy (filters_creator filters) &&
          negb (bool_decide (creator card = filters_creator filters))
  then Ok false
  else
    match extension_settings !! extensionName with
    | None => Throw TypeError
    | Some settings =>
        if hideNsfw settings && possibleNsfw card then Ok false
        else Ok (passesBlocklist settings card)
    end.

Definition filterCards (cards : list Card) (filters : Filters) (fuse : option Fuse)
    (extensionName : string) (extension_settings : gmap string Settings)
  : Result (list Card) :=
  let filteredCards :=
    match fuse with
    | Some fuseSearch =>
        if truthy (filters_search filters)
        then map item (fuseSearch (orDefault (filters_search filters) ""))
        else cards
    | None => cards
    end in
  filterR (filterCallback filters extensionName extension_settings) filteredCards.

(** ** sortCards *)

(** Arrays of cards are mutable objects: a heap maps array references to
    their contents, and the array operations below read and write it. *)
Abbreviation loc := positive.
Abbreviation heap := (gmap positive (list Card)).

(** Computations over the heap that may throw. *)
Definition Heap (A : Type) : Type := heap → Result (A * heap).

Definition retH {A} (a : A) : Heap A := λ h, Ok (a, h).

Definition bindH {A B} (m : Heap A) (k : A → Heap B) : Heap B :=
  λ h, match m h with
       | Ok (a, h') => k a h'
       | Throw e => Throw e
       end.

Notation "x ←ₕ m ; k" := (bindH m (λ x, k))
  (at level 20, m at level 100, k at level 200, right associativity,
   only parsing).

(** [[...arr]]: a new array with the elements of [arr]. *)
Definition spread (arr : loc) : Heap loc :=
  λ h, match h !! arr with
       | Some elems => let fresh_loc := fresh (dom h) in
                       Ok (fresh_loc, <[fresh_loc := elems]> h)
       | None => Throw TypeError
       end.

(** [Array.prototype.sort] orders the elements by the sign of the
    comparator and is stable; for a consistent comparator this determines
    the result ([sortedCopy_unique] below), which insertion from the right
    computes. *)
Fixpoint sortInsert {A} (compareFn : A → A → Z) (x : A) (sorted : list A) : list A :=
  match sorted with
  | [] => [x]
  | y :: rest =>
      if (compareFn x y <=? 0)%Z then x :: y :: rest
      else y :: sortInsert compareFn x rest
  end.

Fixpoint sortedCopy {A} (compareFn : A → A → Z) (elems : list A) : list A :=
  match elems with
  | [] => []
  | x :: rest => sortInsert compareFn x (sortedCopy compareFn rest)
  end.

(** [arr.sort(compareFn)]: sorts [arr] in place and returns [arr]. *)
Definition Array_sort (arr : loc) (compareFn : Card → Card → Z) : Heap loc :=
  λ h, match h !! arr with
       | Some elems => Ok (arr, <[arr := sortedCopy compareFn elems]> h)
       | None => Throw TypeError
       end.

Definition apiSorts : list string :=
  ["recent"; "trending"; "rating"; "stars"; "downloads"; "favorites";
   "newcomer"; "activity"; "default"].

Definition isApiLevelSort (sortBy : string) : bool :=
  arrayIncludes apiSorts sortBy.

Section SortCards.

(** [String.prototype.localeCompare], the host's collation. *)
Context (localeCompare : string → string → Z).

Definition byNameAsc (a b : Card) : Z :=
  localeCompare (orDefault (name a) "") (orDefault (name b) "").
Definition byNameDesc (a b : Card) : Z :=
  localeCompare (orDefault (name b) "") (orDefault (name a) "").
Definition byCreatorAsc (a b : Card) : Z :=
  localeCompare (orDefault (creator a) "") (orDefault (creator b) "").
Definition byCreatorDesc (a b : Card) : Z :=
  localeCompare (orDefault (creator b) "") (orDefault (creator a) "").

Definition sortCards (cards : loc) (sortBy : string) : Heap loc :=
  sorted ←ₕ spread cards;
  if decide (sortBy = "name_asc") then Array_sort sorted byNameAsc
  else if decide (sortBy = "name_desc") then Array_sort sorted byNameDesc
  else if decide (sortBy = "creator_asc") then Array_sort sorted byCreatorAsc
  else if decide (sortBy = "creator_desc") then Array_sort sorted byCreatorDesc
  else if isApiLevelSort sortBy then retH sorted
  else retH sorted.

End SortCards.

(** The collation contract sorting relies on: a consistent comparator. *)
Class ConsistentCompare {A} (compareFn : A → A → Z) : Prop := {
  compare_antisym a b : Z.sgn (compareFn a b) = (- Z.sgn (compareFn b a))%Z;
  compare_trans a b c :
    (compareFn a b <= 0)%Z → (compareFn b c <= 0)%Z → (compareFn a c <= 0)%Z
}.

(** Code-unit order, a collation that can be run. *)
Definition codeUnitCompare (a b : string) : Z :=
  match String.compare a b with
  | Lt => (-1)%Z
  | Eq => 0%Z
  | Gt => 1%Z
  end.

(** ** getRandomCard *)

(** Calls to [toastr]. *)
Inductive Toast :=
| ToastInfo (message : string)
| ToastWarning (message : string)
| ToastError (message : string).

(** The filter applied to every candidate list: the card's image URL,
    [avatar_url || image_url], is non-blank and starts with [http://] or
    [https://]. *)
Definition hasImageUrl (card : Card) : bool :=
  let imageUrl := orElse (avatar_url card) (image_url card) in
  truthy imageUrl &&
  match imageUrl with
  | Some url =>
      (0 <? String.length (trim url)) &&
      (startsWith url "http://" || startsWith url "https://")
  | None => false
  end.

Definition serviceNames : list string :=
  ["anchorhold"; "catbox"; "character_tavern"; "chub"; "nyai_me";
   "risuai_realm"; "webring"; "mlpchag"; "desuarchive"].

(** [{...card, sourceService: service}] *)
Definition withSourceService (serviceName : string) (card : Card) : Card :=
  mkCard (name card) (creator card) (tags card) (desc_search card)
         (desc_preview card) (description card) (possibleNsfw card)
         (avatar_url card) (image_url card) (service card)
         (Some serviceName).

(** The loop over [serviceNames]: [cards] accumulates the cards of every
    service that pass the filter; a rejected [loadServiceIndexFunc] call
    leaves the loop by the exception. *)
Fixpoint loadAllServices (loadServiceIndexFunc : string → Result (list Card))
    (services : list string) (cards : list Card) : Result (list Card) :=
  match services with
  | [] => Ok cards
  | serviceName :: rest =>
      serviceCards ←ᵣ loadServiceIndexFunc serviceName;
      let cardsWithSource :=
        filter (λ card, hasImageUrl card = true)
               (map (withSourceService serviceName) serviceCards) in
      loadAllServices loadServiceIndexFunc rest (cards ++ cardsWithSource)
  end.

(** The candidate cards, per [source]; the second component is the toasts
    shown on the way. *)
Definition candidateCards (source : option string) (currentCards : list Card)
    (loadServiceIndexFunc : string → Result (list Card))
  : Result (list Card) * list Toast :=
  if bool_decide (source = Some "current") && (0 <? length currentCards) then
    (Ok (filter (λ card, hasImageUrl card = true) currentCards), [])
  else if bool_decide (source = Some "all") || negb (truthy source) then
    (loadAllServices loadServiceIndexFunc serviceNames [],
     [ToastInfo "Loading all cards..."])
  else
    (Ok (filter (λ card, hasImageUrl card = true) currentCards), []).

(** [getRandomCard]; [random] is the value [Math.random()] returns, a
    number in the interval from 0 (included) to 1 (excluded), taken as a
    rational. The result is the card returned ([None] for [null]) and the
    toasts shown. *)
Definition getRandomCard (source : option string) (currentCards : list Card)
    (loadServiceIndexFunc : string → Result (list Card)) (random : Q)
  : option Card * list Toast :=
  let '(loaded, toasts) := candidateCards source currentCards loadServiceIndexFunc in
  match loaded with
  | Throw error => (None, toasts ++ [ToastError "Failed to get random card"])
  | Ok cards =>
      if length cards =? 0 then (None, toasts ++ [ToastWarning "No cards available"])
      else
        let randomIndex := Qfloor (random * inject_Z (Z.of_nat (length cards))) in
        match (if (randomIndex <? 0)%Z then None else cards !! Z.to_nat randomIndex) with
        | Some randomCard => (Some randomCard, toasts)
        | None => (None, toasts ++ [ToastError "Failed to get random card"])
        end
  end.

(** ** The Chub API service *)

Definition CHUB_API_BASE : string := "https://api.chub.ai".

Definition CHUB_TOKEN_KEY : string := "botBrowser_chubApiToken".

Definition SORT_MAP : list (string * string) :=
  [("recent", "created_at");
   ("trending", "trending");
   ("rating", "rating");
   ("stars", "star_count");
   ("downloads", "download_count");
   ("favorites", "n_favorites");
   ("newcomer", "newcomer");
   ("activity", "last_activity_at");
   ("default", "default")].

(** The property names every object literal inherits from
    [Object.prototype]: [SORT_MAP[name]] is then a function (an object for
    [__proto__]), not [undefined]. *)
Definition objectPrototypeNames : list string :=
  ["constructor"; "hasOwnProperty"; "isPrototypeOf"; "propertyIsEnumerable";
   "toLocaleString"; "toString"; "valueOf"; "__proto__";
   "__defineGetter__"; "__defineSetter__"; "__lookupGetter__";
   "__lookupSetter__"].

(** An own property in a property list. *)
Fixpoint ownProperty {V} (props : list (string * V)) (key : string) : option V :=
  match props with
  | [] => None
  | (k, v) :: rest => if decide (k = key) then Some v else ownProperty rest key
  end.

(** *** localStorage and the API token *)

Abbreviation Storage := (gmap string string).

(** A token argument is a string or [null]/[undefined] ([None]). *)
Definition saveChubToken (token : option string) (localStorage : Storage) : Storage :=
  match token with
  | Some t =>
      if negb (isEmpty t) && negb (isEmpty (trim t))
      then <[CHUB_TOKEN_KEY := trim t]> localStorage
      else delete CHUB_TOKEN_KEY localStorage
  | None => delete CHUB_TOKEN_KEY localStorage
  end.

Definition getChubToken (localStorage : Storage) : option string :=
  localStorage !! CHUB_TOKEN_KEY.

Definition hasChubToken (localStorage : Storage) : bool :=
  match getChubToken localStorage with
  | Some token => 0 <? String.length (trim token)
  | None => false
  end.

Definition clearChubToken (localStorage : Storage) : Storage :=
  delete CHUB_TOKEN_KEY localStorage.

(** *** URLSearchParams *)

(** The application/x-www-form-urlencoded serializer: letters, digits and
    [* - . _] stay, a space becomes [+], any other code unit is
    percent-encoded from its UTF-8 bytes. It covers the strings of this
    development, whose code units are below 256; on those the conversion
    to scalar values that [append] performs changes nothing. *)
Definition hexDigit (n : N) : ascii :=
  ascii_of_N (if (n <? 10)%N then 48 + n else 55 + n).

Definition percentByte (b : N) : string :=
  String "%" (String (hexDigit (b / 16)) (String (hexDigit (b mod 16)) EmptyString)).

Definition formSafe (n : N) : bool :=
  ((48 <=? n) && (n <=? 57) || (65 <=? n) && (n <=? 90) ||
   (97 <=? n) && (n <=? 122) ||
   bool_decide (n ∈ [42; 45; 46; 95]))%N.

Definition formEncodeChar (c : ascii) : string :=
  let n := codeUnit c in
  if formSafe n then String c EmptyString
  else if (n =? 32)%N then "+"
  else if (n <? 128)%N then percentByte n
  else percentByte (192 + n / 64) +:+ percentByte (128 + n mod 64).

Fixpoint formEncode (s : string) : string :=
  match s with
  | EmptyString => EmptyString
  | String c s' => formEncodeChar c +:+ formEncode s'
  end.

(** [params.toString()] *)
Definition paramsToString (params : list (string * string)) : string :=
  String.concat "&"
    (map (λ p : string * string, formEncode p.1 +:+ "=" +:+ formEncode p.2) params).

(** *** JavaScript values *)

(** What [response.json()] yields and what [transformChubCard] builds. An
    object is its list of own properties. [number] is the host's number
    type. *)
#[warnings="-register-all"]
Inductive JSValue {number : Type} :=
| VUndefined
| VNull
| VBool (b : bool)
| VNum (n : number)
| VStr (s : string)
| VArr (items : list JSValue)
| VObj (props : list (string * JSValue)).
Arguments JSValue : clear implicits.

(** What the code needs from the host besides strings. *)
Class Host (number : Type) := {
  (** a number is truthy unless it is 0, -0 or NaN *)
  numberTruthy : number → bool;
  (** [Number.prototype.toString] *)
  numberToString : number → string;
  (** a length or a literal as a number *)
  numberOfNat : nat → number;
  (** the string conversion of [Object.prototype[name]] *)
  nativeToString : string → string
}.

(** Integral numbers, a host that can be run. *)
Definition integerHost : Host Z := {|
  numberTruthy n := negb (n =? 0)%Z;
  numberToString n := pretty n;
  numberOfNat n := Z.of_nat n;
  nativeToString name :=
    if decide (name = "__proto__") then "[object Object]"
    else "function " +:+ name +:+ "() { [native code] }"
|}.

Section ChubApi.

Context {number : Type} {host : Host number}.

Abbreviation Value := (JSValue number).

Definition truthyV (v : Value) : bool :=
  match v with
  | VUndefined | VNull => false
  | VBool b => b
  | VNum n => numberTruthy n
  | VStr s => negb (isEmpty s)
  | VArr _ | VObj _ => true
  end.

(** [a || b] *)
Definition orV (a b : Value) : Value := if truthyV a then a else b.

(** [v.key], for the property names read in this module; none of them is
    defined on a prototype, so only an object's own properties count. *)
Definition getProp (v : Value) (key : string) : Result Value :=
  match v with
  | VUndefined | VNull => Throw TypeError
  | VObj props => Ok (default VUndefined (ownProperty props key))
  | _ => Ok VUndefined
  end.

(** The string conversion of a template literal. An array is joined with
    commas; an object converts through [Object.prototype.toString] unless
    an own [toString] property, never callable in parsed JSON, hides it. *)
Fixpoint toStringV (v : Value) : Result string :=
  match v with
  | VUndefined => Ok "undefined"
  | VNull => Ok "null"
  | VBool b => Ok (if b then "true" else "false")
  | VNum n => Ok (numberToString n)
  | VStr s => Ok s
  | VArr items =>
      parts ←ᵣ (fix join (l : list Value) : Result (list string) :=
                  match l with
                  | [] => Ok []
                  | x :: l' =>
                      s ←ᵣ match x with
                           | VUndefined | VNull => Ok ""
                           | _ => toStringV x
                           end;
                      ss ←ᵣ join l';
                      Ok (s :: ss)
                  end) items;
      Ok (String.concat "," parts)
  | VObj props =>
      match ownProperty props "toString" with
      | Some _ => Throw TypeError
      | None => Ok "[object Object]"
      end
  end.

(** [s.split('/')[0]] *)
Fixpoint beforeSlash (s : string) : string :=
  match s with
  | EmptyString => EmptyString
  | String c s' => if decide (c = "/"%char) then EmptyString
                   else String c (beforeSlash s')
  end.

Definition nsfwKeywords : list string :=
  ["nsfw"; "nsfl"; "adult"; "explicit"; "mature"; "erotic"; "sex"; "porn"].

(** [t.toLowerCase()] for an element of [topics]. *)
Definition topicToLowerCase (t : Value) : Result string :=
  match t with
  | VStr s => Ok (toLowerCase s)
  | _ => Throw TypeError
  end.

Definition zero : Value := VNum (numberOfNat 0).

Definition transformChubCard (node : Value) : Result Value :=
  nodeTopics ←ᵣ getProp node "topics";
  let topics := orV nodeTopics (VArr []) in
  topicsLower ←ᵣ match topics with
                 | VArr ts => mapR topicToLowerCase ts
                 | _ => Throw TypeError
                 end;
  let possibleNsfw :=
    existsb (λ t, existsb (λ kw, includes t kw) nsfwKeywords) topicsLower in
  fullPath ←ᵣ getProp node "fullPath";
  id ←ᵣ (if truthyV fullPath
         then s ←ᵣ toStringV fullPath; Ok ("https://chub.ai/characters/" +:+ s)
         else nodeId ←ᵣ getProp node "id";
              s ←ᵣ toStringV nodeId; Ok ("chub-" +:+ s));
  nodeName ←ᵣ getProp node "name";
  tagline ←ᵣ getProp node "tagline";
  nodeDescription ←ᵣ getProp node "description";
  desc_preview ←ᵣ (if truthyV tagline then Ok tagline
                   else
                     preview ←ᵣ match nodeDescription with
                                | VUndefined | VNull => Ok VUndefined
                                | VStr s => Ok (VStr (String.substring 0 150 s))
                                | _ => Throw TypeError
                                end;
                     Ok (orV preview (VStr "")));
  creator ←ᵣ (if truthyV fullPath
              then match fullPath with
                   | VStr s => Ok (VStr (beforeSlash s))
                   | _ => Throw TypeError
                   end
              else Ok (VStr "Unknown"));
  fullPathText ←ᵣ toStringV fullPath;
  nodeAvatar ←ᵣ getProp node "avatar_url";
  maxRes ←ᵣ getProp node "max_res_url";
  nsfwImage ←ᵣ getProp node "nsfw_image";
  starCount ←ᵣ getProp node "starCount";
  rating ←ᵣ getProp node "rating";
  ratingCount ←ᵣ getProp node "ratingCount";
  createdAt ←ᵣ getProp node "createdAt";
  lastActivityAt ←ᵣ getProp node "lastActivityAt";
  nChats ←ᵣ getProp node "nChats";
  nMessages ←ᵣ getProp node "nMessages";
  nFavorites ←ᵣ getProp node "n_favorites";
  forksCount ←ᵣ getProp node "forksCount";
  nTokens ←ᵣ getProp node "nTokens";
  Ok (VObj
    [("id", VStr id);
     ("service", VStr "chub");
     ("name", orV nodeName (VStr "Unknown"));
     ("desc_preview", desc_preview);
     ("desc_search", orV nodeDescription (VStr ""));
     ("tags", topics);
     ("creator", creator);
     ("image_url", VStr ("https://chub.ai/characters/" +:+ fullPathText));
     ("avatar_url", orV (orV nodeAvatar maxRes) (VStr ""));
     ("possibleNsfw", orV (orV (VBool possibleNsfw) nsfwImage) (VBool false));
     ("_chubMeta", VObj
        [("starCount", orV starCount zero);
         ("rating", orV rating zero);
         ("ratingCount", orV ratingCount zero);
         ("createdAt", orV createdAt VNull);
         ("lastActivityAt", orV lastActivityAt VNull);
         ("nChats", orV nChats zero);
         ("nMessages", orV nMessages zero);
         ("nFavorites", orV nFavorites zero);
         ("forksCount", orV forksCount zero);
         ("nTokens", orV nTokens zero)]);
     ("chunk", VNull);
     ("chunk_idx", zero);
     ("sourceService", VStr "chub")]).

(** *** fetchChubCards *)

(** The [options] argument; [None] is a property left [undefined], which
    takes the default of the destructuring. *)
Record FetchOptions := mkFetchOptions {
  options_sort : option string;
  options_first : option number;
  options_search : option string;
  options_cursor : option string;
  options_nsfw : option bool
}.

Record Request := mkRequest {
  request_url : string;
  request_headers : list (string * string)
}.

(** A response: [ok], [status], [statusText] and what [response.json()]
    settles to. *)
Record Response := mkResponse {
  ok : bool;
  status : N;
  statusText : string;
  json : Result Value
}.

(** [fetch]: rejects or resolves to a response. *)
Definition Fetch := Request → Result Response.

Inductive LogEntry :=
| ConsoleLog (message : string) (detail : string)
| ConsoleError (message : string) (error : JSError).

Record FetchedCards := mkFetchedCards {
  cards : list Value;
  cursor : Value;
  count : Value
}.

(** [SORT_MAP[sort] || SORT_MAP['default']], as [params.append] converts
    it to a string. *)
Definition apiSortOf (sort : string) : string :=
  let fallback := default "undefined" (ownProperty SORT_MAP "default") in
  match ownProperty SORT_MAP sort with
  | Some mapped => if isEmpty mapped then fallback else mapped
  | None => if arrayIncludes objectPrototypeNames sort
            then nativeToString sort
            else fallback
  end.

(** The query parameters, in the order they are appended. *)
Definition chubParams (options : FetchOptions) : list (string * string) :=
  let sort := default "default" (options_sort options) in
  let first := default (numberOfNat 200) (options_first options) in
  let search := default "" (options_search options) in
  let cursor := options_cursor options in
  let nsfw := default true (options_nsfw options) in
  let apiSort := apiSortOf sort in
  [("first", numberToString first); ("sort", apiSort)]
  ++ (if negb (isEmpty search) then [("search", search)] else [])
  ++ (if truthy cursor then [("cursor", orDefault cursor "")] else [])
  ++ (if negb nsfw then [("venus", "false")] else []).

Definition chubUrl (options : FetchOptions) : string :=
  CHUB_API_BASE +:+ "/search?" +:+ paramsToString (chubParams options).

(** From the response to the returned object: the part of the [try] block
    after [fetch] resolves. *)
Definition readChubResponse (response : Response) : Result FetchedCards :=
  if negb (ok response) then
    Throw (Error ("Chub API error: " +:+ pretty (status response) +:+ " "
                  +:+ statusText response))
  else
    data ←ᵣ json response;
    dataData ←ᵣ getProp data "data";
    if negb (truthyV dataData) then
      Throw (Error "Invalid response format from Chub API")
    else
      nodes ←ᵣ getProp dataData "nodes";
      match nodes with
      | VArr nodeList =>
          cards ←ᵣ mapR transformChubCard nodeList;
          dataCursor ←ᵣ getProp dataData "cursor";
          dataCount ←ᵣ getProp dataData "count";
          Ok (mkFetchedCards cards (orV dataCursor VNull)
                (orV dataCount (VNum (numberOfNat (length cards)))))
      | _ => Throw (Error "Invalid response format from Chub API")
      end.

(** The [catch] block: log the error and throw it again. *)
Definition catchAndRethrow {A} (logged : list LogEntry) (body : Result A)
  : Result A * list LogEntry :=
  match body with
  | Ok r => (Ok r, logged)
  | Throw error =>
      (Throw error,
       logged ++ [ConsoleError "[Bot Browser] Error fetching from Chub API:" error])
  end.

(** The request headers: [Accept], and the token, when there is one, as
    [CH-API-KEY] and as a bearer [Authorization]. *)
Definition chubHeaders (localStorage : Storage) : list (string * string) :=
  let token := getChubToken localStorage in
  [("Accept", "application/json")]
  ++ (if truthy token
      then [("CH-API-KEY", orDefault token "");
            ("Authorization", "Bearer " +:+ orDefault token "")]
      else []).

(** [fetchChubCards] of [modules/services/chubApi.js]: the result, and
    what is written to the console. *)
Definition fetchChubCards (options : FetchOptions) (localStorage : Storage)
    (fetch : Fetch) : Result FetchedCards * list LogEntry :=
  let url := chubUrl options in
  let headers := chubHeaders localStorage in
  let logged :=
    if truthy (getChubToken localStorage)
    then [ConsoleLog "[Bot Browser] Fetching from Chub API (authenticated):" url]
    else [ConsoleLog "[Bot Browser] Fetching from Chub API (anonymous):" url] in
  catchAndRethrow logged
    (response ←ᵣ fetch (mkRequest url headers); readChubResponse response).

(** The earlier [fetchChubCards], without a token: [fetch(url)]. *)
Definition fetchChubCardsAnonymous (options : FetchOptions) (fetch : Fetch)
  : Result FetchedCards * list LogEntry :=
  let url := chubUrl options in
  catchAndRethrow [ConsoleLog "[Bot Browser] Fetching from Chub API:" url]
    (response ←ᵣ fetch (mkRequest url []); readChubResponse response).

Definition isChubApiSort (sortBy : string) : bool :=
  arrayIncludes (map fst SORT_MAP) sortBy.

End ChubApi.

Arguments FetchOptions : clear implicits.
Arguments Response : clear implicits.
Arguments FetchedCards : clear implicits.
Arguments Fetch : clear implicits.

(** *** The failures of fetchChubCards, as the specification words them *)

Section ChubFailures.

Context {number : Type} {host : Host number}.

(** The array [data.data.nodes] of a parsed body, when the body has an
    object [data.data] with an array [nodes]. *)
Definition bodyNodes (data : JSValue number) : option (list (JSValue number)) :=
  match data with
  | VObj props =>
      match ownProperty props "data" with
      | Some (VObj dataProps) =>
          match ownProperty dataProps "nodes" with
          | Some (VArr nodes) => Some nodes
          | _ => None
          end
      | _ => None
      end
  | _ => None
  end.

(** The property [data.data[key]] of such a body, [undefined] when
    absent. *)
Definition bodyField (data : JSValue number) (key : string) : JSValue number :=
  match data with
  | VObj props =>
      match ownProperty props "data" with
      | Some (VObj dataProps) => default VUndefined (ownProperty dataProps key)
      | _ => VUndefined
      end
  | _ => VUndefined
  end.

(** The failures the specification lists: [fetch] itself fails, the
    response is not ok, parsing the body fails, or the parsed body lacks
    an object [data.data] with an array [nodes]. *)
Inductive ListedFailure (outcome : Result (Response number)) : Prop :=
| FetchFails e :
    outcome = Throw e → ListedFailure outcome
| ResponseNotOk response :
    outcome = Ok response → ok response = false → ListedFailure outcome
| ParseFails response e :
    outcome = Ok response → ok response = true → json response = Throw e →
    ListedFailure outcome
| NodesMissing response data :
    outcome = Ok response → ok response = true → json response = Ok data →
    bodyNodes data = None → ListedFailure outcome.

(** The failure the list leaves out: a node that [transformChubCard]
    throws on. *)
Inductive TransformFailure (outcome : Result (Response number)) : Prop :=
| NodeRejected response data nodes node :
    outcome = Ok response → ok response = true → json response = Ok data →
    bodyNodes data = Some nodes → node ∈ nodes →
    isOk (transformChubCard node) = false → TransformFailure outcome.

(** What a successful call returns, from the parsed body. *)
Definition returnsCardsOf (data : JSValue number) (fetched : FetchedCards number)
  : Prop :=
  ∃ nodes, bodyNodes data = Some nodes
           ∧ mapR transformChubCard nodes = Ok (cards fetched)
           ∧ cursor fetched = (if truthyV (bodyField data "cursor")
                               then bodyField data "cursor" else VNull)
           ∧ count fetched = (if truthyV (bodyField data "count")
                              then bodyField data "count"
                              else VNum (numberOfNat (length (cards fetched)))).

(** A value other than an array or an object. *)
Definition isPrimitive (v : JSValue number) : Prop :=
  match v with
  | VArr _ | VObj _ => False
  | _ => True
  end.

(** A node of the shape the API documents: an object whose [topics], when
    present, is an array of strings, whose [fullPath] and [description], when
    present, are strings, and whose [id] is a primitive value. Falsy values
    count as absent, as [||] treats them, and so does [null] for
    [description]. *)
Definition wellFormedNode (node : JSValue number) : Prop :=
  ∃ props,
    node = VObj props
    ∧ match ownProperty props "topics" with
      | None => True
      | Some (VArr topics) => Forall (λ t, ∃ s, t = VStr s) topics
      | Some v => truthyV v = false
      end
    ∧ match ownProperty props "fullPath" with
      | None | Some (VStr _) => True
      | Some v => truthyV v = false
      end
    ∧ match ownProperty props "description" with
      | None | Some VUndefined | Some VNull | Some (VStr _) => True
      | Some _ => False
      end
    ∧ match ownProperty props "id" with
      | None => True
      | Some v => isPrimitive v
      end.

(** The sort parameter passes through: [sort] itself is the value of the
    [sort] query parameter. *)
Definition sortPassedThrough (sort : string) : Prop :=
  ∀ first search cursor nsfw,
    ownProperty (chubParams (mkFetchOptions (Some sort) first search cursor nsfw))
                "sort" = Some sort.

End ChubFailures.

(** What a run of [fetchChubCards] does, given how [fetch] settled: it
    throws exactly on a listed failure or a node [transformChubCard] throws
    on; what it returns comes from the parsed body; an error is logged with
    [console.error] and thrown again, and nothing is logged as an error
    otherwise. *)
Definition fetchBehaviour {number : Type} {host : Host number}
    (outcome : Result (Response number))
    (run : Result (FetchedCards number) * list LogEntry) : Prop :=
  (isOk run.1 = false ↔ ListedFailure outcome ∨ TransformFailure outcome)
  ∧ (∀ fetched, run.1 = Ok fetched →
       ∃ response data, outcome = Ok response ∧ ok response = true
                        ∧ json response = Ok data ∧ returnsCardsOf data fetched)
  ∧ (∀ error, run.1 = Throw error →
       last run.2 = Some (ConsoleError "[Bot Browser] Error fetching from Chub API:" error))
  ∧ (∀ fetched, run.1 = Ok fetched → ∀ message error, ConsoleError message error ∉ run.2).

(** *** The filters, as the specification words them *)

Definition isSubstringOf (t s : string) : Prop := ∃ u v, s = u +:+ t +:+ v.

(** No text search is active. *)
Definition searchInactive (filters : Filters) (fuse : option Fuse) : Prop :=
  truthy (filters_search filters) = false ∨ fuse = None.

(** When tags are selected, the card's tags include every one of them. *)
Definition hasSelectedTags (filters : Filters) (card : Card) : Prop :=
  filters_tags filters ≠ [] →
  ∃ cardTags, tags card = Some cardTags ∧
              ∀ tag, tag ∈ filters_tags filters → tag ∈ cardTags.

(** When a creator is selected, the card's creator is that very string. *)
Definition hasSelectedCreator (filters : Filters) (card : Card) : Prop :=
  ∀ selected, filters_creator filters = Some selected → selected ≠ "" →
              creator card = Some selected.

(** The NSFW policy hides the card. *)
Definition hiddenAsNsfw (settings : Settings) (card : Card) : Prop :=
  hideNsfw settings = true ∧ possibleNsfw card = true.

(** A normalized blocklist term: a term of the blocklist lower-cased and
    trimmed, when that is not empty. *)
Definition blocklistTerm (settings : Settings) (term : string) : Prop :=
  ∃ raw, raw ∈ default [] (tagBlocklist settings) ∧
         term = trim (toLowerCase raw) ∧ term ≠ "".

(** The description searched: [desc_search], else [desc_preview], else
    [description], else nothing. *)
Definition searchedDescription (card : Card) : string :=
  match desc_search card with
  | Some (String c s) => String c s
  | _ => match desc_preview card with
         | Some (String c s) => String c s
         | _ => match description card with
                | Some (String c s) => String c s
                | _ => ""
                end
         end
  end.

(** The term blocks the card: it equals a lower-cased, trimmed tag of the
    card, or occurs in the lower-cased description or name. *)
Definition blockedBy (term : string) (card : Card) : Prop :=
  (∃ cardTags tag, tags card = Some cardTags ∧ tag ∈ cardTags ∧
                   term = trim (toLowerCase tag))
  ∨ isSubstringOf term (toLowerCase (searchedDescription card))
  ∨ isSubstringOf term (toLowerCase (orDefault (name card) "")).

Definition matchesAllFilters (filters : Filters) (settings : Settings)
    (card : Card) : Prop :=
  hasSelectedTags filters card
  ∧ hasSelectedCreator filters card
  ∧ ¬ hiddenAsNsfw settings card
  ∧ ∀ term, blocklistTerm settings term → ¬ blockedBy term card.

(** *** The loop invariant of deduplicateCards *)

(** The [seen] map holds exactly the keys of the cards already visited. *)
Definition seenKeysOf (seen : gmap string Card) (visited : list Card) : Prop :=
  ∀ k, is_Some (seen !! k) ↔ k ∈ cardKey <$> visited.

(** *** The local sorts, as the specification words them *)

Definition localSorts : list string :=
  ["name_asc"; "name_desc"; "creator_asc"; "creator_desc"].

Inductive SortField := ByName | ByCreator.
Inductive SortDirection := Ascending | Descending.

(** The field and the direction a local sort token names. *)
Definition localSort (sortBy : string) : option (SortField * SortDirection) :=
  if decide (sortBy = "name_asc") then Some (ByName, Ascending)
  else if decide (sortBy = "name_desc") then Some (ByName, Descending)
  else if decide (sortBy = "creator_asc") then Some (ByCreator, Ascending)
  else if decide (sortBy = "creator_desc") then Some (ByCreator, Descending)
  else None.

(** The sort key of a card: the named field, the empty string when it is
    missing. *)
Definition sortKey (field : SortField) (card : Card) : string :=
  match field with
  | ByName => orDefault (name card) ""
  | ByCreator => orDefault (creator card) ""
  end.

Section SortOrder.

Context (localeCompare : string → string → Z).

(** [a] may come before [b]. *)
Definition inOrder (field : SortField) (direction : SortDirection)
    (a b : Card) : Prop :=
  match direction with
  | Ascending => (localeCompare (sortKey field a) (sortKey field b) <= 0)%Z
  | Descending => (localeCompare (sortKey field a) (sortKey field b) >= 0)%Z
  end.

(** The keys of [a] and [b] compare equal. *)
Definition sameKey (field : SortField) (a b : Card) : Prop :=
  localeCompare (sortKey field a) (sortKey field b) = 0%Z.

#[export] Instance sameKey_dec field a b : Decision (sameKey field a b).
Proof. unfold sameKey. apply _. Defined.

(** The contents of the array [sortCards] returns, from the contents of
    its argument. *)
Definition sortedContents (sortBy : string) (elems : list Card) : list Card :=
  if decide (sortBy = "name_asc") then sortedCopy (byNameAsc localeCompare) elems
  else if decide (sortBy = "name_desc") then sortedCopy (byNameDesc localeCompare) elems
  else if decide (sortBy = "creator_asc") then sortedCopy (byCreatorAsc localeCompare) elems
  else if decide (sortBy = "creator_desc") then sortedCopy (byCreatorDesc localeCompare) elems
  else elems.

End SortOrder.

(** *** The image URL filter, stated on the card *)

(** The image URL of a card: [avatar_url], or [image_url] when there is no
    [avatar_url]. *)
Definition imageUrlOf (card : Card) : option string :=
  match avatar_url card with
  | Some (String c s) => Some (String c s)
  | _ => image_url card
  end.

(** The card has a non-blank image URL beginning with [http://] or
    [https://]. *)
Definition hasHttpImage (card : Card) : Prop :=
  ∃ url, imageUrlOf card = Some url ∧ trim url ≠ ""
         ∧ ((∃ rest, url = "http://" +:+ rest) ∨ (∃ rest, url = "https://" +:+ rest)).

(** ** Sample data *)

Definition knight : Card :=
  mkCard (Some "Knight") (Some "ann") (Some ["Fantasy"; "Hero"]) None
         (Some "A brave knight") None false
         (Some "https://img.example/knight.png") None (Some "chub") None.

Definition ghost : Card :=
  mkCard (Some "ghost") (Some "Ben") (Some ["Horror "]) (Some "It haunts.")
         None None true None (Some "http://img.example/ghost.png")
         (Some "catbox") None.

Definition knightCopy : Card :=
  mkCard (Some " KNIGHT ") (Some "Ann") None None None None false
         (Some "local/knight.png") (Some "https://img.example/knight2.png")
         (Some "webring") None.

Definition nameless : Card :=
  mkCard None None None None None (Some "fantasy hero") false None None None None.

Definition sampleCards : list Card := [knight; ghost; knightCopy; nameless].

(** Four cards named "Elf": with an empty creator, with the creator
    "Unknown", without a creator, and with a blank creator. *)
Definition elfOf (creator : option string) : Card :=
  mkCard (Some "Elf") creator None None None None false None None None None.

Definition sampleFilters : Filters := mkFilters None ["Fantasy"] (Some "ann").

Definition sampleSettings : Settings := mkSettings true (Some [" HORROR"; "  "]).

Definition sampleHeap : gmap positive (list Card) := {[ 1%positive := sampleCards ]}.

(** A response whose body is [{"data": {"nodes": [null]}}]. *)
Definition nullNodeResponse : Response Z :=
  mkResponse true 200 "OK"
    (Ok (VObj [("data", VObj [("nodes", VArr [VNull])])])).

Definition defaultOptions : FetchOptions Z :=
  mkFetchOptions None None None None None.

Definition recentOptions : FetchOptions Z :=
  mkFetchOptions (Some "recent") None None None None.

(** ** More of the card utilities *)

(** *** getAllTags and getAllCreators *)

(** [set.add(x)] on a [Set] of strings, kept in insertion order. *)
Definition setAdd (set : list string) (x : string) : list string :=
  if bool_decide (x ∈ set) then set else set ++ [x].

(** [Array.from(set).sort()]: without a comparator, strings are ordered by
    their code units. *)
Definition sortStrings (elems : list string) : list string :=
  sortedCopy codeUnitCompare elems.

Definition getAllTags (cards : list Card) : list string :=
  let tagsSet :=
    foldl (λ tagsSet card,
             match tags card with
             | Some cardTags => foldl setAdd tagsSet cardTags
             | None => tagsSet
             end) [] cards in
  sortStrings tagsSet.

Definition getAllCreators (cards : list Card) : list string :=
  let creatorsSet :=
    foldl (λ creatorsSet card,
             if truthy (creator card)
             then setAdd creatorsSet (orDefault (creator card) "")
             else creatorsSet) [] cards in
  sortStrings creatorsSet.

(** Ascending code-unit order without repetition. *)
Definition strictlyAscending (l : list string) : Prop :=
  StronglySorted (λ a b, String.compare a b = Lt) l.

(** *** getChubSortOptions *)

Record SortOption := mkSortOption {
  value : string;
  label : string
}.

Definition getChubSortOptions : list SortOption :=
  [mkSortOption "default" "Default";
   mkSortOption "recent" "Recent";
   mkSortOption "trending" "Trending";
   mkSortOption "rating" "Top Rated";
   mkSortOption "stars" "Most Stars";
   mkSortOption "downloads" "Most Downloads";
   mkSortOption "favorites" "Most Favorites";
   mkSortOption "newcomer" "Newcomers";
   mkSortOption "activity" "Recently Active"].

(** *** Filters that let every card through *)

(** The settings neither hide NSFW cards nor hold an effective blocklist
    term. *)
Definition neutralSettings (settings : Settings) : Prop :=
  hideNsfw settings = false ∧ ∀ term, ¬ blocklistTerm settings term.

(** What the callback answers when the settings are present. *)
Definition keepsCard (filters : Filters) (settings : Settings) (card : Card) : bool :=
  match filterCallback filters "" {[ "" := settings ]} card with
  | Ok keep => keep
  | Throw _ => false
  end.


(** ** More of the Chub API service *)

Section ChubCards.

Context {number : Type} {host : Host number}.

(** [v[key]] for a value that is neither [undefined] nor [null]:
    [undefined] when the property is absent. *)
Definition propertyOf (v : JSValue number) (key : string) : JSValue number :=
  match v with
  | VObj props => default VUndefined (ownProperty props key)
  | _ => VUndefined
  end.

Definition isNullish (v : JSValue number) : Prop := v = VUndefined ∨ v = VNull.

Definition isStringValue (v : JSValue number) : Prop := ∃ s, v = VStr s.

(** The nodes [transformChubCard] throws on: [null] or [undefined]; a truthy
    [topics] that is not an array of strings; a truthy [fullPath] that is
    not a string; without a [fullPath], an [id] whose string conversion
    throws; without a [tagline], a [description] that is neither absent nor
    a string. *)
Definition transformThrows (node : JSValue number) : Prop :=
  isNullish node
  ∨ (truthyV (propertyOf node "topics") = true
     ∧ ∀ topics, propertyOf node "topics" = VArr topics →
                 ∃ t, t ∈ topics ∧ ¬ isStringValue t)
  ∨ (truthyV (propertyOf node "fullPath") = true
     ∧ ¬ isStringValue (propertyOf node "fullPath"))
  ∨ (truthyV (propertyOf node "fullPath") = false
     ∧ isOk (toStringV (propertyOf node "id")) = false)
  ∨ (truthyV (propertyOf node "tagline") = false
     ∧ ¬ isNullish (propertyOf node "description")
     ∧ ¬ isStringValue (propertyOf node "description")).

(** A topic of the node contains one of the keywords, whatever the case of
    its letters. *)
Definition topicFlagged (node : JSValue number) : Prop :=
  ∃ topics topic keyword,
    propertyOf node "topics" = VArr topics
    ∧ VStr topic ∈ topics
    ∧ keyword ∈ nsfwKeywords
    ∧ isSubstringOf keyword (toLowerCase topic).

(** The property names of a transformed card, in order. *)
Definition cardFieldNames : list string :=
  ["id"; "service"; "name"; "desc_preview"; "desc_search"; "tags"; "creator";
   "image_url"; "avatar_url"; "possibleNsfw"; "_chubMeta"; "chunk";
   "chunk_idx"; "sourceService"].

(** The own property names of a value. *)
Definition fieldNames (v : JSValue number) : list string :=
  match v with
  | VObj props => map fst props
  | _ => []
  end.

(** The request carries the token. *)
Definition authenticated (headers : list (string * string)) (token : string) : Prop :=
  headers = [("Accept", "application/json"); ("CH-API-KEY", token);
             ("Authorization", "Bearer " +:+ token)].

End ChubCards.

(** *** The steps of transformChubCard *)

Section TransformSteps.

Context {number : Type} {host : Host number}.

(** [topics.map(t => t.toLowerCase())], from [node.topics]. *)
Definition lowerTopics (nodeTopics : JSValue number) : Result (list string) :=
  match orV nodeTopics (VArr []) with
  | VArr ts => mapR topicToLowerCase ts
  | _ => Throw TypeError
  end.

(** The [id] property, from [node.fullPath] and [node.id]. *)
Definition cardId (fullPath nodeId : JSValue number) : Result string :=
  if truthyV fullPath
  then bindR (toStringV fullPath) (λ s, Ok ("https://chub.ai/characters/" +:+ s))
  else bindR (toStringV nodeId) (λ s, Ok ("chub-" +:+ s)).

(** The [desc_preview] property, from [node.tagline] and
    [node.description]. *)
Definition cardPreview (tagline nodeDescription : JSValue number)
  : Result (JSValue number) :=
  if truthyV tagline then Ok tagline
  else bindR match nodeDescription with
             | VUndefined | VNull => Ok VUndefined
             | VStr s => Ok (VStr (String.substring 0 150 s))
             | _ => Throw TypeError
             end
             (λ preview, Ok (orV preview (VStr ""))).

(** The [creator] property, from [node.fullPath]. *)
Definition cardCreator (fullPath : JSValue number) : Result (JSValue number) :=
  if truthyV fullPath
  then match fullPath with
       | VStr s => Ok (VStr (beforeSlash s))
       | _ => Throw TypeError
       end
  else Ok (VStr "Unknown").

(** [possibleNsfw] as computed from the lower-cased topics. *)
Definition topicsFlagged (topicsLower : list string) : bool :=
  existsb (λ t, existsb (λ kw, includes t kw) nsfwKeywords) topicsLower.

(** The object [transformChubCard] returns, from the node and the results
    of the steps. *)
Definition cardObject (node : JSValue number) (topicsLower : list string)
    (id : string) (desc_preview creator : JSValue number) (fullPathText : string)
  : JSValue number :=
  VObj
    [("id", VStr id);
     ("service", VStr "chub");
     ("name", orV (propertyOf node "name") (VStr "Unknown"));
     ("desc_preview", desc_preview);
     ("desc_search", orV (propertyOf node "description") (VStr ""));
     ("tags", orV (propertyOf node "topics") (VArr []));
     ("creator", creator);
     ("image_url", VStr ("https://chub.ai/characters/" +:+ fullPathText));
     ("avatar_url",
      orV (orV (propertyOf node "avatar_url") (propertyOf node "max_res_url"))
          (VStr ""));
     ("possibleNsfw",
      orV (orV (VBool (topicsFlagged topicsLower)) (propertyOf node "nsfw_image"))
          (VBool false));
     ("_chubMeta", VObj
        [("starCount", orV (propertyOf node "starCount") zero);
         ("rating", orV (propertyOf node "rating") zero);
         ("ratingCount", orV (propertyOf node "ratingCount") zero);
         ("createdAt", orV (propertyOf node "createdAt") VNull);
         ("lastActivityAt", orV (propertyOf node "lastActivityAt") VNull);
         ("nChats", orV (propertyOf node "nChats") zero);
         ("nMessages", orV (propertyOf node "nMessages") zero);
         ("nFavorites", orV (propertyOf node "n_favorites") zero);
         ("forksCount", orV (propertyOf node "forksCount") zero);
         ("nTokens", orV (propertyOf node "nTokens") zero)]);
     ("chunk", VNull);
     ("chunk_idx", zero);
     ("sourceService", VStr "chub")].

(** [transformChubCard] as the sequence of its steps. *)
Definition transformBySteps (node : JSValue number) : Result (JSValue number) :=
  bindR (lowerTopics (propertyOf node "topics")) (λ topicsLower,
  bindR (cardId (propertyOf node "fullPath") (propertyOf node "id")) (λ id,
  bindR (cardPreview (propertyOf node "tagline") (propertyOf node "description"))
    (λ desc_preview,
  bindR (cardCreator (propertyOf node "fullPath")) (λ creator,
  bindR (toStringV (propertyOf node "fullPath")) (λ fullPathText,
  Ok (cardObject node topicsLower id desc_preview creator fullPathText)))))).

End TransformSteps.

(** *** String conversion of array elements *)

Section ValueSize.

Context {number : Type} {host : Host number}.

(** The string an element contributes to [Array.prototype.join]. *)
Definition elementToString (x : JSValue number) : Result string :=
  match x with
  | VUndefined | VNull => Ok ""
  | _ => toStringV x
  end.

(** The nesting size of a value, for induction over arrays of arrays. *)
Fixpoint valueSize (v : JSValue number) : nat :=
  match v with
  | VArr items =>
      S ((fix total (l : list (JSValue number)) : nat :=
            match l with
            | [] => 0
            | x :: l' => valueSize x + total l'
            end) items)
  | _ => 1
  end.

End ValueSize.

(** *** The result of a call *)

(** What [fetchChubCards] returns or throws, without the console. *)
Definition fetchResult {number : Type} {host : Host number}
    (options : FetchOptions number) (localStorage : Storage) (fetch : Fetch number)
  : Result (FetchedCards number) :=
  (fetchChubCards options localStorage fetch).1.

(** The error thrown for each kind of failure of a response. *)
Definition errorKinds {number : Type} {host : Host number}
    (response : Response number) (result : Result (FetchedCards number)) : Prop :=
  (ok response = false →
   result = Throw (Error ("Chub API error: " +:+ pretty (status response) +:+ " "
                          +:+ statusText response)))
  ∧ (ok response = true → ∀ e, json response = Throw e → result = Throw e)
  ∧ (ok response = true → ∀ data, json response = Ok data →
       (isNullish data → result = Throw TypeError)
       ∧ (¬ isNullish data → bodyNodes data = None →
          result = Throw (Error "Invalid response format from Chub API"))
       ∧ (∀ nodes, bodyNodes data = Some nodes →
            (∃ node, node ∈ nodes ∧ transformThrows node) →
            result = Throw TypeError)).

(** *** The sources of getRandomCard *)

(** The sources that make [getRandomCard] load every service: ['all'], or no
    source at all. *)
Definition allSources (source : option string) : Prop :=
  source = Some "all" ∨ source = None ∨ source = Some "".

(** *** Settings that block more *)

(** [stricter] hides what [settings] hides and blocks every term it
    blocks. *)
Definition blocksMore (settings stricter : Settings) : Prop :=
  (hideNsfw settings = true → hideNsfw stricter = true)
  ∧ ∀ term, blocklistTerm settings term → blocklistTerm stricter term.

(** [fetch] answers a request by its URL alone. *)
Definition ignoresHeaders {number : Type} (fetch : Fetch number) : Prop :=
  ∀ url headers1 headers2,
    fetch (mkRequest url headers1) = fetch (mkRequest url headers2).

(** *** More sample data *)

(** No tag, no creator and no search selected. *)
Definition openFilters : Filters := mkFilters None [] None.

(** Settings that hide nothing: the only blocklist term is blank. *)
Definition openSettings : Settings := mkSettings false (Some ["  "]).

(** A search for "knight", and an index that ranks the copy first. *)
Definition searchFilters : Filters := mkFilters (Some "knight") [] None.

Definition sampleFuse : Fuse :=
  λ pattern, [mkFuseResult knightCopy; mkFuseResult knight].

(** A node of the Chub API and the card made from it. *)
Definition sampleNode : JSValue Z :=
  VObj [("fullPath", VStr "ann/knight"); ("name", VStr "Knight");
        ("description", VStr "A brave knight");
        ("topics", VArr [VStr "Fantasy"; VStr "NSFW"])].

Definition sampleChubCard : JSValue Z :=
  Eval vm_compute in
    match transformChubCard (host := integerHost) sampleNode with
    | Ok card => card
    | Throw _ => VUndefined
    end.

(** A server that answers requests to the Chub API with one node. *)
Definition sampleFetch : Fetch Z :=
  λ request,
    if startsWith (request_url request) CHUB_API_BASE
    then Ok (mkResponse true 200 "OK"
               (Ok (VObj [("data", VObj [("nodes", VArr [sampleNode])])])))
    else Throw TypeError.

Definition nameSortOptions : FetchOptions Z :=
  mkFetchOptions (Some "name_asc") None None None None.

(** *** The candidates of getRandomCard, stated on its arguments *)

(** A non-blank URL beginning with [http://] or [https://]. *)
Definition httpUrl (url : string) : Prop :=
  trim url ≠ ""
  ∧ ((∃ rest, url = "http://" +:+ rest) ∨ (∃ rest, url = "https://" +:+ rest)).

(** The filter read field by field: the card's [avatar_url] or its
    [image_url] is such a URL. *)
Definition hasHttpInEitherField (card : Card) : Prop :=
  (∃ url, avatar_url card = Some url ∧ httpUrl url)
  ∨ (∃ url, image_url card = Some url ∧ httpUrl url).

(** An exception occurs: every service is to be loaded and loading one of
    them fails. *)
Definition loadingFails (source : option string)
    (loadServiceIndexFunc : string → Result (list Card)) : Prop :=
  allSources source
  ∧ ∃ serviceName, serviceName ∈ serviceNames
                   ∧ isOk (loadServiceIndexFunc serviceName) = false.

(** A candidate card: it passed the image URL filter, and it is a card of
    one of the services, marked with that service, when every service is
    loaded, and a card of [currentCards] otherwise. *)
Definition isCandidate (source : option string) (currentCards : list Card)
    (loadServiceIndexFunc : string → Result (list Card)) (card : Card) : Prop :=
  hasHttpImage card
  ∧ ((allSources source
      ∧ ∃ serviceName serviceCards original,
          serviceName ∈ serviceNames
          ∧ loadServiceIndexFunc serviceName = Ok serviceCards
          ∧ original ∈ serviceCards
          ∧ card = withSourceService serviceName original)
     ∨ (¬ allSources source ∧ card ∈ currentCards)).

(** * Properties *)

(** ** Strings *)

Lemma startsWith_spec s p :
  startsWith s p = true ↔ ∃ v, s = p +:+ v.
Proof.
  revert s. induction p as [|a p IH]; intros s; simpl.
  - split; [intros _; by exists s | done].
  - destruct s as [|b s]; simpl.
    + split; [done | by intros [v ?]].
    + rewrite andb_true_iff, bool_decide_eq_true, IH. split.
      * intros [-> [v ->]]. by exists v.
      * intros [v Hv]. injection Hv as -> ->. eauto.
Qed.

Lemma includes_spec s t :
  includes s t = true ↔ ∃ u v, s = u +:+ t +:+ v.
Proof.
  induction s as [|c s IH]; simpl.
  - rewrite orb_false_r, startsWith_spec. split.
    + intros [v Hv]. by exists "", v.
    + intros [u [v Huv]]. destruct u; [by exists v|done].
  - rewrite orb_true_iff, IH, startsWith_spec. split.
    + intros [[v Hv]|[u [v Huv]]].
      * by exists "", v.
      * exists (String c u), v. simpl. by rewrite Huv.
    + intros [[|c' u] [v Huv]]; simpl in Huv.
      * left. by exists v.
      * right. injection Huv as -> ->. eauto.
Qed.

Lemma trimEnd_idempotent s : trimEnd (trimEnd s) = trimEnd s.
Proof.
  induction s as [|c s IH]; simpl; [done|].
  destruct (trimEnd s) as [|d r] eqn:Hr.
  - destruct (isWhiteSpace c) eqn:Hc; simpl; [done|]. by rewrite Hc.
  - simpl in *. by rewrite IH.
Qed.

Lemma trimEnd_head c s :
  isWhiteSpace c = false → ∃ r, trimEnd (String c s) = String c r.
Proof.
  intros Hc. simpl. destruct (trimEnd s); rewrite ?Hc; eauto.
Qed.

Lemma trimStart_head s :
  trimStart s = "" ∨ ∃ c r, trimStart s = String c r ∧ isWhiteSpace c = false.
Proof.
  induction s as [|c s IH]; simpl; [by left|].
  destruct (isWhiteSpace c) eqn:Hc; [done|]. right. eauto.
Qed.

Lemma trim_idempotent s : trim (trim s) = trim s.
Proof.
  unfold trim. destruct (trimStart_head s) as [->|(c & r & -> & Hc)]; [done|].
  destruct (trimEnd_head c r Hc) as [r' Hr']. rewrite Hr'. simpl trimStart.
  rewrite Hc, <- Hr'. apply trimEnd_idempotent.
Qed.

(** ** deduplicateCards *)

Lemma dedup_foldl cards seen acc :
  (foldl dedupStep (seen, acc) cards).2 = acc ++ dedupFrom seen cards.
Proof.
  revert seen acc. induction cards as [|card rest IH]; intros seen acc; simpl.
  - by rewrite app_nil_r.
  - destruct (seen !! cardKey card); [apply IH|].
    rewrite IH, <- app_assoc. done.
Qed.

Lemma deduplicateCards_dedupFrom cards :
  deduplicateCards cards = dedupFrom ∅ cards.
Proof. unfold deduplicateCards. by rewrite dedup_foldl. Qed.

Lemma seenKeysOf_step seen visited card :
  seenKeysOf seen visited →
  seenKeysOf (match seen !! cardKey card with
              | Some _ => seen
              | None => <[cardKey card := card]> seen
              end) (visited ++ [card]).
Proof.
  intros Hinv k. rewrite fmap_app, elem_of_app, <- (Hinv k). simpl.
  rewrite list_elem_of_singleton.
  destruct (seen !! cardKey card) eqn:Hc.
  - split; [by left|]. intros [?| ->]; [done|]. by rewrite Hc.
  - rewrite lookup_insert_is_Some. split.
    + intros [?|[? ?]]; [by right | by left].
    + intros [?| ->]; [|by left].
      destruct (decide (cardKey card = k)); [by left | by right].
Qed.

Lemma dedupFrom_first_occurrences rest visited seen :
  seenKeysOf seen visited →
  dedupFrom seen rest =
  (filter (λ ic : nat * Card,
             cardKey ic.2 ∉ cardKey <$> take ic.1 (visited ++ rest))
          (imap (λ i card, (length visited + i, card)) rest)).*2.
Proof.
  revert visited seen. induction rest as [|card rest IH]; intros visited seen Hinv.
  - done.
  - pose proof (seenKeysOf_step _ _ card Hinv) as Hstep.
    specialize (IH (visited ++ [card]) _ Hstep).
    simpl. rewrite filter_cons. simpl.
    rewrite Nat.add_0_r, take_app_length.
    assert (imap ((λ i c, (length visited + i, c)) ∘ S) rest
            = imap (λ i c, (length (visited ++ [card]) + i, c)) rest) as ->.
    { apply imap_ext. intros i c _. simpl. rewrite length_app. simpl.
      f_equal. lia. }
    rewrite <- app_assoc in IH. simpl in IH.
    destruct (seen !! cardKey card) eqn:Hc.
    + rewrite decide_False; [done|].
      intros Hn. apply Hn, Hinv. by rewrite Hc.
    + rewrite decide_True; [by rewrite fmap_cons, IH|].
      intros Hin. apply Hinv in Hin. rewrite Hc in Hin. by destruct Hin.
Qed.

Lemma dedupFrom_sublist seen cards : dedupFrom seen cards `sublist_of` cards.
Proof.
  revert seen. induction cards as [|card rest IH]; intros seen; simpl.
  - done.
  - destruct (seen !! cardKey card).
    + by apply sublist_cons.
    + by apply sublist_skip.
Qed.

Lemma dedupFrom_keys seen cards :
  NoDup (cardKey <$> dedupFrom seen cards) ∧
  ∀ k, k ∈ cardKey <$> dedupFrom seen cards → seen !! k = None.
Proof.
  revert seen. induction cards as [|card rest IH]; intros seen; simpl.
  - split; [constructor | by intros k ?%elem_of_nil].
  - destruct (seen !! cardKey card) eqn:Hc; [apply IH|].
    destruct (IH (<[cardKey card := card]> seen)) as [Hnd Hfresh].
    rewrite fmap_cons. split.
    + constructor; [|done]. intros Hin%Hfresh.
      by rewrite lookup_insert_eq in Hin.
    + intros k [->|Hin]%elem_of_cons; [done|].
      specialize (Hfresh k Hin).
      destruct (decide (cardKey card = k)) as [<-|Hne].
      * by rewrite lookup_insert_eq in Hfresh.
      * by rewrite lookup_insert_ne in Hfresh.
Qed.

Lemma dedupFrom_distinct seen cards :
  NoDup (cardKey <$> cards) →
  (∀ k, k ∈ cardKey <$> cards → seen !! k = None) →
  dedupFrom seen cards = cards.
Proof.
  revert seen. induction cards as [|card rest IH]; intros seen Hnd Hfresh; simpl.
  - done.
  - rewrite fmap_cons in Hnd, Hfresh. apply NoDup_cons in Hnd as [Hnot Hnd].
    rewrite (Hfresh (cardKey card)) by (apply elem_of_cons; by left).
    f_equal. apply IH; [done|]. intros k Hin.
    rewrite lookup_insert_ne; [apply Hfresh; apply elem_of_cons; by right|].
    intros <-. done.
Qed.

(** C1. [deduplicateCards] keeps the first occurrence per key: the output
    is exactly the list of the cards whose key occurs at no earlier position
    of the input, in input order. The key is the lower-cased, trimmed name
    (the empty string when the name is missing), a bar, and the lower-cased,
    trimmed creator (["unknown"] when the creator is missing); a property is
    missing when it is absent or empty, the operands [||] replaces. *)
Theorem deduplicateCards_keeps_first_occurrence (cards : list Card) :
  deduplicateCards cards = firstOccurrences cards
  ∧ ∀ card,
      cardKey card =
        match name card with
        | Some n => trim (toLowerCase n)
        | None => ""
        end +:+ "|" +:+
        match creator card with
        | Some (String c s) => trim (toLowerCase (String c s))
        | _ => "unknown"
        end.
Proof.
  split.
  - rewrite deduplicateCards_dedupFrom. unfold firstOccurrences.
    rewrite (dedupFrom_first_occurrences cards [] ∅); [done|].
    intros k. rewrite lookup_empty. simpl.
    split; [by intros [? ?] | by intros ?%elem_of_nil].
  - intros card. unfold cardKey.
    destruct (name card) as [[|? ?]|], (creator card) as [[|? ?]|]; reflexivity.
Qed.

(** C9. [deduplicateCards] preserves order and is idempotent: the output is
    a subsequence of the input, the keys of the output are pairwise
    distinct, and de-duplicating the output again changes nothing. *)
Theorem deduplicateCards_idempotent_order_preserving (cards : list Card) :
  deduplicateCards cards `sublist_of` cards
  ∧ NoDup (cardKey <$> deduplicateCards cards)
  ∧ deduplicateCards (deduplicateCards cards) = deduplicateCards cards.
Proof.
  rewrite !deduplicateCards_dedupFrom.
  destruct (dedupFrom_keys ∅ cards) as [Hnd _].
  split; [apply dedupFrom_sublist|]. split; [done|].
  apply dedupFrom_distinct; [done|]. intros k _. apply lookup_empty.
Qed.

(** ** filterCards *)

Lemma orDefault_searchedDescription card :
  orDefault (orElse (orElse (desc_search card) (desc_preview card))
                    (description card)) "" = searchedDescription card.
Proof.
  unfold searchedDescription, orElse.
  destruct (desc_search card) as [[|? ?]|], (desc_preview card) as [[|? ?]|],
    (description card) as [[|? ?]|]; reflexivity.
Qed.

Lemma string_length_pos (s : string) : 0 < String.length s ↔ s ≠ "".
Proof. destruct s; simpl; split; (done || lia). Qed.

Lemma normalized_blocklist_elem settings term :
  term ∈ filter (λ t, 0 < String.length t)
           (map (λ t, trim (toLowerCase t)) (default [] (tagBlocklist settings)))
  ↔ blocklistTerm settings term.
Proof.
  rewrite list_elem_of_filter, string_length_pos. unfold blocklistTerm.
  change (map ?f ?l) with (f <$> l). rewrite list_elem_of_fmap. split.
  - intros [Hne (raw & -> & Hin)]. eauto.
  - intros (raw & Hin & -> & Hne). eauto.
Qed.

Lemma existsb_elem_of {A} (f : A → bool) (l : list A) :
  existsb f l = true ↔ ∃ x, x ∈ l ∧ f x = true.
Proof.
  rewrite existsb_exists. split; intros (x & Hin & Hf); exists x;
    (split; [by apply list_elem_of_In | done]).
Qed.

Lemma forallb_elem_of {A} (f : A → bool) (l : list A) :
  forallb f l = true ↔ ∀ x, x ∈ l → f x = true.
Proof.
  rewrite forallb_forall. split; intros H x Hin; apply H;
    by apply list_elem_of_In.
Qed.

Lemma arrayIncludes_spec arr x : arrayIncludes arr x = true ↔ x ∈ arr.
Proof. unfold arrayIncludes. apply bool_decide_eq_true. Qed.

Lemma passesBlocklist_spec settings card :
  passesBlocklist settings card = true ↔
  ∀ term, blocklistTerm settings term → ¬ blockedBy term card.
Proof.
  unfold passesBlocklist.
  set (terms := filter _ (map _ (default [] (tagBlocklist settings)))).
  assert (Hterms : ∀ t, t ∈ terms ↔ blocklistTerm settings t)
    by apply normalized_blocklist_elem.
  assert (Hempty : terms = [] → ∀ t, blocklistTerm settings t → ¬ blockedBy t card).
  { intros Hnil t Ht%Hterms. rewrite Hnil in Ht. by apply elem_of_nil in Ht. }
  destruct (0 <? length (default [] (tagBlocklist settings))) eqn:Hlen.
  2: { split; [intros _|done]. apply Hempty. subst terms.
       apply Nat.ltb_ge in Hlen.
       destruct (default [] (tagBlocklist settings)); [done|simpl in Hlen; lia]. }
  destruct (0 <? length terms) eqn:Hlen'.
  2: { split; [intros _|done]. apply Hempty.
       apply Nat.ltb_ge in Hlen'. destruct terms; [done|simpl in Hlen'; lia]. }
  rewrite orDefault_searchedDescription.
  set (tagHit := match tags card with Some _ => _ | None => false end).
  assert (HtagHit : tagHit = true ↔
            ∃ t, t ∈ terms ∧ ∃ cardTags tag, tags card = Some cardTags ∧
                   tag ∈ cardTags ∧ t = trim (toLowerCase tag)).
  { subst tagHit. destruct (tags card) as [cardTags|].
    - rewrite existsb_elem_of. split.
      + intros (t & Hin & Hinc). exists t. split; [done|].
        apply arrayIncludes_spec in Hinc.
        change (map ?f ?l) with (f <$> l) in Hinc.
        apply list_elem_of_fmap in Hinc as (tag & -> & Htag). eauto.
      + intros (t & Hin & cardTags' & tag & [= <-] & Htag & ->).
        eexists. split; [done|]. apply arrayIncludes_spec.
        change (map ?f ?l) with (f <$> l). apply list_elem_of_fmap. eauto.
    - split; [done|]. by intros (t & _ & ? & ? & ? & _). }
  destruct tagHit.
  { split; [done|]. intros Hall. destruct HtagHit as [(t & Hin & Hhit) _]; [done|].
    exfalso. apply (Hall t); [by apply Hterms|]. by left. }
  destruct (existsb (includes _) terms) eqn:Hdesc.
  { split; [done|]. intros Hall.
    apply existsb_elem_of in Hdesc as (t & Hin & Hinc).
    exfalso. apply (Hall t); [by apply Hterms|].
    right; left. by apply includes_spec. }
  destruct (existsb (includes (toLowerCase (orDefault (name card) ""))) terms) eqn:Hname.
  { split; [done|]. intros Hall.
    apply existsb_elem_of in Hname as (t & Hin & Hinc).
    exfalso. apply (Hall t); [by apply Hterms|].
    right; right. by apply includes_spec. }
  split; [intros _|done]. intros t Ht%Hterms [Htag|[Hd|Hn]].
  - destruct HtagHit as [_ Hcontra]. by discriminate Hcontra; eauto.
  - apply includes_spec in Hd.
    assert (existsb (includes (toLowerCase (searchedDescription card))) terms = true)
      by (apply existsb_elem_of; eauto). congruence.
  - apply includes_spec in Hn.
    assert (existsb (includes (toLowerCase (orDefault (name card) ""))) terms = true)
      by (apply existsb_elem_of; eauto). congruence.
Qed.

Lemma tag_filter_spec filters card :
  (0 <? length (filters_tags filters)) &&
  negb (match tags card with
        | Some cardTags => forallb (arrayIncludes cardTags) (filters_tags filters)
        | None => false
        end) = false
  ↔ hasSelectedTags filters card.
Proof.
  unfold hasSelectedTags. destruct (filters_tags filters) as [|t ts] eqn:Hts.
  - simpl. split; [by intros _ ?|done].
  - cbn [length Nat.ltb Nat.leb andb]. rewrite negb_false_iff.
    destruct (tags card) as [cardTags|].
    + rewrite forallb_elem_of. split.
      * intros Hall _. exists cardTags. split; [done|].
        intros tag Hin. by apply arrayIncludes_spec, Hall.
      * intros Hsel tag Hin. destruct Hsel as (? & [= <-] & Hall); [done|].
        by apply arrayIncludes_spec, Hall.
    + split; [done|]. intros Hsel. by destruct Hsel as (? & ? & _).
Qed.

Lemma creator_filter_spec filters card :
  truthy (filters_creator filters) &&
  negb (bool_decide (creator card = filters_creator filters)) = false
  ↔ hasSelectedCreator filters card.
Proof.
  unfold hasSelectedCreator.
  destruct (filters_creator filters) as [[|c s]|]; simpl.
  - split; [|done]. by intros _ ? [= <-].
  - rewrite negb_false_iff, bool_decide_eq_true. split.
    + by intros -> ? [= <-].
    + intros Hsel. by apply Hsel.
  - split; [|done]. by intros _ ? [=].
Qed.

Lemma nsfw_filter_spec settings card :
  hideNsfw settings && possibleNsfw card = false ↔ ¬ hiddenAsNsfw settings card.
Proof.
  unfold hiddenAsNsfw.
  destruct (hideNsfw settings), (possibleNsfw card); simpl; split;
    try done; try (by intros _ [? ?]). intros H. by destruct H.
Qed.

Lemma filterCallback_spec filters extensionName extension_settings settings card :
  extension_settings !! extensionName = Some settings →
  ∃ keep, filterCallback filters extensionName extension_settings card = Ok keep
          ∧ (keep = true ↔ matchesAllFilters filters settings card).
Proof.
  intros Hsettings. unfold filterCallback, matchesAllFilters.
  rewrite Hsettings.
  pose proof (tag_filter_spec filters card) as Htags.
  pose proof (creator_filter_spec filters card) as Hcreator.
  pose proof (nsfw_filter_spec settings card) as Hnsfw.
  pose proof (passesBlocklist_spec settings card) as Hblock.
  destruct (_ && negb (match tags card with Some _ => _ | None => _ end)).
  { exists false. split; [done|]. split; [done|]. intros [?%Htags _]. done. }
  destruct (truthy _ && _).
  { exists false. split; [done|]. split; [done|]. intros (_ & ?%Hcreator & _). done. }
  destruct (hideNsfw settings && possibleNsfw card).
  { exists false. split; [done|]. split; [done|]. intros (_ & _ & ?%Hnsfw & _). done. }
  eexists. split; [done|]. split.
  - intros Hpass. repeat split; [by apply Htags|by apply Hcreator|by apply Hnsfw|].
    by apply Hblock.
  - intros (_ & _ & _ & ?). by apply Hblock.
Qed.

Lemma filterR_spec {A} (f : A → Result bool) (P : A → Prop) (l : list A) :
  (∀ x, ∃ keep, f x = Ok keep ∧ (keep = true ↔ P x)) →
  ∃ kept, filterR f l = Ok kept ∧ kept `sublist_of` l
          ∧ ∀ x, x ∈ kept ↔ x ∈ l ∧ P x.
Proof.
  intros Hf. induction l as [|a l (kept & Hrun & Hsub & Hmem)]; simpl.
  - exists []. split; [done|]. split; [done|].
    intros x. split; [by intros ?%elem_of_nil | by intros [?%elem_of_nil _]].
  - destruct (Hf a) as (keep & -> & Hkeep). rewrite Hrun. simpl.
    eexists. split; [done|]. destruct keep.
    + split; [by apply sublist_skip|]. intros x.
      rewrite !elem_of_cons, Hmem. split.
      * intros [->|[? ?]]; [|by auto]. split; [by left|]. by apply Hkeep.
      * intros [[->|?] ?]; auto.
    + split; [by apply sublist_cons|]. intros x.
      rewrite elem_of_cons, Hmem. split.
      * intros [? ?]. auto.
      * intros [[->|?] HP]; [|done]. apply Hkeep in HP. done.
Qed.

(** C2. [filterCards] returns the cards matching all active filters. With
    no text search active and the extension's settings present, the call
    returns a subsequence of [cards], and a card is in it if and only if it
    is in [cards] and: when tags are selected its tags include each of them;
    when a creator is selected its creator is that string; the NSFW policy
    does not hide it; and no normalized blocklist term equals one of its
    lower-cased, trimmed tags or occurs in its lower-cased description or
    name. *)
Theorem filterCards_matches_all_filters
    (cards : list Card) (filters : Filters) (fuse : option Fuse)
    (extensionName : string) (extension_settings : gmap string Settings)
    (settings : Settings) :
  searchInactive filters fuse →
  extension_settings !! extensionName = Some settings →
  ∃ kept,
    filterCards cards filters fuse extensionName extension_settings = Ok kept
    ∧ kept `sublist_of` cards
    ∧ ∀ card, card ∈ kept ↔ card ∈ cards ∧ matchesAllFilters filters settings card.
Proof.
  intros Hsearch Hsettings. unfold filterCards.
  assert (match fuse with
          | Some fuseSearch =>
              if truthy (filters_search filters)
              then map item (fuseSearch (orDefault (filters_search filters) ""))
              else cards
          | None => cards
          end = cards) as ->.
  { destruct Hsearch as [->| ->]; [by destruct fuse|done]. }
  apply filterR_spec. intros card. by apply filterCallback_spec.
Qed.

(** ** Array.prototype.sort with a consistent comparator *)

Section StableSort.

Context {A : Type} (compareFn : A → A → Z) `{!ConsistentCompare compareFn}.

Lemma compare_total a b : (0 < compareFn a b)%Z → (compareFn b a <= 0)%Z.
Proof. pose proof (compare_antisym a b). lia. Qed.

Lemma compare_zero_sym a b : compareFn a b = 0%Z → compareFn b a = 0%Z.
Proof. pose proof (compare_antisym a b). lia. Qed.

Lemma sortInsert_perm x l : sortInsert compareFn x l ≡ₚ x :: l.
Proof.
  induction l as [|y l IH]; simpl; [done|].
  destruct (compareFn x y <=? 0)%Z; [done|].
  rewrite IH. apply Permutation_swap.
Qed.

Lemma sortedCopy_perm l : sortedCopy compareFn l ≡ₚ l.
Proof.
  induction l as [|x l IH]; simpl; [done|].
  by rewrite sortInsert_perm, IH.
Qed.

Lemma sortInsert_sorted x l :
  StronglySorted (λ a b, (compareFn a b <= 0)%Z) l →
  StronglySorted (λ a b, (compareFn a b <= 0)%Z) (sortInsert compareFn x l).
Proof.
  induction 1 as [|y l Hsorted IH Hall]; simpl.
  - repeat constructor.
  - destruct (compareFn x y <=? 0)%Z eqn:Hxy.
    + apply Z.leb_le in Hxy. constructor; [by constructor|].
      constructor; [done|]. eapply Forall_impl; [exact Hall|].
      intros z Hyz. simpl in Hyz. by eapply compare_trans.
    + apply Z.leb_gt in Hxy. constructor; [done|].
      rewrite sortInsert_perm. constructor; [by apply compare_total|done].
Qed.

Lemma sortedCopy_sorted l :
  StronglySorted (λ a b, (compareFn a b <= 0)%Z) (sortedCopy compareFn l).
Proof.
  induction l as [|x l IH]; simpl; [constructor|by apply sortInsert_sorted].
Qed.

Lemma sortInsert_stable k x l :
  filter (λ c, compareFn c k = 0%Z) (sortInsert compareFn x l)
  = filter (λ c, compareFn c k = 0%Z) (x :: l).
Proof.
  induction l as [|y l IH]; simpl; [done|].
  destruct (compareFn x y <=? 0)%Z eqn:Hxy; [done|].
  apply Z.leb_gt in Hxy.
  rewrite (filter_cons _ y), IH, !filter_cons.
  destruct (decide (compareFn x k = 0%Z)) as [Hx|Hx],
           (decide (compareFn y k = 0%Z)) as [Hy|Hy]; try done.
  exfalso. apply compare_zero_sym in Hy.
  assert (compareFn x y <= 0)%Z by (apply (compare_trans x k y); lia). lia.
Qed.

Lemma sortedCopy_stable k l :
  filter (λ c, compareFn c k = 0%Z) (sortedCopy compareFn l)
  = filter (λ c, compareFn c k = 0%Z) l.
Proof.
  induction l as [|x l IH]; simpl; [done|].
  by rewrite sortInsert_stable, !filter_cons, IH.
Qed.

Lemma compare_refl a : compareFn a a = 0%Z.
Proof. pose proof (compare_antisym a a). lia. Qed.

Lemma filter_same_key_head k x l :
  compareFn x k = 0%Z →
  filter (λ c, compareFn c k = 0%Z) (x :: l)
  = x :: filter (λ c, compareFn c k = 0%Z) l.
Proof. intros Hx. by rewrite filter_cons, decide_True. Qed.

(** A sorted list is determined by the order of the elements within each
    class of equal keys: two stable, sorted arrangements of the same input
    are the same list, whatever algorithm produced them. *)
Lemma stable_sorted_unique l1 l2 :
  StronglySorted (λ a b, (compareFn a b <= 0)%Z) l1 →
  StronglySorted (λ a b, (compareFn a b <= 0)%Z) l2 →
  (∀ k, filter (λ c, compareFn c k = 0%Z) l1
        = filter (λ c, compareFn c k = 0%Z) l2) →
  l1 = l2.
Proof.
  intros Hs1. revert l2.
  induction Hs1 as [|x l1 Hs1 IH Hx]; intros l2 Hs2 Hclass.
  - destruct l2 as [|y l2]; [done|]. specialize (Hclass y).
    rewrite (filter_same_key_head y y) in Hclass by apply compare_refl. done.
  - destruct Hs2 as [|y l2 Hs2 Hy].
    { specialize (Hclass x).
      rewrite (filter_same_key_head x x) in Hclass by apply compare_refl. done. }
    assert (compareFn x y <= 0)%Z as Hxy.
    { assert (y ∈ filter (λ c, compareFn c y = 0%Z) (x :: l1)) as Hin.
      { rewrite Hclass, (filter_same_key_head y y) by apply compare_refl.
        apply elem_of_cons. by left. }
      apply list_elem_of_filter in Hin as [_ [->|Hin]%elem_of_cons].
      - by rewrite compare_refl.
      - by apply (proj1 (Forall_forall _ _) Hx). }
    assert (compareFn y x <= 0)%Z as Hyx.
    { assert (x ∈ filter (λ c, compareFn c x = 0%Z) (y :: l2)) as Hin.
      { rewrite <- Hclass, (filter_same_key_head x x) by apply compare_refl.
        apply elem_of_cons. by left. }
      apply list_elem_of_filter in Hin as [_ [->|Hin]%elem_of_cons].
      - by rewrite compare_refl.
      - by apply (proj1 (Forall_forall _ _) Hy). }
    assert (compareFn y x = 0%Z) as Hsame
      by (pose proof (compare_antisym x y); lia).
    pose proof (Hclass x) as Hhead.
    rewrite (filter_same_key_head x x), (filter_same_key_head x y) in Hhead
      by (done || apply compare_refl).
    injection Hhead as -> _. f_equal. apply IH; [done|].
    intros k. specialize (Hclass k). rewrite !filter_cons in Hclass.
    destruct (decide (compareFn y k = 0%Z)); [by injection Hclass|done].
Qed.

(** So every stable sort by [compareFn] returns [sortedCopy]. *)
Lemma sortedCopy_unique l result :
  StronglySorted (λ a b, (compareFn a b <= 0)%Z) result →
  (∀ k, filter (λ c, compareFn c k = 0%Z) result
        = filter (λ c, compareFn c k = 0%Z) l) →
  result = sortedCopy compareFn l.
Proof.
  intros Hsorted Hstable. apply stable_sorted_unique; [done|apply sortedCopy_sorted|].
  intros k. by rewrite Hstable, sortedCopy_stable.
Qed.

End StableSort.

(** ** sortCards *)

Section SortCardsProperties.

Context (localeCompare : string → string → Z).

(** A run of [sortCards]: the result is a fresh array holding
    [sortedContents], and nothing else is written. *)
Lemma sortCards_run (h : heap) (cards : loc) (elems : list Card) (sortBy : string) :
  h !! cards = Some elems →
  sortCards localeCompare cards sortBy h
  = Ok (fresh (dom h),
        <[fresh (dom h) := sortedContents localeCompare sortBy elems]> h).
Proof.
  intros Hcards. unfold sortCards, bindH, spread, sortedContents.
  rewrite Hcards.
  repeat case_decide;
    try (unfold Array_sort; by rewrite lookup_insert_eq, insert_insert_eq).
  by destruct (isApiLevelSort sortBy).
Qed.

Lemma fresh_loc_unused (h : heap) : h !! fresh (dom h) = None.
Proof. apply not_elem_of_dom, is_fresh. Qed.

Lemma byField_consistent field :
  ConsistentCompare localeCompare →
  ConsistentCompare (λ a b, localeCompare (sortKey field a) (sortKey field b)).
Proof.
  intros Hlc. split.
  - intros a b. apply compare_antisym.
  - intros a b c. apply compare_trans.
Qed.

Lemma byField_reverse_consistent field :
  ConsistentCompare localeCompare →
  ConsistentCompare (λ a b, localeCompare (sortKey field b) (sortKey field a)).
Proof.
  intros Hlc. split.
  - intros a b. apply compare_antisym.
  - intros a b c Hab Hbc. by apply (compare_trans _ (sortKey field b)).
Qed.

Lemma sortedContents_local sortBy field direction elems :
  localSort sortBy = Some (field, direction) →
  sortedContents localeCompare sortBy elems
  = sortedCopy
      (match direction with
       | Ascending => λ a b, localeCompare (sortKey field a) (sortKey field b)
       | Descending => λ a b, localeCompare (sortKey field b) (sortKey field a)
       end) elems.
Proof.
  unfold localSort, sortedContents.
  repeat case_decide; intros [= <- <-]; reflexivity.
Qed.

Lemma sortedContents_other sortBy elems :
  sortBy ∉ localSorts → sortedContents localeCompare sortBy elems = elems.
Proof.
  unfold localSorts, sortedContents. rewrite !elem_of_cons. intros Hnot.
  repeat case_decide; tauto.
Qed.

End SortCardsProperties.

Lemma StronglySorted_weaken {A} (R R' : A → A → Prop) (l : list A) :
  (∀ a b, R a b → R' a b) → StronglySorted R l → StronglySorted R' l.
Proof.
  intros HR. induction 1 as [|x l Hsorted IH Hall]; constructor; [done|].
  eapply Forall_impl; [exact Hall|]. intros y. apply HR.
Qed.

Lemma apiSorts_not_local sortBy :
  sortBy ∈ apiSorts ∨ sortBy = "relevance" → sortBy ∉ localSorts.
Proof.
  unfold apiSorts, localSorts. rewrite !elem_of_cons, !elem_of_nil.
  intros Hapi Hlocal.
  destruct Hapi as [Hapi|Hapi]; repeat destruct Hapi as [Hapi|Hapi];
    try done; subst sortBy;
    repeat destruct Hlocal as [Hlocal|Hlocal]; done.
Qed.

(** C3. [sortCards] does not mutate its argument: for every sort token,
    local, API-level or unrecognized, the call returns an array other than
    [cards], and after the call [cards] holds the same elements in the same
    order; no other existing array is written either. *)
Theorem sortCards_does_not_mutate (localeCompare : string → string → Z)
    (h : heap) (cards : loc) (elems : list Card) (sortBy : string) :
  h !! cards = Some elems →
  ∃ sorted h',
    sortCards localeCompare cards sortBy h = Ok (sorted, h')
    ∧ h' !! cards = Some elems
    ∧ sorted ≠ cards
    ∧ ∀ arr, arr ≠ sorted → h' !! arr = h !! arr.
Proof.
  intros Hcards. eexists _, _. split; [by apply sortCards_run|].
  assert (fresh (dom h) ≠ cards) as Hfresh.
  { intros Heq. pose proof (fresh_loc_unused h) as Hnone.
    rewrite Heq, Hcards in Hnone. done. }
  split; [by rewrite lookup_insert_ne|]. split; [done|].
  intros arr Harr. by rewrite lookup_insert_ne.
Qed.

(** C4. The local sorts order the cards and are stable. For a consistent
    collation and each of [name_asc], [name_desc], [creator_asc],
    [creator_desc], the array returned holds a permutation of the input,
    ordered by the named field (the empty string when it is missing),
    ascending or descending as the token says, and the cards whose keys
    compare equal to any given key appear in their input order. *)
Theorem sortCards_local_sorts_stable (localeCompare : string → string → Z)
    (h : heap) (cards : loc) (elems : list Card) (sortBy : string)
    (field : SortField) (direction : SortDirection) :
  ConsistentCompare localeCompare →
  h !! cards = Some elems →
  localSort sortBy = Some (field, direction) →
  ∃ sorted h' result,
    sortCards localeCompare cards sortBy h = Ok (sorted, h')
    ∧ h' !! sorted = Some result
    ∧ result ≡ₚ elems
    ∧ StronglySorted (inOrder localeCompare field direction) result
    ∧ ∀ k, filter (λ card, sameKey localeCompare field card k) result
           = filter (λ card, sameKey localeCompare field card k) elems.
Proof.
  intros Hlc Hcards Hlocal. eexists _, _, _.
  split; [by apply sortCards_run|]. split; [by apply lookup_insert_eq|].
  rewrite (sortedContents_local _ _ _ _ _ Hlocal).
  destruct direction.
  - pose proof (byField_consistent localeCompare field Hlc) as Hcmp.
    split; [by apply sortedCopy_perm|]. split; [by apply sortedCopy_sorted|].
    intros k.
    etrans; [|apply (sortedCopy_stable
                       (λ a b, localeCompare (sortKey field a) (sortKey field b)) k)].
    by apply list_filter_iff.
  - pose proof (byField_reverse_consistent localeCompare field Hlc) as Hcmp.
    split; [by apply sortedCopy_perm|]. split.
    + eapply StronglySorted_weaken; [|by apply sortedCopy_sorted].
      intros a b Hab. simpl in *.
      pose proof (compare_antisym (sortKey field a) (sortKey field b)). lia.
    + intros k.
      assert (∀ card, sameKey localeCompare field card k ↔
                      localeCompare (sortKey field k) (sortKey field card) = 0%Z)
        as Hsame.
      { intros card. unfold sameKey.
        pose proof (compare_antisym (sortKey field card) (sortKey field k)). lia. }
      etrans; [apply (list_filter_iff _ _ _ Hsame)|].
      etrans; [apply (sortedCopy_stable
                        (λ a b, localeCompare (sortKey field b) (sortKey field a)) k)|].
      apply list_filter_iff. intros card. symmetry. apply Hsame.
Qed.

(** C5. For the API-level tokens [recent], [trending], [rating], [stars],
    [downloads], [favorites], [newcomer], [activity], [default], for
    [relevance] and for any token that is not a local sort, the array
    [sortCards] returns holds the input, element for element, in the
    original order. *)
Theorem sortCards_api_sort_unchanged (localeCompare : string → string → Z)
    (h : heap) (cards : loc) (elems : list Card) (sortBy : string) :
  h !! cards = Some elems →
  sortBy ∈ apiSorts ∨ sortBy = "relevance" ∨ sortBy ∉ localSorts →
  ∃ sorted h',
    sortCards localeCompare cards sortBy h = Ok (sorted, h')
    ∧ h' !! sorted = Some elems.
Proof.
  intros Hcards Htoken. eexists _, _. split; [by apply sortCards_run|].
  rewrite lookup_insert_eq, sortedContents_other; [done|].
  destruct Htoken as [?|[?|?]]; [apply apiSorts_not_local; by left
                                 |apply apiSorts_not_local; by right|done].
Qed.

(** Code-unit order is a consistent collation. *)
Lemma string_compare_le_trans (a b c : string) :
  String.compare a b ≠ Gt → String.compare b c ≠ Gt → String.compare a c ≠ Gt.
Proof.
  revert b c. induction a as [|x a IH]; intros [|y b] [|z c]; simpl; try done.
  unfold Ascii.compare.
  destruct (N.compare_spec (N_of_ascii x) (N_of_ascii y)) as [Hxy|Hxy|Hxy];
    destruct (N.compare_spec (N_of_ascii y) (N_of_ascii z)) as [Hyz|Hyz|Hyz];
    destruct (N.compare_spec (N_of_ascii x) (N_of_ascii z)) as [Hxz|Hxz|Hxz];
    try done; try lia.
  apply IH.
Qed.

Lemma codeUnitCompare_consistent : ConsistentCompare codeUnitCompare.
Proof.
  split.
  - intros a b. unfold codeUnitCompare. rewrite (String.compare_antisym a b).
    by destruct (String.compare b a).
  - intros a b c. unfold codeUnitCompare.
    pose proof (string_compare_le_trans a b c) as Htrans.
    destruct (String.compare a b), (String.compare b c), (String.compare a c);
      try done; intros _ _; exfalso; by apply Htrans.
Qed.

(** ** getRandomCard *)

Lemma hasImageUrl_spec card : hasImageUrl card = true ↔ hasHttpImage card.
Proof.
  unfold hasImageUrl, hasHttpImage, imageUrlOf, orElse.
  assert (∀ url, (0 <? String.length (trim url)) &&
                 (startsWith url "http://" || startsWith url "https://") = true
                 ↔ trim url ≠ "" ∧ ((∃ rest, url = "http://" +:+ rest)
                                    ∨ (∃ rest, url = "https://" +:+ rest))) as Hurl.
  { intros url. rewrite andb_true_iff, orb_true_iff, !startsWith_spec,
      Nat.ltb_lt, string_length_pos. done. }
  destruct (avatar_url card) as [[|c s]|]; cbn [truthy].
  - destruct (image_url card) as [[|c s]|]; cbn [truthy andb].
    + split; [done|]. by intros (url & [= <-] & Hne & _).
    + rewrite Hurl. split; [by eauto|]. by intros (url & [= <-] & ?).
    + split; [done|]. by intros (url & [=] & _).
  - cbn [andb]. rewrite Hurl. split; [by eauto|]. by intros (url & [= <-] & ?).
  - destruct (image_url card) as [[|c s]|]; cbn [truthy andb].
    + split; [done|]. by intros (url & [= <-] & Hne & _).
    + rewrite Hurl. split; [by eauto|]. by intros (url & [= <-] & ?).
    + split; [done|]. by intros (url & [=] & _).
Qed.

Lemma loadAllServices_filtered loader services acc cards :
  Forall hasHttpImage acc →
  loadAllServices loader services acc = Ok cards →
  Forall hasHttpImage cards.
Proof.
  revert acc. induction services as [|serviceName rest IH]; intros acc Hacc; simpl.
  - by intros [= <-].
  - destruct (loader serviceName) as [serviceCards|e]; simpl; [|done].
    apply IH. apply Forall_app. split; [done|].
    apply Forall_forall. intros card [Hpass _]%list_elem_of_filter.
    by apply hasImageUrl_spec.
Qed.

Lemma filter_hasImageUrl cards :
  Forall hasHttpImage (filter (λ card, hasImageUrl card = true) cards).
Proof.
  apply Forall_forall. intros card [Hpass _]%list_elem_of_filter.
  by apply hasImageUrl_spec.
Qed.

Lemma candidateCards_filtered source currentCards loader cards :
  (candidateCards source currentCards loader).1 = Ok cards →
  Forall hasHttpImage cards.
Proof.
  unfold candidateCards.
  destruct (bool_decide (source = Some "current") && (0 <? length currentCards)).
  { simpl. intros [= <-]. apply filter_hasImageUrl. }
  destruct (bool_decide (source = Some "all") || negb (truthy source)).
  { intros Hload.
    eapply (loadAllServices_filtered loader serviceNames []); [constructor|exact Hload]. }
  simpl. intros [= <-]. apply filter_hasImageUrl.
Qed.

Lemma candidateCards_current currentCards loader :
  (candidateCards (Some "current") currentCards loader).1
  = Ok (filter (λ card, hasImageUrl card = true) currentCards).
Proof.
  unfold candidateCards. destruct currentCards; reflexivity.
Qed.

(** [Math.floor(Math.random() * n)] is an index below [n]. *)
Lemma randomIndex_in_range (random : Q) (n : nat) :
  (0 <= random)%Q → (random < 1)%Q → 0 < n →
  (0 <= Qfloor (random * inject_Z (Z.of_nat n)) < Z.of_nat n)%Z.
Proof.
  intros Hlo Hhi Hn.
  assert (0 < inject_Z (Z.of_nat n))%Q as Hpos.
  { change 0%Q with (inject_Z 0). rewrite <- Zlt_Qlt. lia. }
  split.
  - change 0%Z with (Qfloor 0). apply Qfloor_resp_le.
    apply Qmult_le_0_compat; [done|]. by apply Qlt_le_weak.
  - rewrite Zlt_Qlt. eapply Qle_lt_trans; [apply Qfloor_le|].
    rewrite <- (Qmult_1_l (inject_Z (Z.of_nat n))) at 2.
    by apply Qmult_lt_compat_r.
Qed.

Lemma getRandomCard_picks source currentCards loader random :
  (0 <= random)%Q → (random < 1)%Q →
  match (candidateCards source currentCards loader).1 with
  | Throw _ => (getRandomCard source currentCards loader random).1 = None
  | Ok candidates =>
      (candidates = [] →
       (getRandomCard source currentCards loader random).1 = None)
      ∧ (candidates ≠ [] →
         ∃ card, (getRandomCard source currentCards loader random).1 = Some card
                 ∧ card ∈ candidates)
  end.
Proof.
  intros Hlo Hhi. unfold getRandomCard.
  destruct (candidateCards source currentCards loader) as [[candidates|e] toasts];
    cbn [fst]; [|done].
  destruct candidates as [|card0 rest]; [done|].
  split; [done|]. intros _.
  set (candidates := card0 :: rest).
  assert (0 < length candidates) as Hlen by (simpl; lia).
  pose proof (randomIndex_in_range random (length candidates) Hlo Hhi Hlen)
    as [Hge Hlt].
  change (length candidates =? 0) with false. cbv iota.
  destruct (Z.ltb_spec (Qfloor (random * inject_Z (Z.of_nat (length candidates)))) 0);
    [lia|].
  destruct (lookup_lt_is_Some_2 candidates
              (Z.to_nat (Qfloor (random * inject_Z (Z.of_nat (length candidates))))))
    as [card Hcard]; [lia|].
  rewrite Hcard. simpl. exists card. split; [done|].
  by eapply list_elem_of_lookup_2.
Qed.

(** ** The Chub API service *)

Lemma mapR_isOk {A B} (f : A → Result B) (l : list A) :
  isOk (mapR f l) = false ↔ ∃ x, x ∈ l ∧ isOk (f x) = false.
Proof.
  induction l as [|x l IH]; simpl.
  - split; [done|]. by intros (x & ?%elem_of_nil & _).
  - destruct (f x) as [y|e] eqn:Hfx; simpl.
    + destruct (mapR f l) as [ys|e]; simpl in *.
      * split; [done|]. intros (x' & [->|Hin]%elem_of_cons & Hx').
        -- by rewrite Hfx in Hx'.
        -- apply IH. eauto.
      * split; [|done]. intros _. destruct IH as [(x' & Hin & Hx') _]; [done|].
        exists x'. split; [apply elem_of_cons; by right|done].
    + split; [|done]. intros _. exists x. rewrite Hfx.
      split; [apply elem_of_cons; by left|done].
Qed.

Section ChubApiProperties.

Context {number : Type} {host : Host number}.

Lemma mapR_topicToLowerCase (topics : list (JSValue number)) :
  Forall (λ t, ∃ s, t = VStr s) topics →
  ∃ lowered, mapR topicToLowerCase topics = Ok lowered.
Proof.
  induction 1 as [|t topics [s ->] _ [lowered IH]]; simpl; [by eexists|].
  rewrite IH. simpl. by eexists.
Qed.

Lemma toStringV_primitive (v : JSValue number) :
  isPrimitive v → ∃ s, toStringV v = Ok s.
Proof. destruct v; simpl; try done; intros _; by eexists. Qed.

(** [transformChubCard] does not throw on a well-formed node. *)
Lemma transformChubCard_well_formed (node : JSValue number) :
  wellFormedNode node → isOk (transformChubCard node) = true.
Proof.
  intros (props & -> & Htopics & Hpath & Hdesc & Hid).
  unfold transformChubCard. cbn [getProp bindR].
  assert (∃ lowered,
            match orV (default VUndefined (ownProperty props "topics")) (VArr []) with
            | VArr ts => mapR topicToLowerCase ts
            | _ => Throw TypeError
            end = Ok lowered) as [lowered ->].
  { unfold orV. destruct (ownProperty props "topics") as [v|]; cbn [default].
    - destruct v; simpl in Htopics |- *; try discriminate Htopics;
        try rewrite Htopics; simpl;
        first [by apply mapR_topicToLowerCase | by eexists].
    - simpl. by eexists. }
  set (fullPath := default VUndefined (ownProperty props "fullPath")).
  set (nodeId := default VUndefined (ownProperty props "id")).
  set (nodeDescription := default VUndefined (ownProperty props "description")).
  assert (isPrimitive nodeId) as Hprim.
  { subst nodeId. by destruct (ownProperty props "id"). }
  assert (truthyV fullPath = false ∨ ∃ s, fullPath = VStr s) as Hfull.
  { subst fullPath. destruct (ownProperty props "fullPath") as [v|]; cbn [default].
    - destruct v; eauto.
    - by left. }
  assert (isPrimitive fullPath) as HprimPath.
  { destruct Hfull as [Hfalsy|[s ->]]; [|done]. by destruct fullPath. }
  destruct (toStringV_primitive _ Hprim) as [idText HidText].
  destruct (toStringV_primitive _ HprimPath) as [pathText HpathText].
  assert (∃ preview : JSValue number,
            match nodeDescription with
            | VUndefined | VNull => Ok (VUndefined : JSValue number)
            | VStr s => Ok (VStr (String.substring 0 150 s))
            | _ => Throw TypeError
            end = Ok preview) as [preview Hpreview].
  { subst nodeDescription.
    destruct (ownProperty props "description") as [[]|]; cbn [default];
      try done; by eexists. }
  cbn [bindR]. rewrite HidText, HpathText, Hpreview.
  destruct Hfull as [Hfalsy|[s Hs]].
  - rewrite Hfalsy. cbn [bindR].
    by destruct (truthyV (default VUndefined (ownProperty props "tagline"))).
  - rewrite Hs in *. simpl in HpathText. injection HpathText as <-.
    cbn [truthyV]. destruct (negb (isEmpty s)); cbn [bindR];
      by destruct (truthyV (default VUndefined (ownProperty props "tagline"))).
Qed.

Lemma readChubResponse_not_ok (response : Response number) :
  ok response = false →
  readChubResponse response
  = Throw (Error ("Chub API error: " +:+ pretty (status response) +:+ " "
                  +:+ statusText response)).
Proof. intros Hok. unfold readChubResponse. by rewrite Hok. Qed.

Lemma readChubResponse_parse_fails (response : Response number) e :
  ok response = true → json response = Throw e →
  readChubResponse response = Throw e.
Proof. intros Hok Hjson. unfold readChubResponse. by rewrite Hok, Hjson. Qed.

Lemma readChubResponse_nodes_missing (response : Response number) data :
  ok response = true → json response = Ok data → bodyNodes data = None →
  isOk (readChubResponse response) = false.
Proof.
  intros Hok Hjson Hnodes. unfold readChubResponse.
  rewrite Hok, Hjson. simpl.
  destruct data as [| | | | |items|props]; try done. simpl in *.
  destruct (ownProperty props "data") as [dataData|]; [|done]. simpl.
  destruct dataData as [| |[|]| n |s|items|dataProps]; simpl; try done.
  - by destruct (numberTruthy n).
  - by destruct (isEmpty s).
  - destruct (ownProperty dataProps "nodes") as [nodes|]; [|done]. simpl.
    by destruct nodes.
Qed.

Lemma readChubResponse_nodes (response : Response number) data nodes :
  ok response = true → json response = Ok data → bodyNodes data = Some nodes →
  readChubResponse response
  = bindR (mapR transformChubCard nodes)
      (λ cards, Ok (mkFetchedCards cards
                      (orV (bodyField data "cursor") VNull)
                      (orV (bodyField data "count")
                           (VNum (numberOfNat (length cards)))))).
Proof.
  intros Hok Hjson Hnodes. unfold readChubResponse.
  rewrite Hok, Hjson. simpl.
  destruct data as [| | | | |items|props]; try done. simpl in *.
  destruct (ownProperty props "data") as [[| | | | | |dataProps]|]; try done.
  simpl. destruct (ownProperty dataProps "nodes") as [[| | | | |nodes'|]|];
    try done.
  injection Hnodes as ->. simpl. by destruct (mapR transformChubCard nodes).
Qed.

(** When the call of [readChubResponse] fails and when it succeeds. *)
Lemma readChubResponse_spec (outcome : Result (Response number)) :
  (isOk (bindR outcome readChubResponse) = false
   ↔ ListedFailure outcome ∨ TransformFailure outcome)
  ∧ ∀ fetched, bindR outcome readChubResponse = Ok fetched →
      ∃ response data, outcome = Ok response ∧ ok response = true
                       ∧ json response = Ok data ∧ returnsCardsOf data fetched.
Proof.
  destruct outcome as [response|e]; simpl.
  2: { split; [|done]. split; [intros _; left; by econstructor|done]. }
  destruct (ok response) eqn:Hok.
  2: { rewrite readChubResponse_not_ok by done. split; [|done].
       split; [intros _; left; by eapply ResponseNotOk|done]. }
  destruct (json response) as [data|e] eqn:Hjson.
  2: { rewrite (readChubResponse_parse_fails _ e) by done. split; [|done].
       split; [intros _; left; by eapply ParseFails|done]. }
  destruct (bodyNodes data) as [nodes|] eqn:Hnodes.
  2: { pose proof (readChubResponse_nodes_missing _ _ Hok Hjson Hnodes) as Hfail.
       split.
       - split; [intros _; left; by eapply NodesMissing|done].
       - intros fetched Hfetched. by rewrite Hfetched in Hfail. }
  rewrite (readChubResponse_nodes _ _ _ Hok Hjson Hnodes).
  destruct (mapR transformChubCard nodes) as [transformed|e] eqn:Hmap; simpl.
  - split.
    + split; [done|]. intros [Hlisted|Htransform].
      * destruct Hlisted as [? [=]|? [= <-] ?|? ? [= <-] ? ?|? ? [= <-] ? ? ?];
          congruence.
      * destruct Htransform as [? ? ? node [= <-] _ Hjson' Hnodes' Hin Hnode].
        assert (isOk (mapR transformChubCard nodes) = false) as Hfail.
        { apply mapR_isOk. exists node. split; [|done]. congruence. }
        by rewrite Hmap in Hfail.
    + intros fetched [= <-]. exists response, data.
      repeat split; try done. exists nodes. by repeat split.
  - split; [|done]. split; [|done]. intros _. right.
    assert (isOk (mapR transformChubCard nodes) = false) as Hfail
      by by rewrite Hmap.
    apply mapR_isOk in Hfail as (node & Hin & Hnode).
    by eapply NodeRejected.
Qed.

End ChubApiProperties.

Section FetchChubCardsProperties.

Context {number : Type} {host : Host number}.

Lemma catchAndRethrow_behaviour (outcome : Result (Response number))
    (message detail : string) :
  fetchBehaviour outcome
    (catchAndRethrow [ConsoleLog message detail] (bindR outcome readChubResponse)).
Proof.
  destruct (readChubResponse_spec outcome) as [Hfail Hok].
  unfold fetchBehaviour, catchAndRethrow.
  destruct (bindR outcome readChubResponse) as [fetched|error]; simpl in *.
  - split; [done|]. split; [done|]. split; [done|].
    intros _ _ m e Hin. apply list_elem_of_singleton in Hin. done.
  - split; [done|]. split; [done|]. split; [|done]. by intros ? [= <-].
Qed.

(** When every node of the body is well-formed, the listed failures are the
    only ones. *)
Lemma listed_failures_exact_for_well_formed_nodes
    (options : FetchOptions number) (localStorage : Storage) (fetch : Fetch number) :
  (∀ response data nodes,
     fetch (mkRequest (chubUrl options) (chubHeaders localStorage)) = Ok response →
     json response = Ok data → bodyNodes data = Some nodes →
     Forall wellFormedNode nodes) →
  isOk (fetchChubCards options localStorage fetch).1 = false
  ↔ ListedFailure (fetch (mkRequest (chubUrl options) (chubHeaders localStorage))).
Proof.
  intros Hnodes.
  assert (fetchBehaviour
            (fetch (mkRequest (chubUrl options) (chubHeaders localStorage)))
            (fetchChubCards options localStorage fetch)) as [Hfail _].
  { unfold fetchChubCards.
    destruct (truthy (getChubToken localStorage)); apply catchAndRethrow_behaviour. }
  rewrite Hfail. split; [|by left].
  intros [Hlisted|Htransform]; [done|].
  destruct Htransform as [response data nodes node Hfetch _ Hjson Hbody Hin Hthrows].
  pose proof (Hnodes response data nodes Hfetch Hjson Hbody) as Hall.
  pose proof (proj1 (Forall_forall _ _) Hall node Hin) as Hnode.
  apply transformChubCard_well_formed in Hnode. congruence.
Qed.

(** C7, as the code has it. [fetchChubCards], with or without a token,
    throws exactly when [fetch] fails, the response is not ok, parsing the
    body fails, the parsed body lacks an object [data.data] with an array
    [nodes], or [transformChubCard] throws on one of the nodes. The error
    is logged with [console.error] and thrown again. On success the
    result holds the transformed cards, the response cursor when truthy
    and [null] otherwise, and the response count when truthy and the
    number of cards otherwise. *)
Theorem fetchChubCards_failures (options : FetchOptions number)
    (localStorage : Storage) (fetch : Fetch number) :
  fetchBehaviour
    (fetch (mkRequest (chubUrl options) (chubHeaders localStorage)))
    (fetchChubCards options localStorage fetch)
  ∧ fetchBehaviour
      (fetch (mkRequest (chubUrl options) []))
      (fetchChubCardsAnonymous options fetch).
Proof.
  split.
  - unfold fetchChubCards.
    destruct (truthy (getChubToken localStorage));
      apply catchAndRethrow_behaviour.
  - unfold fetchChubCardsAnonymous. apply catchAndRethrow_behaviour.
Qed.

Lemma chubParams_sort (options : FetchOptions number) :
  ownProperty (chubParams options) "sort"
  = Some (apiSortOf (default "default" (options_sort options))).
Proof. reflexivity. Qed.

(** C8, as the code has it. For an API-level sort token, the value of the
    [sort] query parameter is the entry of [SORT_MAP] for the token; it is
    the token itself only for [trending], [rating], [newcomer] and
    [default]. *)
Theorem chub_sort_parameter_mapped (options : FetchOptions number)
    (sort : string) :
  options_sort options = Some sort →
  sort ∈ apiSorts →
  ∃ mapped,
    ownProperty SORT_MAP sort = Some mapped
    ∧ ownProperty (chubParams options) "sort" = Some mapped
    ∧ (mapped = sort ↔ sort ∈ ["trending"; "rating"; "newcomer"; "default"]).
Proof.
  intros Hsort Hapi. rewrite chubParams_sort, Hsort. simpl.
  unfold apiSorts in Hapi. rewrite !elem_of_cons, elem_of_nil in Hapi.
  repeat destruct Hapi as [Hapi|Hapi]; try done; subst sort;
    (eexists; split; [reflexivity|]; split; [reflexivity|]);
    rewrite !elem_of_cons, elem_of_nil; intuition congruence.
Qed.

End FetchChubCardsProperties.

(** C10. The token round trip over the [localStorage] key
    [botBrowser_chubApiToken]: after saving a token whose trim is not empty,
    [getChubToken] returns the trimmed token and [hasChubToken] is true;
    saving [null], an empty or a blank token removes the stored value, so
    [getChubToken] returns [null] and [hasChubToken] is false; after
    [clearChubToken], [getChubToken] returns [null]. Only that key is read
    and written. *)
Theorem chubToken_round_trip (localStorage : Storage) (token : option string) :
  (∀ t, token = Some t → trim t ≠ "" →
     getChubToken (saveChubToken token localStorage) = Some (trim t)
     ∧ hasChubToken (saveChubToken token localStorage) = true)
  ∧ ((token = None ∨ ∃ t, token = Some t ∧ trim t = "") →
     getChubToken (saveChubToken token localStorage) = None
     ∧ hasChubToken (saveChubToken token localStorage) = false)
  ∧ getChubToken (clearChubToken localStorage) = None
  ∧ getChubToken localStorage = localStorage !! "botBrowser_chubApiToken"
  ∧ ∀ key, key ≠ "botBrowser_chubApiToken" →
      saveChubToken token localStorage !! key = localStorage !! key
      ∧ clearChubToken localStorage !! key = localStorage !! key.
Proof.
  unfold getChubToken, hasChubToken, clearChubToken, saveChubToken, getChubToken.
  split; [|split; [|split; [|split]]].
  - intros t -> Hne.
    assert (isEmpty t = false) as -> by (destruct t; [by destruct Hne|done]).
    assert (isEmpty (trim t) = false) as -> by (by destruct (trim t)).
    simpl. rewrite lookup_insert_eq. split; [done|].
    rewrite trim_idempotent. apply Nat.ltb_lt. by apply string_length_pos.
  - intros [->|(t & -> & Hblank)].
    + by rewrite lookup_delete_eq.
    + rewrite Hblank. simpl. rewrite andb_false_r. by rewrite lookup_delete_eq.
  - apply lookup_delete_eq.
  - done.
  - intros key Hkey. split; [|by apply lookup_delete_ne].
    destruct token as [t|]; [|by apply lookup_delete_ne].
    destruct (negb (isEmpty t) && negb (isEmpty (trim t)));
      [by apply lookup_insert_ne|by apply lookup_delete_ne].
Qed.

(** ** The properties on the sample data *)

Example deduplicateCards_sample :
  deduplicateCards sampleCards = [knight; ghost; nameless].
Proof. vm_compute. reflexivity. Qed.

(** An empty creator is a missing one: it shares the key of the creator
    "Unknown" and of no creator at all. A blank creator is not: it is trimmed
    to the empty string. *)
Example deduplicateCards_missing_creator :
  deduplicateCards [elfOf (Some ""); elfOf (Some "Unknown"); elfOf None;
                    elfOf (Some "  ")]
  = [elfOf (Some ""); elfOf (Some "  ")]
  ∧ cardKey (elfOf (Some "")) = "elf|unknown"
  ∧ cardKey (elfOf (Some "  ")) = "elf|".
Proof. vm_compute. done. Qed.

Example filterCards_sample :
  filterCards sampleCards sampleFilters None "bot-browser"
    {[ "bot-browser" := sampleSettings ]} = Ok [knight]
  ∧ filterCards sampleCards (mkFilters None [] None) None "bot-browser"
      {[ "bot-browser" := mkSettings false (Some ["hero"]) ]}
    = Ok [ghost; knightCopy]
  ∧ filterCards sampleCards sampleFilters None "other"
      {[ "bot-browser" := sampleSettings ]} = Throw TypeError.
Proof. vm_compute. done. Qed.

Example sortCards_sample :
  sortCards codeUnitCompare 1%positive "name_desc" sampleHeap
  = Ok (2%positive,
        <[2%positive := [ghost; knight; knightCopy; nameless]]> sampleHeap).
Proof. vm_compute. reflexivity. Qed.

Example getRandomCard_sample :
  getRandomCard (Some "current") sampleCards (λ _, Throw TypeError) (1 # 2)
  = (Some ghost, [])
  ∧ getRandomCard (Some "chub") [knightCopy; nameless] (λ _, Throw TypeError) (1 # 2)
    = (None, [ToastWarning "No cards available"])
  ∧ getRandomCard None sampleCards (λ _, Throw TypeError) (1 # 2)
    = (None, [ToastInfo "Loading all cards...";
              ToastError "Failed to get random card"]).
Proof. vm_compute. done. Qed.

Example chubUrl_sample :
  chubUrl (host := integerHost) recentOptions
  = "https://api.chub.ai/search?first=200&sort=created_at"
  ∧ chubUrl (host := integerHost)
      (mkFetchOptions (Some "stars") (Some 50%Z) (Some "a b&c") (Some "p2") (Some false))
    = "https://api.chub.ai/search?first=50&sort=star_count&search=a+b%26c&cursor=p2&venus=false".
Proof. vm_compute. done. Qed.

Example fetchChubCards_falsy_count_and_cursor :
  ∃ card,
    (fetchChubCards (host := integerHost) defaultOptions ∅
       (λ _, Ok (mkResponse true 200 "OK"
                   (Ok (VObj [("data", VObj [("nodes", VArr [VObj []]);
                                             ("count", VNum 0%Z);
                                             ("cursor", VStr "")])]))))).1
    = Ok (mkFetchedCards [card] VNull (VNum 1%Z)).
Proof. eexists. vm_compute. reflexivity. Qed.

(** C7, as stated, fails: with the body [{"data": {"nodes": [null]}}] the
    response is ok, the body parses and has an object [data.data] with an
    array [nodes], and yet [fetchChubCards] throws, because
    [transformChubCard] reads a property of [null]. *)
Lemma fetchChubCards_null_node_counterexample :
  (fetchChubCards (host := integerHost) defaultOptions ∅
     (λ _, Ok nullNodeResponse)).1 = Throw TypeError
  ∧ ¬ ListedFailure (Ok nullNodeResponse).
Proof.
  split; [vm_compute; reflexivity|].
  intros [e Hfetch|response Hresponse Hok|response e Hresponse Hok Hjson
         |response data Hresponse Hok Hjson Hnodes].
  - discriminate Hfetch.
  - injection Hresponse as <-. discriminate Hok.
  - injection Hresponse as <-. discriminate Hjson.
  - injection Hresponse as <-. injection Hjson as <-. discriminate Hnodes.
Qed.

(** C8, as stated, fails: for [recent] the [sort] query parameter is
    [created_at], not [recent]. *)
Lemma sort_recent_counterexample :
  "recent" ∈ apiSorts
  ∧ ownProperty (chubParams (host := integerHost) recentOptions) "sort"
    = Some "created_at"
  ∧ ¬ sortPassedThrough (host := integerHost) "recent".
Proof.
  split; [apply elem_of_cons; by left|]. split; [reflexivity|].
  intros Hpass. specialize (Hpass None None None None). discriminate Hpass.
Qed.

Lemma filterCards_matches_all_filters_witness :
  searchInactive sampleFilters None
  ∧ ({[ "bot-browser" := sampleSettings ]} : gmap string Settings) !! "bot-browser"
    = Some sampleSettings
  ∧ ∃ kept,
      filterCards sampleCards sampleFilters None "bot-browser"
        {[ "bot-browser" := sampleSettings ]} = Ok kept
      ∧ kept `sublist_of` sampleCards
      ∧ ∀ card, card ∈ kept ↔
                card ∈ sampleCards ∧ matchesAllFilters sampleFilters sampleSettings card.
Proof.
  assert (searchInactive sampleFilters None) as Hsearch by (right; reflexivity).
  assert (({[ "bot-browser" := sampleSettings ]} : gmap string Settings)
            !! "bot-browser" = Some sampleSettings) as Hsettings by reflexivity.
  split; [exact Hsearch|]. split; [exact Hsettings|].
  exact (filterCards_matches_all_filters sampleCards sampleFilters None
           "bot-browser" _ sampleSettings Hsearch Hsettings).
Defined.

Lemma sortCards_does_not_mutate_witness :
  sampleHeap !! 1%positive = Some sampleCards
  ∧ ∃ sorted h',
      sortCards codeUnitCompare 1%positive "name_asc" sampleHeap = Ok (sorted, h')
      ∧ h' !! 1%positive = Some sampleCards
      ∧ sorted ≠ 1%positive
      ∧ ∀ arr, arr ≠ sorted → h' !! arr = sampleHeap !! arr.
Proof.
  assert (sampleHeap !! 1%positive = Some sampleCards) as Hcards by reflexivity.
  split; [exact Hcards|].
  exact (sortCards_does_not_mutate codeUnitCompare sampleHeap 1%positive
           sampleCards "name_asc" Hcards).
Defined.

Lemma sortCards_local_sorts_stable_witness :
  ConsistentCompare codeUnitCompare
  ∧ sampleHeap !! 1%positive = Some sampleCards
  ∧ localSort "creator_desc" = Some (ByCreator, Descending)
  ∧ ∃ sorted h' result,
      sortCards codeUnitCompare 1%positive "creator_desc" sampleHeap = Ok (sorted, h')
      ∧ h' !! sorted = Some result
      ∧ result ≡ₚ sampleCards
      ∧ StronglySorted (inOrder codeUnitCompare ByCreator Descending) result
      ∧ ∀ k, filter (λ card, sameKey codeUnitCompare ByCreator card k) result
             = filter (λ card, sameKey codeUnitCompare ByCreator card k) sampleCards.
Proof.
  assert (sampleHeap !! 1%positive = Some sampleCards) as Hcards by reflexivity.
  assert (localSort "creator_desc" = Some (ByCreator, Descending)) as Hlocal
    by reflexivity.
  split; [exact codeUnitCompare_consistent|].
  split; [exact Hcards|]. split; [exact Hlocal|].
  exact (sortCards_local_sorts_stable codeUnitCompare sampleHeap 1%positive
           sampleCards "creator_desc" ByCreator Descending
           codeUnitCompare_consistent Hcards Hlocal).
Defined.

Lemma sortCards_api_sort_unchanged_witness :
  sampleHeap !! 1%positive = Some sampleCards
  ∧ ("trending" ∈ apiSorts ∨ "trending" = "relevance" ∨ "trending" ∉ localSorts)
  ∧ ∃ sorted h',
      sortCards codeUnitCompare 1%positive "trending" sampleHeap = Ok (sorted, h')
      ∧ h' !! sorted = Some sampleCards.
Proof.
  assert (sampleHeap !! 1%positive = Some sampleCards) as Hcards by reflexivity.
  assert ("trending" ∈ apiSorts ∨ "trending" = "relevance" ∨ "trending" ∉ localSorts)
    as Htoken by (left; unfold apiSorts; rewrite !elem_of_cons; right; left; reflexivity).
  split; [exact Hcards|]. split; [exact Htoken|].
  exact (sortCards_api_sort_unchanged codeUnitCompare sampleHeap 1%positive
           sampleCards "trending" Hcards Htoken).
Defined.

Lemma chub_sort_parameter_mapped_witness :
  options_sort (mkFetchOptions (number := Z) (Some "stars") None None None None)
  = Some "stars"
  ∧ "stars" ∈ apiSorts
  ∧ ∃ mapped,
      ownProperty SORT_MAP "stars" = Some mapped
      ∧ ownProperty (chubParams (host := integerHost)
                       (mkFetchOptions (Some "stars") None None None None)) "sort"
        = Some mapped
      ∧ (mapped = "stars" ↔ "stars" ∈ ["trending"; "rating"; "newcomer"; "default"]).
Proof.
  assert ("stars" ∈ apiSorts) as Hapi
    by (unfold apiSorts; rewrite !elem_of_cons; do 3 right; left; reflexivity).
  split; [reflexivity|]. split; [exact Hapi|].
  exact (chub_sort_parameter_mapped (host := integerHost)
           (mkFetchOptions (Some "stars") None None None None) "stars"
           eq_refl Hapi).
Defined.

(** * More properties of the code *)

(** ** getAllTags and getAllCreators *)

Lemma setAdd_elem set x y : y ∈ setAdd set x ↔ y ∈ set ∨ y = x.
Proof.
  unfold setAdd. case_bool_decide as Hin.
  - split; [by left|]. intros [?| ->]; done.
  - rewrite elem_of_app, list_elem_of_singleton. done.
Qed.

Lemma setAdd_NoDup set x : NoDup set → NoDup (setAdd set x).
Proof.
  intros Hnd. unfold setAdd. case_bool_decide as Hin; [done|].
  apply NoDup_app. split; [done|]. split; [|apply NoDup_singleton].
  intros y Hy ->%list_elem_of_singleton. done.
Qed.

Lemma foldl_setAdd_elem xs set y :
  y ∈ foldl setAdd set xs ↔ y ∈ set ∨ y ∈ xs.
Proof.
  revert set. induction xs as [|x xs IH]; intros set; simpl.
  - split; [by left|]. by intros [?|?%elem_of_nil].
  - rewrite IH, setAdd_elem, elem_of_cons. tauto.
Qed.

Lemma foldl_setAdd_NoDup xs set : NoDup set → NoDup (foldl setAdd set xs).
Proof.
  revert set. induction xs as [|x xs IH]; intros set Hnd; simpl; [done|].
  by apply IH, setAdd_NoDup.
Qed.

(** The tags collected from a list of cards, from a given set. *)
Lemma tagsSet_elem cards set y :
  y ∈ foldl (λ tagsSet card,
               match tags card with
               | Some cardTags => foldl setAdd tagsSet cardTags
               | None => tagsSet
               end) set cards
  ↔ y ∈ set ∨ ∃ card cardTags, card ∈ cards ∧ tags card = Some cardTags ∧ y ∈ cardTags.
Proof.
  revert set. induction cards as [|card cards IH]; intros set; simpl.
  - split; [by left|]. intros [?|(? & ? & ?%elem_of_nil & _)]; done.
  - rewrite IH. destruct (tags card) as [cardTags|] eqn:Htags.
    + rewrite foldl_setAdd_elem. split.
      * intros [[?|?]|(c & ts & Hin & Hts & Hy)]; [by left| |].
        -- right. exists card, cardTags. by rewrite elem_of_cons; auto.
        -- right. exists c, ts. rewrite elem_of_cons. auto.
      * intros [?|(c & ts & [->|Hin]%elem_of_cons & Hts & Hy)]; [by auto| |].
        -- left. right. congruence.
        -- right. eauto.
    + split.
      * intros [?|(c & ts & Hin & Hts & Hy)]; [by left|].
        right. exists c, ts. rewrite elem_of_cons. auto.
      * intros [?|(c & ts & [->|Hin]%elem_of_cons & Hts & Hy)]; [by auto| |].
        -- congruence.
        -- right. eauto.
Qed.

Lemma tagsSet_NoDup cards set :
  NoDup set →
  NoDup (foldl (λ tagsSet card,
                  match tags card with
                  | Some cardTags => foldl setAdd tagsSet cardTags
                  | None => tagsSet
                  end) set cards).
Proof.
  revert set. induction cards as [|card cards IH]; intros set Hnd; simpl; [done|].
  apply IH. destruct (tags card); [by apply foldl_setAdd_NoDup|done].
Qed.

Lemma creatorsSet_elem cards set y :
  y ∈ foldl (λ creatorsSet card,
               if truthy (creator card)
               then setAdd creatorsSet (orDefault (creator card) "")
               else creatorsSet) set cards
  ↔ y ∈ set ∨ (y ≠ "" ∧ ∃ card, card ∈ cards ∧ creator card = Some y).
Proof.
  revert set. induction cards as [|card cards IH]; intros set; simpl.
  - split; [by left|]. intros [?|(_ & ? & ?%elem_of_nil & _)]; done.
  - rewrite IH. destruct (creator card) as [[|c s]|] eqn:Hcreator; simpl.
    + split.
      * intros [?|(Hne & c & Hin & Hc)]; [by left|].
        right. split; [done|]. exists c. rewrite elem_of_cons. auto.
      * intros [?|(Hne & c & [->|Hin]%elem_of_cons & Hc)]; [by auto| |].
        -- congruence.
        -- right. eauto.
    + rewrite setAdd_elem. split.
      * intros [[?| ->]|(Hne & c' & Hin & Hc)]; [by left| |].
        -- right. split; [done|]. exists card. rewrite elem_of_cons. auto.
        -- right. split; [done|]. exists c'. rewrite elem_of_cons. auto.
      * intros [?|(Hne & c' & [->|Hin]%elem_of_cons & Hc)]; [by auto| |].
        -- left. right. congruence.
        -- right. eauto.
    + split.
      * intros [?|(Hne & c & Hin & Hc)]; [by left|].
        right. split; [done|]. exists c. rewrite elem_of_cons. auto.
      * intros [?|(Hne & c & [->|Hin]%elem_of_cons & Hc)]; [by auto| |].
        -- congruence.
        -- right. eauto.
Qed.

Lemma creatorsSet_NoDup cards set :
  NoDup set →
  NoDup (foldl (λ creatorsSet card,
                  if truthy (creator card)
                  then setAdd creatorsSet (orDefault (creator card) "")
                  else creatorsSet) set cards).
Proof.
  revert set. induction cards as [|card cards IH]; intros set Hnd; simpl; [done|].
  apply IH. destruct (truthy (creator card)); [by apply setAdd_NoDup|done].
Qed.

Lemma codeUnitCompare_zero a b : codeUnitCompare a b = 0%Z ↔ a = b.
Proof.
  unfold codeUnitCompare. split.
  - destruct (String.compare a b) eqn:Hcmp; try done.
    intros _. by apply String.compare_eq_iff.
  - intros ->. pose proof (String.compare_antisym b b) as Hanti.
    by destruct (String.compare b b).
Qed.

(** Sorting a duplicate-free list of strings gives the strictly ascending
    list of the same strings. *)
Lemma sortStrings_spec (set : list string) :
  NoDup set →
  strictlyAscending (sortStrings set)
  ∧ NoDup (sortStrings set)
  ∧ ∀ y, y ∈ sortStrings set ↔ y ∈ set.
Proof.
  intros Hnd. unfold sortStrings.
  pose proof (sortedCopy_perm codeUnitCompare set) as Hperm.
  assert (NoDup (sortedCopy codeUnitCompare set)) as Hnd' by by rewrite Hperm.
  split; [|split; [done|by intros y; rewrite Hperm]].
  pose proof (sortedCopy_sorted codeUnitCompare
                (ConsistentCompare0 := codeUnitCompare_consistent) set) as Hsorted.
  revert Hsorted Hnd'. generalize (sortedCopy codeUnitCompare set). clear.
  intros l. induction 1 as [|x l Hsorted IH Hall]; intros Hnd; [constructor|].
  apply NoDup_cons in Hnd as [Hx Hnd]. constructor; [by apply IH|].
  apply Forall_forall. intros y Hy.
  pose proof (proj1 (Forall_forall _ _) Hall y Hy) as Hle. simpl in Hle.
  unfold codeUnitCompare in Hle.
  destruct (String.compare x y) eqn:Hcmp; [|done|lia].
  apply String.compare_eq_iff in Hcmp. by subst.
Qed.
Lemma string_compare_refl (a : string) : String.compare a a = Eq.
Proof.
  pose proof (String.compare_antisym a a) as Hanti.
  by destruct (String.compare a a).
Qed.

Lemma strictlyAscending_unique (l1 l2 : list string) :
  strictlyAscending l1 → strictlyAscending l2 →
  (∀ y, y ∈ l1 ↔ y ∈ l2) → l1 = l2.
Proof.
  unfold strictlyAscending. intros Hs1. revert l2.
  induction Hs1 as [|x l1 Hs1 IH Hx]; intros l2 Hs2 Hsame.
  - destruct l2 as [|y l2]; [done|].
    assert (y ∈ []) as Hin by (apply Hsame, elem_of_cons; by left).
    by apply elem_of_nil in Hin.
  - destruct Hs2 as [|y l2 Hs2 Hy].
    { assert (x ∈ []) as Hin by (apply Hsame, elem_of_cons; by left).
      by apply elem_of_nil in Hin. }
    assert (x = y) as <-.
    { assert (x ∈ y :: l2) as Hxin by (apply Hsame, elem_of_cons; by left).
      assert (y ∈ x :: l1) as Hyin by (apply Hsame, elem_of_cons; by left).
      apply elem_of_cons in Hxin as [?|Hxin]; [done|].
      apply elem_of_cons in Hyin as [?|Hyin]; [done|].
      pose proof (proj1 (Forall_forall _ _) Hy x Hxin) as Hyx.
      pose proof (proj1 (Forall_forall _ _) Hx y Hyin) as Hxy.
      simpl in *. rewrite String.compare_antisym, Hyx in Hxy. done. }
    f_equal. apply IH; [done|]. intros z. split.
    + intros Hz. assert (z ∈ x :: l2) as [->|?]%elem_of_cons
        by (apply Hsame, elem_of_cons; by right); [|done].
      pose proof (proj1 (Forall_forall _ _) Hx x Hz) as Hxx. simpl in Hxx.
      by rewrite string_compare_refl in Hxx.
    + intros Hz. assert (z ∈ x :: l1) as [->|?]%elem_of_cons
        by (apply Hsame, elem_of_cons; by right); [|done].
      pose proof (proj1 (Forall_forall _ _) Hy x Hz) as Hxx. simpl in Hxx.
      by rewrite string_compare_refl in Hxx.
Qed.

(** X1. [getAllTags] returns the tags that occur in the tag arrays of the
    cards, each once, in ascending code-unit order; a card without a tag
    array contributes nothing. *)
Theorem getAllTags_sorted_distinct_tags (cards : list Card) :
  strictlyAscending (getAllTags cards)
  ∧ NoDup (getAllTags cards)
  ∧ ∀ tag, tag ∈ getAllTags cards ↔
           ∃ card cardTags, card ∈ cards ∧ tags card = Some cardTags ∧ tag ∈ cardTags.
Proof.
  unfold getAllTags.
  destruct (sortStrings_spec _ (tagsSet_NoDup cards [] (NoDup_nil_2)))
    as (Hsorted & Hnd & Helem).
  split; [done|]. split; [done|]. intros tag.
  rewrite Helem, tagsSet_elem. split; [|by right].
  by intros [?%elem_of_nil|?].
Qed.

(** X2. [getAllTags] depends only on which tags occur: two lists of cards
    with the same tags give the same list, whatever the order of the cards
    and however often a tag is repeated. *)
Theorem getAllTags_same_tags (cards1 cards2 : list Card) :
  (∀ tag,
     (∃ card cardTags, card ∈ cards1 ∧ tags card = Some cardTags ∧ tag ∈ cardTags)
     ↔ (∃ card cardTags, card ∈ cards2 ∧ tags card = Some cardTags ∧ tag ∈ cardTags)) →
  getAllTags cards1 = getAllTags cards2.
Proof.
  intros Hsame. unfold getAllTags.
  destruct (sortStrings_spec _ (tagsSet_NoDup cards1 [] (NoDup_nil_2)))
    as (Hsorted1 & _ & Helem1).
  destruct (sortStrings_spec _ (tagsSet_NoDup cards2 [] (NoDup_nil_2)))
    as (Hsorted2 & _ & Helem2).
  apply strictlyAscending_unique; [done|done|].
  intros tag. rewrite Helem1, Helem2, !tagsSet_elem. split.
  - intros [?%elem_of_nil|Hin]; [done|]. right. by apply Hsame.
  - intros [?%elem_of_nil|Hin]; [done|]. right. by apply Hsame.
Qed.

(** X3. [getAllCreators] returns the non-empty creators of the cards, each
    once, in ascending code-unit order; it never contains the empty
    string. *)
Theorem getAllCreators_sorted_distinct_creators (cards : list Card) :
  strictlyAscending (getAllCreators cards)
  ∧ NoDup (getAllCreators cards)
  ∧ ∀ name, name ∈ getAllCreators cards ↔
            name ≠ "" ∧ ∃ card, card ∈ cards ∧ creator card = Some name.
Proof.
  unfold getAllCreators.
  destruct (sortStrings_spec _ (creatorsSet_NoDup cards [] (NoDup_nil_2)))
    as (Hsorted & Hnd & Helem).
  split; [done|]. split; [done|]. intros name.
  rewrite Helem, creatorsSet_elem. split; [|by right].
  by intros [?%elem_of_nil|?].
Qed.

(** ** More on filterCards *)

Lemma filterCallback_keepsCard filters extensionName
    (extension_settings : gmap string Settings) settings card :
  extension_settings !! extensionName = Some settings →
  filterCallback filters extensionName extension_settings card
  = Ok (keepsCard filters settings card).
Proof.
  intros Hsettings. unfold keepsCard, filterCallback.
  rewrite Hsettings, lookup_singleton_eq.
  repeat match goal with |- context [if ?b then _ else _] => destruct b end; done.
Qed.

Lemma keepsCard_spec filters settings card :
  keepsCard filters settings card = true ↔ matchesAllFilters filters settings card.
Proof.
  destruct (filterCallback_spec filters "" {[ "" := settings ]} settings card)
    as (keep & Hrun & Hkeep); [apply lookup_singleton_eq|].
  unfold keepsCard. by rewrite Hrun.
Qed.

Lemma filterR_filter {A} (f : A → Result bool) (g : A → bool) (l : list A) :
  (∀ x, f x = Ok (g x)) →
  filterR f l = Ok (filter (λ x, g x = true) l).
Proof.
  intros Hf. induction l as [|x l IH]; simpl; [done|].
  rewrite Hf, IH. simpl. rewrite filter_cons.
  destruct (g x); [by rewrite decide_True|by rewrite decide_False].
Qed.

Lemma filterCards_filter cards filters fuse extensionName
    (extension_settings : gmap string Settings) settings :
  searchInactive filters fuse →
  extension_settings !! extensionName = Some settings →
  filterCards cards filters fuse extensionName extension_settings
  = Ok (filter (λ card, keepsCard filters settings card = true) cards).
Proof.
  intros Hsearch Hsettings. unfold filterCards.
  assert (match fuse with
          | Some fuseSearch =>
              if truthy (filters_search filters)
              then map item (fuseSearch (orDefault (filters_search filters) ""))
              else cards
          | None => cards
          end = cards) as ->.
  { destruct Hsearch as [->| ->]; [by destruct fuse|done]. }
  apply filterR_filter. intros card. by apply filterCallback_keepsCard.
Qed.

Lemma filter_all {A} (P : A → Prop) `{!∀ x, Decision (P x)} (l : list A) :
  (∀ x, x ∈ l → P x) → filter P l = l.
Proof.
  induction l as [|x l IH]; intros Hall; [done|].
  rewrite filter_cons, decide_True by (apply Hall, elem_of_cons; by left).
  f_equal. apply IH. intros y Hy. apply Hall, elem_of_cons. by right.
Qed.

Lemma filter_none {A} (P : A → Prop) `{!∀ x, Decision (P x)} (l : list A) :
  (∀ x, x ∈ l → ¬ P x) → filter P l = [].
Proof.
  induction l as [|x l IH]; intros Hall; [done|].
  rewrite filter_cons, decide_False by (apply Hall, elem_of_cons; by left).
  apply IH. intros y Hy. apply Hall, elem_of_cons. by right.
Qed.

(** X4. With no tag and no creator selected, NSFW cards not hidden and no
    effective blocklist term, [filterCards] returns every card, in the
    input order. *)
Theorem filterCards_no_filter_returns_all
    (cards : list Card) (filters : Filters) (fuse : option Fuse)
    (extensionName : string) (extension_settings : gmap string Settings)
    (settings : Settings) :
  searchInactive filters fuse →
  extension_settings !! extensionName = Some settings →
  filters_tags filters = [] →
  truthy (filters_creator filters) = false →
  neutralSettings settings →
  filterCards cards filters fuse extensionName extension_settings = Ok cards.
Proof.
  intros Hsearch Hsettings Htags Hcreator [Hnsfw Hterms].
  rewrite (filterCards_filter _ _ _ _ _ settings) by done.
  f_equal. apply filter_all. intros card _. apply keepsCard_spec.
  split; [by intros ?|]. split.
  - intros selected Hsel Hne. rewrite Hsel in Hcreator. by destruct selected.
  - split; [intros [Hhide _]; congruence|]. intros term Hterm. by destruct (Hterms term).
Qed.

(** X5. [filterCards] is idempotent: filtering its result again with the
    same filters and settings returns that result. *)
Theorem filterCards_idempotent
    (cards kept : list Card) (filters : Filters) (fuse : option Fuse)
    (extensionName : string) (extension_settings : gmap string Settings)
    (settings : Settings) :
  searchInactive filters fuse →
  extension_settings !! extensionName = Some settings →
  filterCards cards filters fuse extensionName extension_settings = Ok kept →
  filterCards kept filters fuse extensionName extension_settings = Ok kept.
Proof.
  intros Hsearch Hsettings.
  rewrite !(filterCards_filter _ _ _ _ _ settings) by done.
  intros [= <-]. f_equal. apply filter_all.
  by intros card [Hkeep _]%list_elem_of_filter.
Qed.



(** X7. With a text search active, [filterCards] filters the Fuse.js
    results instead of [cards]: the result is a subsequence of the items
    found, in their relevance order, and holds exactly those that match all
    the filters; the [cards] argument plays no part. *)
Theorem filterCards_search_filters_fuse_results
    (cards : list Card) (filters : Filters) (fuseSearch : Fuse) (pattern : string)
    (extensionName : string) (extension_settings : gmap string Settings)
    (settings : Settings) :
  filters_search filters = Some pattern → pattern ≠ "" →
  extension_settings !! extensionName = Some settings →
  ∃ kept,
    filterCards cards filters (Some fuseSearch) extensionName extension_settings
    = Ok kept
    ∧ kept `sublist_of` map item (fuseSearch pattern)
    ∧ (∀ card, card ∈ kept ↔
               card ∈ map item (fuseSearch pattern)
               ∧ matchesAllFilters filters settings card)
    ∧ filterCards [] filters (Some fuseSearch) extensionName extension_settings
      = Ok kept.
Proof.
  intros Hpattern Hne Hsettings. unfold filterCards. rewrite Hpattern.
  destruct pattern as [|c s]; [done|]. cbn [truthy orDefault].
  destruct (filterR_spec (filterCallback filters extensionName extension_settings)
              (matchesAllFilters filters settings)
              (map item (fuseSearch (String c s)))) as (kept & Hrun & Hsub & Hmem).
  { intros card. by apply filterCallback_spec. }
  exists kept. by rewrite Hrun.
Qed.

(** ** The offered tags and creators as filters *)

Lemma getAllTags_elem cards tag :
  tag ∈ getAllTags cards ↔
  ∃ card cardTags, card ∈ cards ∧ tags card = Some cardTags ∧ tag ∈ cardTags.
Proof.
  unfold getAllTags.
  destruct (sortStrings_spec _ (tagsSet_NoDup cards [] (NoDup_nil_2)))
    as (_ & _ & Helem).
  rewrite Helem, tagsSet_elem. split; [|by right].
  by intros [?%elem_of_nil|?].
Qed.

Lemma getAllCreators_elem cards name :
  name ∈ getAllCreators cards ↔
  name ≠ "" ∧ ∃ card, card ∈ cards ∧ creator card = Some name.
Proof.
  unfold getAllCreators.
  destruct (sortStrings_spec _ (creatorsSet_NoDup cards [] (NoDup_nil_2)))
    as (_ & _ & Helem).
  rewrite Helem, creatorsSet_elem. split; [|by right].
  by intros [?%elem_of_nil|?].
Qed.

Lemma matches_single_tag settings tag card :
  neutralSettings settings →
  matchesAllFilters (mkFilters None [tag] None) settings card
  ↔ ∃ cardTags, tags card = Some cardTags ∧ tag ∈ cardTags.
Proof.
  intros [Hnsfw Hterms]. unfold matchesAllFilters, hasSelectedTags,
    hasSelectedCreator, hiddenAsNsfw. simpl. split.
  - intros (Htags & _). destruct Htags as (cardTags & Hsome & Hall); [done|].
    exists cardTags. split; [done|]. apply Hall, elem_of_cons. by left.
  - intros (cardTags & Hsome & Hin). split.
    + intros _. exists cardTags. split; [done|].
      by intros t [->|?%elem_of_nil]%elem_of_cons.
    + split; [done|]. split; [intros [? _]; congruence|].
      intros term Hterm. by destruct (Hterms term).
Qed.

Lemma matches_single_creator settings selected card :
  selected ≠ "" →
  neutralSettings settings →
  matchesAllFilters (mkFilters None [] (Some selected)) settings card
  ↔ creator card = Some selected.
Proof.
  intros Hne [Hnsfw Hterms]. unfold matchesAllFilters, hasSelectedTags,
    hasSelectedCreator, hiddenAsNsfw. simpl. split.
  - intros (_ & Hcreator & _). by apply Hcreator.
  - intros Hcreator. split; [done|]. split; [by intros ? [= <-]|].
    split; [intros [? _]; congruence|].
    intros term Hterm. by destruct (Hterms term).
Qed.

(** X8. Every tag [getAllTags] offers selects something: with no other
    filter active, filtering by that tag alone returns a non-empty list,
    made of the cards that carry the tag. *)
Theorem getAllTags_tag_selects_cards
    (cards : list Card) (tag : string)
    (extensionName : string) (extension_settings : gmap string Settings)
    (settings : Settings) :
  tag ∈ getAllTags cards →
  extension_settings !! extensionName = Some settings →
  neutralSettings settings →
  ∃ kept,
    filterCards cards (mkFilters None [tag] None) None extensionName
      extension_settings = Ok kept
    ∧ kept ≠ []
    ∧ ∀ card, card ∈ kept ↔
              card ∈ cards ∧ ∃ cardTags, tags card = Some cardTags ∧ tag ∈ cardTags.
Proof.
  intros Htag Hsettings Hneutral.
  rewrite (filterCards_filter _ _ _ _ _ settings) by (done || by right).
  eexists. split; [done|].
  assert (∀ card,
            card ∈ filter (λ card, keepsCard (mkFilters None [tag] None) settings card
                                   = true) cards
            ↔ card ∈ cards ∧ ∃ cardTags, tags card = Some cardTags ∧ tag ∈ cardTags)
    as Hmem.
  { intros card. rewrite list_elem_of_filter, keepsCard_spec,
      matches_single_tag by done. tauto. }
  split; [|done].
  apply getAllTags_elem in Htag as (card & cardTags & Hin & Htags & Hcarries).
  intros Hnil. assert (card ∈ []) as Hcontra; [|by apply elem_of_nil in Hcontra].
  rewrite <- Hnil. apply Hmem. eauto.
Qed.

(** X9. Every creator [getAllCreators] offers selects something: with no
    other filter active, filtering by that creator alone returns a non-empty
    list, made of the cards of exactly that creator. *)
Theorem getAllCreators_creator_selects_cards
    (cards : list Card) (selected : string)
    (extensionName : string) (extension_settings : gmap string Settings)
    (settings : Settings) :
  selected ∈ getAllCreators cards →
  extension_settings !! extensionName = Some settings →
  neutralSettings settings →
  ∃ kept,
    filterCards cards (mkFilters None [] (Some selected)) None extensionName
      extension_settings = Ok kept
    ∧ kept ≠ []
    ∧ ∀ card, card ∈ kept ↔ card ∈ cards ∧ creator card = Some selected.
Proof.
  intros Hselected Hsettings Hneutral.
  apply getAllCreators_elem in Hselected as (Hne & card & Hin & Hcreator).
  rewrite (filterCards_filter _ _ _ _ _ settings) by (done || by right).
  eexists. split; [done|].
  assert (∀ card,
            card ∈ filter (λ card, keepsCard (mkFilters None [] (Some selected))
                                     settings card = true) cards
            ↔ card ∈ cards ∧ creator card = Some selected) as Hmem.
  { intros c. rewrite list_elem_of_filter, keepsCard_spec,
      matches_single_creator by done. tauto. }
  split; [|done].
  intros Hnil. assert (card ∈ []) as Hcontra; [|by apply elem_of_nil in Hcontra].
  rewrite <- Hnil. apply Hmem. eauto.
Qed.

(** ** More on deduplicateCards *)

Lemma dedupFrom_key_covered seen cards k :
  k ∈ cardKey <$> cards →
  is_Some (seen !! k) ∨ k ∈ cardKey <$> dedupFrom seen cards.
Proof.
  revert seen. induction cards as [|card rest IH]; intros seen; simpl.
  - by intros ?%elem_of_nil.
  - rewrite ?fmap_cons, elem_of_cons. intros [->|Hin].
    + destruct (seen !! cardKey card) eqn:Hseen; [left; by eexists|].
      right. rewrite ?fmap_cons. apply elem_of_cons. by left.
    + destruct (seen !! cardKey card) eqn:Hseen; [by apply IH|].
      destruct (IH (<[cardKey card := card]> seen) Hin) as [Hsome|Hkept].
      * apply lookup_insert_is_Some in Hsome. destruct Hsome as [Heq|[_ Hsome]].
        -- right. rewrite ?fmap_cons. apply elem_of_cons. by left.
        -- by left.
      * right. rewrite ?fmap_cons. apply elem_of_cons. by right.
Qed.

(** The [seen] map after the loop has run over [cards]. *)
Lemma dedup_foldl_seen cards seen acc visited :
  seenKeysOf seen visited →
  seenKeysOf (foldl dedupStep (seen, acc) cards).1 (visited ++ cards).
Proof.
  revert seen acc visited. induction cards as [|card rest IH];
    intros seen acc visited Hinv; simpl.
  - by rewrite app_nil_r.
  - pose proof (seenKeysOf_step _ _ card Hinv) as Hstep.
    rewrite (assoc_L (++) visited [card] rest : visited ++ card :: rest = _).
    destruct (seen !! cardKey card); by apply IH.
Qed.

Lemma dedup_foldl_seen_acc cards seen acc acc' :
  (foldl dedupStep (seen, acc) cards).1 = (foldl dedupStep (seen, acc') cards).1.
Proof.
  revert seen acc acc'. induction cards as [|card rest IH]; intros seen acc acc';
    simpl; [done|].
  destruct (seen !! cardKey card); apply IH.
Qed.

Lemma dedupFrom_app seen cards1 cards2 :
  dedupFrom seen (cards1 ++ cards2)
  = dedupFrom seen cards1
    ++ dedupFrom (foldl dedupStep (seen, []) cards1).1 cards2.
Proof.
  revert seen. induction cards1 as [|card rest IH]; intros seen; simpl; [done|].
  destruct (seen !! cardKey card) eqn:Hseen; rewrite IH; [done|].
  simpl. do 3 f_equal. apply dedup_foldl_seen_acc.
Qed.

(** Starting from a larger [seen] map filters what a smaller one keeps. *)
Lemma dedupFrom_filter (cards : list Card) (seen known fresh : gmap string Card) :
  (∀ k, is_Some (seen !! k) ↔ is_Some (known !! k) ∨ is_Some (fresh !! k)) →
  dedupFrom seen cards
  = filter (λ card, known !! cardKey card = None) (dedupFrom fresh cards).
Proof.
  revert seen fresh. induction cards as [|card rest IH]; intros seen fresh Hinv;
    simpl; [done|].
  destruct (fresh !! cardKey card) eqn:Hfresh.
  { destruct (seen !! cardKey card) eqn:Hseen; [by apply IH|].
    assert (is_Some (seen !! cardKey card)) as [? Hcontra]
      by (apply Hinv; right; by eexists). congruence. }
  assert (∀ k, is_Some (<[cardKey card := card]> seen !! k)
               ↔ is_Some (known !! k)
                 ∨ is_Some (<[cardKey card := card]> fresh !! k)) as Hinv'.
  { intros k. rewrite !lookup_insert_is_Some, Hinv.
    destruct (decide (cardKey card = k)); tauto. }
  rewrite filter_cons. destruct (known !! cardKey card) eqn:Hknown.
  - assert (is_Some (seen !! cardKey card)) as [first Hseen]
      by (apply Hinv; left; by eexists).
    rewrite Hseen, decide_False by done. apply IH.
    intros k. rewrite lookup_insert_is_Some, Hinv.
    destruct (decide (cardKey card = k)) as [<-|]; [|tauto].
    split; intros _; left; by eexists.
  - assert (seen !! cardKey card = None) as ->.
    { apply eq_None_not_Some. intros [Hk|Hf]%Hinv.
      - rewrite Hknown in Hk. by destruct Hk.
      - rewrite Hfresh in Hf. by destruct Hf. }
    rewrite decide_True by done. f_equal. by apply IH.
Qed.

(** X10. [deduplicateCards] returns its input unchanged exactly when the
    keys of the cards are pairwise distinct; it never returns more cards
    than it was given. *)
Theorem deduplicateCards_unchanged_iff_distinct (cards : list Card) :
  (deduplicateCards cards = cards ↔ NoDup (cardKey <$> cards))
  ∧ length (deduplicateCards cards) ≤ length cards.
Proof.
  rewrite deduplicateCards_dedupFrom. split.
  - split.
    + intros Heq. rewrite <- Heq. apply dedupFrom_keys.
    + intros Hnd. apply dedupFrom_distinct; [done|]. intros k _. apply lookup_empty.
  - apply sublist_length, dedupFrom_sublist.
Qed.

(** X11. [deduplicateCards] loses no key: the keys of the result are the
    keys of the input, so every dropped card has a kept card of the same
    key. *)
Theorem deduplicateCards_keeps_every_key (cards : list Card) (k : string) :
  k ∈ cardKey <$> deduplicateCards cards ↔ k ∈ cardKey <$> cards.
Proof.
  rewrite deduplicateCards_dedupFrom. split.
  - intros Hin. eapply elem_of_sublist; [exact Hin|].
    apply fmap_sublist, dedupFrom_sublist.
  - intros Hin. destruct (dedupFrom_key_covered ∅ cards k Hin) as [Hsome|?]; [|done].
    rewrite lookup_empty in Hsome. by destruct Hsome.
Qed.

(** X12. Merging sources: de-duplicating a concatenation keeps the
    de-duplicated first list whole, followed by the cards of the
    de-duplicated second list whose key does not occur in the first. Cards
    of an earlier source are never displaced by a later one. *)
Theorem deduplicateCards_app (cards1 cards2 : list Card) :
  deduplicateCards (cards1 ++ cards2)
  = deduplicateCards cards1
    ++ filter (λ card, cardKey card ∉ cardKey <$> cards1) (deduplicateCards cards2).
Proof.
  rewrite !deduplicateCards_dedupFrom, dedupFrom_app. f_equal.
  pose proof (dedup_foldl_seen cards1 ∅ [] []) as Hseen. simpl in Hseen.
  set (seen := (foldl dedupStep (∅, []) cards1).1) in *.
  assert (seenKeysOf seen cards1) as Hkeys.
  { apply Hseen. intros k. rewrite lookup_empty. simpl.
    split; [by intros [? ?]|by intros ?%elem_of_nil]. }
  rewrite (dedupFrom_filter cards2 seen seen ∅).
  - apply list_filter_iff. intros card. rewrite <- (Hkeys (cardKey card)).
    rewrite eq_None_not_Some. done.
  - intros k. rewrite lookup_empty. split; [by left|].
    intros [?|[? ?]]; done.
Qed.

(** ** More on sortCards *)

Lemma sortedCopy_idempotent {A} (compareFn : A → A → Z) (l : list A) :
  ConsistentCompare compareFn →
  sortedCopy compareFn (sortedCopy compareFn l) = sortedCopy compareFn l.
Proof.
  intros Hcmp. symmetry. apply sortedCopy_unique; [done| |done].
  by apply sortedCopy_sorted.
Qed.

Lemma sortedContents_idempotent (localeCompare : string → string → Z)
    (sortBy : string) (elems : list Card) :
  ConsistentCompare localeCompare →
  sortedContents localeCompare sortBy (sortedContents localeCompare sortBy elems)
  = sortedContents localeCompare sortBy elems.
Proof.
  intros Hlc. unfold sortedContents. repeat case_decide; try done;
    apply sortedCopy_idempotent.
  - apply (byField_consistent localeCompare ByName Hlc).
  - apply (byField_reverse_consistent localeCompare ByName Hlc).
  - apply (byField_consistent localeCompare ByCreator Hlc).
  - apply (byField_reverse_consistent localeCompare ByCreator Hlc).
Qed.

(** X13. Sorting twice is sorting once: for a consistent collation and any
    token, calling [sortCards] on the array it returned, with the same
    token, returns an array with the same contents. *)
Theorem sortCards_twice (localeCompare : string → string → Z)
    (h : heap) (cards : loc) (elems : list Card) (sortBy : string) :
  ConsistentCompare localeCompare →
  h !! cards = Some elems →
  ∃ sorted h' again h'' result,
    sortCards localeCompare cards sortBy h = Ok (sorted, h')
    ∧ sortCards localeCompare sorted sortBy h' = Ok (again, h'')
    ∧ h' !! sorted = Some result
    ∧ h'' !! again = Some result
    ∧ h'' !! sorted = Some result
    ∧ again ≠ sorted.
Proof.
  intros Hlc Hcards.
  pose proof (sortCards_run localeCompare h cards elems sortBy Hcards) as Hfirst.
  set (sorted := fresh (dom h)) in *.
  set (h' := <[sorted := sortedContents localeCompare sortBy elems]> h) in *.
  assert (h' !! sorted = Some (sortedContents localeCompare sortBy elems))
    as Hsorted by apply lookup_insert_eq.
  pose proof (sortCards_run localeCompare h' sorted _ sortBy Hsorted) as Hsecond.
  rewrite sortedContents_idempotent in Hsecond by done.
  assert (fresh (dom h') ≠ sorted) as Hfresh.
  { intros Heq. pose proof (fresh_loc_unused h') as Hnone.
    rewrite Heq, Hsorted in Hnone. done. }
  eexists _, _, _, _, _. split; [exact Hfirst|]. split; [exact Hsecond|].
  split; [done|]. split; [apply lookup_insert_eq|].
  split; [by rewrite lookup_insert_ne|done].
Qed.

(** ** transformChubCard *)

Section TransformProperties.

Context {number : Type} {host : Host number}.

Lemma transformChubCard_steps (node : JSValue number) :
  ¬ isNullish node → transformChubCard node = transformBySteps node.
Proof.
  intros Hnode. destruct node; try reflexivity; destruct Hnode; by (left + right).
Qed.

Lemma transformChubCard_nullish (node : JSValue number) :
  isNullish node → transformChubCard node = Throw TypeError.
Proof. by intros [-> | ->]. Qed.

Lemma topicToLowerCase_isOk (t : JSValue number) :
  isOk (topicToLowerCase t) = false ↔ ¬ isStringValue t.
Proof.
  unfold isStringValue. destruct t; simpl; split; try done;
    try (by intros _ [? ?]). intros Hnot. destruct Hnot. by eexists.
Qed.

Lemma lowerTopics_throws (nodeTopics : JSValue number) :
  isOk (lowerTopics nodeTopics) = false
  ↔ truthyV nodeTopics = true
    ∧ ∀ topics, nodeTopics = VArr topics → ∃ t, t ∈ topics ∧ ¬ isStringValue t.
Proof.
  unfold lowerTopics, orV.
  destruct (truthyV nodeTopics) eqn:Htruthy.
  - destruct nodeTopics; try done; simpl;
      try (split; [intros _; split; [done|]; by intros ? [=] | done]).
    rewrite mapR_isOk. split.
    + intros (t & Hin & Ht). split; [done|]. intros topics [= <-].
      exists t. split; [done|]. by apply topicToLowerCase_isOk.
    + intros [_ Hall]. destruct (Hall items eq_refl) as (t & Hin & Ht).
      exists t. split; [done|]. by apply topicToLowerCase_isOk.
  - simpl. split; [done|]. by intros [? _].
Qed.

Lemma lowerTopics_spec (nodeTopics : JSValue number) (topicsLower : list string) :
  lowerTopics nodeTopics = Ok topicsLower →
  ∃ topics : list string,
    orV nodeTopics (VArr []) = VArr (VStr <$> topics)
    ∧ topicsLower = toLowerCase <$> topics.
Proof.
  unfold lowerTopics. destruct (orV nodeTopics (VArr [])) as [| | | | |items|];
    try done. clear. revert topicsLower.
  induction items as [|t items IH]; intros topicsLower; simpl.
  - intros [= <-]. by exists [].
  - destruct t as [| | | |s| |]; try done. simpl.
    destruct (mapR topicToLowerCase items) as [lowered|]; [|done]. simpl.
    intros [= <-]. destruct (IH lowered eq_refl) as (topics & [= ->] & ->).
    by exists (s :: topics).
Qed.

Lemma toStringV_falsy (v : JSValue number) :
  truthyV v = false → isOk (toStringV v) = true.
Proof. by destruct v. Qed.

Lemma cardCreator_throws (fullPath : JSValue number) :
  isOk (cardCreator fullPath) = false
  ↔ truthyV fullPath = true ∧ ¬ isStringValue fullPath.
Proof.
  unfold cardCreator, isStringValue.
  destruct (truthyV fullPath) eqn:Htruthy; [|split; [done|by intros [? _]]].
  destruct fullPath; simpl; split; try done;
    try (intros _; split; [done|by intros [? ?]]).
  intros [_ Hnot]. destruct Hnot. by eexists.
Qed.

Lemma cardPreview_throws (tagline nodeDescription : JSValue number) :
  isOk (cardPreview tagline nodeDescription) = false
  ↔ truthyV tagline = false
    ∧ ¬ isNullish nodeDescription ∧ ¬ isStringValue nodeDescription.
Proof.
  unfold cardPreview, isNullish, isStringValue.
  destruct (truthyV tagline); [split; [done|by intros [? _]]|].
  destruct nodeDescription; simpl; split; try done;
    try (intros _; split; [done|]; split; [by intros [?|?]|by intros [? ?]]).
  - intros (_ & Hnot & _). destruct Hnot. by left.
  - intros (_ & Hnot & _). destruct Hnot. by right.
  - intros (_ & _ & Hnot). destruct Hnot. by eexists.
Qed.

Lemma cardId_throws (fullPath nodeId : JSValue number) :
  isOk (cardCreator fullPath) = true →
  (isOk (cardId fullPath nodeId) = false
   ↔ truthyV fullPath = false ∧ isOk (toStringV nodeId) = false).
Proof.
  unfold cardId, cardCreator.
  destruct (truthyV fullPath) eqn:Htruthy.
  - destruct fullPath; try done. simpl. intros _. split; [done|by intros [? _]].
  - intros _. destruct (toStringV nodeId); simpl; split; try done.
    by intros [_ ?].
Qed.

(** The steps that succeed when [transformChubCard] does. *)
Lemma transformBySteps_ok (node card : JSValue number) :
  transformBySteps node = Ok card ↔
  ∃ topicsLower id desc_preview creator fullPathText,
    lowerTopics (propertyOf node "topics") = Ok topicsLower
    ∧ cardId (propertyOf node "fullPath") (propertyOf node "id") = Ok id
    ∧ cardPreview (propertyOf node "tagline") (propertyOf node "description")
      = Ok desc_preview
    ∧ cardCreator (propertyOf node "fullPath") = Ok creator
    ∧ toStringV (propertyOf node "fullPath") = Ok fullPathText
    ∧ card = cardObject node topicsLower id desc_preview creator fullPathText.
Proof.
  unfold transformBySteps. split.
  - destruct (lowerTopics _) as [topicsLower|]; [|done]. simpl.
    destruct (cardId _ _) as [id|]; [|done]. simpl.
    destruct (cardPreview _ _) as [desc_preview|]; [|done]. simpl.
    destruct (cardCreator _) as [creator|]; [|done]. simpl.
    destruct (toStringV _) as [fullPathText|]; [|done]. simpl.
    intros [= <-]. by eexists _, _, _, _, _.
  - intros (? & ? & ? & ? & ? & -> & -> & -> & -> & -> & ->). done.
Qed.

(** When [transformChubCard] throws, condition by condition. *)
Lemma transformThrows_isOk (node : JSValue number) :
  isOk (transformChubCard node) = false ↔ transformThrows node.
Proof.
  unfold transformThrows.
  destruct node as [| | b | n | s | items | props] eqn:Hnode;
    try (split; [intros _; left; by (left + right)|done]).
  all: rewrite <- Hnode; rewrite transformChubCard_steps
         by (rewrite Hnode; by intros [?|?]).
  all: assert (¬ isNullish node) as Hnot by (rewrite Hnode; by intros [?|?]).
  all: clear Hnode; unfold transformBySteps.
  all: pose proof (lowerTopics_throws (propertyOf node "topics")) as Htopics.
  all: pose proof (cardCreator_throws (propertyOf node "fullPath")) as Hcreator.
  all: pose proof (cardPreview_throws (propertyOf node "tagline")
                     (propertyOf node "description")) as Hpreview.
  all: pose proof (cardId_throws (propertyOf node "fullPath")
                     (propertyOf node "id")) as Hid.
  all: destruct (lowerTopics _) as [topicsLower|]; simpl;
         [|split; [intros _; right; left; by apply Htopics|done]].
  all: destruct (cardCreator _) as [creator|] eqn:Hc; simpl in *.
  2,4,6,8,10: (split; [intros _; do 2 right; left; by apply Hcreator|]; intros _;
               destruct (cardId _ _); simpl; try done;
               by destruct (cardPreview _ _)).
  all: specialize (Hid eq_refl).
  all: destruct (cardId _ _) as [id|]; simpl;
         [|split; [intros _; do 3 right; left; by apply Hid|done]].
  all: destruct (cardPreview _ _) as [desc_preview|]; simpl;
         [|split; [intros _; do 4 right; by apply Hpreview|done]].
  all: assert (isOk (toStringV (propertyOf node "fullPath")) = true) as Htext.
  all: try (unfold cardCreator in Hc;
            destruct (truthyV (propertyOf node "fullPath")) eqn:Htruthy;
            [by destruct (propertyOf node "fullPath")|by apply toStringV_falsy]).
  all: destruct (toStringV (propertyOf node "fullPath")); [|by simpl in Htext];
         simpl in *.
  all: split; [done|].
  all: intros [?|[?%Htopics|[?%Hcreator|[?%Hid|?%Hpreview]]]]; done.
Qed.

Lemma transformChubCard_ok (node card : JSValue number) :
  transformChubCard node = Ok card →
  ∃ topicsLower id desc_preview creator fullPathText,
    lowerTopics (propertyOf node "topics") = Ok topicsLower
    ∧ cardId (propertyOf node "fullPath") (propertyOf node "id") = Ok id
    ∧ cardPreview (propertyOf node "tagline") (propertyOf node "description")
      = Ok desc_preview
    ∧ cardCreator (propertyOf node "fullPath") = Ok creator
    ∧ toStringV (propertyOf node "fullPath") = Ok fullPathText
    ∧ card = cardObject node topicsLower id desc_preview creator fullPathText.
Proof.
  intros Hcard. apply transformBySteps_ok.
  rewrite <- transformChubCard_steps; [done|].
  intros Hnull. by rewrite (transformChubCard_nullish _ Hnull) in Hcard.
Qed.

Lemma cardCreator_string (fullPath creator : JSValue number) :
  cardCreator fullPath = Ok creator → isStringValue creator.
Proof.
  unfold cardCreator. destruct (truthyV fullPath).
  - destruct fullPath; try done. intros [= <-]. by eexists.
  - intros [= <-]. by eexists.
Qed.

Lemma orV_truthy (v d : JSValue number) :
  truthyV d = true → truthyV (orV v d) = true.
Proof. intros Hd. unfold orV. by destruct (truthyV v) eqn:Hv. Qed.

(** X15. Every card [transformChubCard] returns has the same fourteen
    properties in the same order; [service] and [sourceService] are
    ["chub"], [chunk] is [null]; [tags] is an array of strings; [id],
    [creator] and [image_url] are strings; and [name] is truthy. *)
Theorem transformChubCard_card_shape (node card : JSValue number) :
  transformChubCard node = Ok card →
  fieldNames card = cardFieldNames
  ∧ propertyOf card "service" = VStr "chub"
  ∧ propertyOf card "sourceService" = VStr "chub"
  ∧ propertyOf card "chunk" = VNull
  ∧ (∃ topics : list string, propertyOf card "tags" = VArr (VStr <$> topics))
  ∧ isStringValue (propertyOf card "id")
  ∧ isStringValue (propertyOf card "creator")
  ∧ isStringValue (propertyOf card "image_url")
  ∧ truthyV (propertyOf card "name") = true.
Proof.
  intros (topicsLower & id & desc_preview & creator & fullPathText
          & Htopics & Hid & Hpreview & Hcreator & Htext & ->)%transformChubCard_ok.
  repeat split; try reflexivity.
  - apply lowerTopics_spec in Htopics as (topics & Htags & _). by exists topics.
  - by eexists.
  - by apply cardCreator_string in Hcreator.
  - by eexists.
  - by apply orV_truthy.
Qed.

Lemma substring_prefix (m : nat) (s : string) :
  String.length (String.substring 0 m s) = min m (String.length s)
  ∧ ∃ rest, s = String.substring 0 m s +:+ rest.
Proof.
  revert s. induction m as [|m IH]; intros s.
  - destruct s; simpl; (split; [done|by eexists]).
  - destruct s as [|c s]; simpl; [split; [done|by exists ""]|].
    destruct (IH s) as [Hlen [rest Hrest]]. split; [by rewrite Hlen|].
    exists rest. change (String c s = String c (String.substring 0 m s +:+ rest)).
    f_equal. exact Hrest.
Qed.

Lemma substring_short (m : nat) (s : string) :
  String.length s ≤ m → String.substring 0 m s = s.
Proof.
  revert s. induction m as [|m IH]; intros s Hlen.
  - destruct s; [done|simpl in Hlen; lia].
  - destruct s as [|c s]; simpl; [done|]. rewrite IH; [done|simpl in Hlen; lia].
Qed.

Lemma beforeSlash_spec (s : string) :
  includes (beforeSlash s) "/" = false
  ∧ (s = beforeSlash s ∨ ∃ rest, s = beforeSlash s +:+ "/" +:+ rest).
Proof.
  induction s as [|c s [IHno IHsplit]]; simpl; [by split; [|left]|].
  destruct (decide (c = "/"%char)) as [->|Hc]; simpl.
  - split; [done|]. right. by exists s.
  - rewrite IHno, orb_false_r. split.
    + rewrite andb_true_r. apply bool_decide_eq_false. congruence.
    + destruct IHsplit as [Heq|[rest Heq]].
      * left. by f_equal.
      * right. exists rest.
        change (String c s = String c (beforeSlash s +:+ "/" +:+ rest)).
        by f_equal.
Qed.

(** X16. The [desc_preview] of a transformed card is the node's [tagline]
    when that is truthy, whatever its length; otherwise it is the first 150
    code units of a string [description] (all of it when it is no longer),
    and the empty string when there is no description. *)
Theorem transformChubCard_desc_preview (node card : JSValue number) :
  transformChubCard node = Ok card →
  (truthyV (propertyOf node "tagline") = true →
   propertyOf card "desc_preview" = propertyOf node "tagline")
  ∧ (truthyV (propertyOf node "tagline") = false →
     ∀ text, propertyOf node "description" = VStr text →
       ∃ preview rest,
         propertyOf card "desc_preview" = VStr preview
         ∧ text = preview +:+ rest
         ∧ String.length preview = min 150 (String.length text))
  ∧ (truthyV (propertyOf node "tagline") = false →
     isNullish (propertyOf node "description") →
     propertyOf card "desc_preview" = VStr "").
Proof.
  intros (topicsLower & id & desc_preview & creator & fullPathText
          & _ & _ & Hpreview & _ & _ & ->)%transformChubCard_ok.
  change (propertyOf (cardObject _ _ _ _ _ _) "desc_preview") with desc_preview.
  unfold cardPreview in Hpreview. repeat split.
  - intros Htagline. rewrite Htagline in Hpreview. by injection Hpreview as <-.
  - intros Htagline text Htext. rewrite Htagline, Htext in Hpreview.
    simpl in Hpreview. injection Hpreview as <-.
    destruct (substring_prefix 150 text) as [Hlen [rest Hrest]].
    exists (String.substring 0 150 text), rest. split; [|done].
    unfold orV. simpl. by destruct (String.substring 0 150 text).
  - intros Htagline Hnull. rewrite Htagline in Hpreview.
    destruct Hnull as [Hnull|Hnull]; rewrite Hnull in Hpreview;
      by injection Hpreview as <-.
Qed.

(** X17. With a non-empty string [fullPath], the [id] and the [image_url]
    of the card are both the character page of that path, and the
    [creator] is the part of the path before its first slash. Without a
    [fullPath], the creator is ["Unknown"], the [id] is ["chub-"] followed
    by the node's [id], and the [image_url] is the character page of the
    text [undefined]. *)
Theorem transformChubCard_path_fields (node card : JSValue number) :
  transformChubCard node = Ok card →
  (∀ path, propertyOf node "fullPath" = VStr path → path ≠ "" →
     propertyOf card "id" = VStr ("https://chub.ai/characters/" +:+ path)
     ∧ propertyOf card "image_url" = VStr ("https://chub.ai/characters/" +:+ path)
     ∧ ∃ owner,
         propertyOf card "creator" = VStr owner
         ∧ ¬ isSubstringOf "/" owner
         ∧ (path = owner ∨ ∃ rest, path = owner +:+ "/" +:+ rest))
  ∧ (propertyOf node "fullPath" = VUndefined →
     propertyOf card "creator" = VStr "Unknown"
     ∧ propertyOf card "image_url" = VStr "https://chub.ai/characters/undefined"
     ∧ ∃ idText, toStringV (propertyOf node "id") = Ok idText
                 ∧ propertyOf card "id" = VStr ("chub-" +:+ idText)).
Proof.
  intros (topicsLower & id & desc_preview & creator & fullPathText
          & _ & Hid & _ & Hcreator & Htext & ->)%transformChubCard_ok.
  change (propertyOf (cardObject _ _ _ _ _ _) "id") with (VStr id : JSValue number).
  change (propertyOf (cardObject _ _ _ _ _ _) "creator") with creator.
  change (propertyOf (cardObject _ _ _ _ _ _) "image_url")
    with (VStr ("https://chub.ai/characters/" +:+ fullPathText) : JSValue number).
  unfold cardId, cardCreator in *. split.
  - intros path Hpath Hne. rewrite Hpath in *. simpl in *.
    assert (isEmpty path = false) as Hempty by by destruct path.
    rewrite Hempty in *. simpl in *.
    injection Hid as <-. injection Hcreator as <-. injection Htext as <-.
    split; [done|]. split; [done|]. exists (beforeSlash path).
    destruct (beforeSlash_spec path) as [Hno Hsplit].
    split; [done|]. split; [|done].
    intros Hsub%includes_spec. congruence.
  - intros Hpath. rewrite Hpath in *. simpl in *.
    injection Hcreator as <-. injection Htext as <-.
    split; [done|]. split; [done|].
    destruct (toStringV (propertyOf node "id")) as [idText|]; [|done].
    simpl in Hid. injection Hid as <-. by exists idText.
Qed.

Lemma topicsFlagged_spec (node : JSValue number) (topicsLower : list string) :
  lowerTopics (propertyOf node "topics") = Ok topicsLower →
  topicsFlagged topicsLower = true ↔ topicFlagged node.
Proof.
  intros (topics & Htags & ->)%lowerTopics_spec.
  unfold topicsFlagged, topicFlagged. rewrite existsb_elem_of. split.
  - intros (lowered & (topic & -> & Hin)%list_elem_of_fmap
            & (keyword & Hkw & Hinc)%existsb_elem_of).
    unfold orV in Htags.
    destruct (truthyV (propertyOf node "topics")) eqn:Htruthy.
    + exists (VStr <$> topics), topic, keyword. split; [done|].
      split; [by apply list_elem_of_fmap_2|]. split; [done|].
      by apply includes_spec.
    + destruct topics; [by apply elem_of_nil in Hin|done].
  - intros (topics' & topic & keyword & Hnode & Hin & Hkw & Hsub).
    unfold orV in Htags. rewrite Hnode in Htags. simpl in Htags.
    injection Htags as ->.
    apply list_elem_of_fmap in Hin as (topic' & [= ->] & Hin).
    exists (toLowerCase topic'). split; [by apply list_elem_of_fmap_2|].
    apply existsb_elem_of. exists keyword. split; [done|].
    by apply includes_spec.
Qed.

(** X18. The [possibleNsfw] of a transformed card is [true] as soon as a
    topic contains one of the keywords, in any letter case and anywhere in
    the topic; otherwise it is the node's [nsfw_image] when that is truthy
    and [false] when it is not. So it is truthy exactly when a topic is
    flagged or [nsfw_image] is truthy. *)
Theorem transformChubCard_possibleNsfw (node card : JSValue number) :
  transformChubCard node = Ok card →
  (topicFlagged node → propertyOf card "possibleNsfw" = VBool true)
  ∧ (¬ topicFlagged node →
     propertyOf card "possibleNsfw"
     = if truthyV (propertyOf node "nsfw_image")
       then propertyOf node "nsfw_image" else VBool false)
  ∧ (truthyV (propertyOf card "possibleNsfw") = true
     ↔ topicFlagged node ∨ truthyV (propertyOf node "nsfw_image") = true).
Proof.
  intros (topicsLower & id & desc_preview & creator & fullPathText
          & Htopics & _ & _ & _ & _ & ->)%transformChubCard_ok.
  change (propertyOf (cardObject _ _ _ _ _ _) "possibleNsfw")
    with (orV (orV (VBool (topicsFlagged topicsLower))
                   (propertyOf node "nsfw_image")) (VBool false)).
  pose proof (topicsFlagged_spec node topicsLower Htopics) as Hflag.
  unfold orV. destruct (topicsFlagged topicsLower); simpl.
  - assert (topicFlagged node) as Hyes by by apply Hflag.
    split; [done|]. split; [done|]. split; [by left|done].
  - assert (¬ topicFlagged node) as Hno by (intros ?%Hflag; done).
    split; [done|].
    destruct (truthyV (propertyOf node "nsfw_image")) eqn:Himage; simpl.
    + rewrite Himage. split; [done|]. split; [by right|done].
    + split; [done|]. split; [done|]. by intros [?|?].
Qed.

End TransformProperties.


(** ** The errors of fetchChubCards *)

Section FetchErrors.

Context {number : Type} {host : Host number}.

Lemma toStringV_VArr (items : list (JSValue number)) :
  toStringV (VArr items)
  = bindR (mapR elementToString items) (λ parts, Ok (String.concat "," parts)).
Proof.
  cbn [toStringV]. f_equal.
  induction items as [|x items IH]; [done|].
  cbn [mapR]. rewrite <- IH. by destruct x.
Qed.

Lemma valueSize_elem (items : list (JSValue number)) (x : JSValue number) :
  x ∈ items → valueSize x < valueSize (VArr items).
Proof.
  cbn [valueSize]. induction items as [|y items IH]; [by intros ?%elem_of_nil|].
  intros [->|Hin]%elem_of_cons; [lia|]. specialize (IH Hin). lia.
Qed.

Lemma mapR_throw {A B} (f : A → Result B) (l : list A) e :
  mapR f l = Throw e → ∃ x, x ∈ l ∧ f x = Throw e.
Proof.
  induction l as [|x l IH]; simpl; [done|].
  destruct (f x) as [y|e'] eqn:Hfx; simpl.
  - destruct (mapR f l) as [ys|e'']; simpl; [done|].
    intros [= <-]. destruct (IH eq_refl) as (x' & Hin & Hx').
    exists x'. split; [apply elem_of_cons; by right|done].
  - intros [= <-]. exists x. split; [apply elem_of_cons; by left|done].
Qed.

Lemma toStringV_error_sized (n : nat) :
  ∀ (v : JSValue number) e, valueSize v ≤ n → toStringV v = Throw e → e = TypeError.
Proof.
  induction n as [|n IH]; intros v e Hsize.
  - destruct v; cbn [valueSize] in Hsize; lia.
  - destruct v as [| | | | |items|props]; try done.
    + rewrite toStringV_VArr.
      destruct (mapR elementToString items) as [parts|e'] eqn:Hparts; [done|].
      cbn [bindR]. intros [= <-].
      apply mapR_throw in Hparts as (x & Hin & Hx).
      pose proof (valueSize_elem items x Hin) as Hlt.
      apply (IH x); [lia|]. by destruct x.
    + cbn [toStringV]. destruct (ownProperty props "toString"); [by intros [= <-]|done].
Qed.

Lemma toStringV_error (v : JSValue number) e : toStringV v = Throw e → e = TypeError.
Proof. by apply (toStringV_error_sized (valueSize v)). Qed.

Lemma lowerTopics_error (nodeTopics : JSValue number) e :
  lowerTopics nodeTopics = Throw e → e = TypeError.
Proof.
  unfold lowerTopics.
  destruct (orV nodeTopics (VArr [])) as [| | | | |items|];
    try (by intros [= <-]).
  intros (t & _ & Ht)%mapR_throw. destruct t; simpl in Ht; congruence.
Qed.

Lemma cardId_error (fullPath nodeId : JSValue number) e :
  cardId fullPath nodeId = Throw e → e = TypeError.
Proof.
  unfold cardId. destruct (truthyV fullPath).
  - destruct (toStringV fullPath) eqn:Hs; simpl; [done|].
    intros [= <-]. by apply toStringV_error in Hs.
  - destruct (toStringV nodeId) eqn:Hs; simpl; [done|].
    intros [= <-]. by apply toStringV_error in Hs.
Qed.

Lemma cardPreview_error (tagline nodeDescription : JSValue number) e :
  cardPreview tagline nodeDescription = Throw e → e = TypeError.
Proof.
  unfold cardPreview. destruct (truthyV tagline); [done|].
  destruct nodeDescription; simpl; try done; by intros [= <-].
Qed.

Lemma cardCreator_error (fullPath : JSValue number) e :
  cardCreator fullPath = Throw e → e = TypeError.
Proof.
  unfold cardCreator. destruct (truthyV fullPath); [|done].
  destruct fullPath; try done; by intros [= <-].
Qed.

Lemma transformChubCard_error (node : JSValue number) e :
  transformChubCard node = Throw e → e = TypeError.
Proof.
  destruct node as [| | b | n | s | items | props] eqn:Hnode;
    try (by intros [= <-]).
  all: rewrite <- Hnode; rewrite transformChubCard_steps
         by (rewrite Hnode; by intros [?|?]).
  all: clear Hnode; unfold transformBySteps.
  all: destruct (lowerTopics _) as [topicsLower|e1] eqn:Htopics; simpl;
         [|intros [= <-]; by apply lowerTopics_error in Htopics].
  all: destruct (cardId _ _) as [id|e2] eqn:Hid; simpl;
         [|intros [= <-]; by apply cardId_error in Hid].
  all: destruct (cardPreview _ _) as [preview|e3] eqn:Hpreview; simpl;
         [|intros [= <-]; by apply cardPreview_error in Hpreview].
  all: destruct (cardCreator _) as [creator|e4] eqn:Hcreator; simpl;
         [|intros [= <-]; by apply cardCreator_error in Hcreator].
  all: destruct (toStringV (propertyOf node "fullPath")) as [text|e5] eqn:Htext;
         simpl; [done|].
  all: intros [= <-]; by apply toStringV_error in Htext.
Qed.

(** X14. [transformChubCard] throws exactly on these nodes, and what it
    throws is a TypeError: [null] or [undefined]; a truthy [topics] that is
    not an array of strings; a truthy [fullPath] that is not a string; no
    [fullPath] and an [id] whose string conversion throws; no [tagline] and
    a [description] that is neither [null], [undefined] nor a string. On
    every other node it returns a card. *)
Theorem transformChubCard_throws_iff (node : JSValue number) :
  (transformThrows node ↔ transformChubCard node = Throw TypeError)
  ∧ (¬ transformThrows node ↔ ∃ card, transformChubCard node = Ok card).
Proof.
  pose proof (transformThrows_isOk node) as Hthrows.
  destruct (transformChubCard node) as [card|e] eqn:Hcard; simpl in Hthrows.
  - split; split.
    + by intros ?%Hthrows.
    + done.
    + by eexists.
    + by intros _ ?%Hthrows.
  - apply transformChubCard_error in Hcard as ->. split; split.
    + done.
    + intros _. by apply Hthrows.
    + intros []. by apply Hthrows.
    + by intros [? ?].
Qed.

Lemma readChubResponse_nullish (response : Response number) data :
  ok response = true → json response = Ok data → isNullish data →
  readChubResponse response = Throw TypeError.
Proof.
  intros Hok Hjson Hnull. unfold readChubResponse. rewrite Hok, Hjson.
  by destruct Hnull as [-> | ->].
Qed.

Lemma readChubResponse_invalid_format (response : Response number) data :
  ok response = true → json response = Ok data → ¬ isNullish data →
  bodyNodes data = None →
  readChubResponse response = Throw (Error "Invalid response format from Chub API").
Proof.
  intros Hok Hjson Hnot Hnodes. unfold readChubResponse.
  rewrite Hok, Hjson. simpl.
  destruct data as [| | | | |items|props]; try done.
  - destruct Hnot. by left.
  - destruct Hnot. by right.
  - simpl in *. destruct (ownProperty props "data") as [dataData|]; [|done]. simpl.
    destruct dataData as [| |[|]| n |s|items|dataProps]; simpl; try done.
    + by destruct (numberTruthy n).
    + by destruct (isEmpty s).
    + destruct (ownProperty dataProps "nodes") as [nodes|]; [|done]. simpl.
      by destruct nodes.
Qed.

Lemma readChubResponse_errorKinds (response : Response number) :
  errorKinds response (readChubResponse response).
Proof.
  unfold errorKinds. split; [apply readChubResponse_not_ok|].
  split; [intros Hok e; by apply readChubResponse_parse_fails|].
  intros Hok data Hjson. split; [by apply readChubResponse_nullish|].
  split; [by apply readChubResponse_invalid_format|].
  intros nodes Hnodes (node & Hin & Hthrows).
  rewrite (readChubResponse_nodes _ _ _ Hok Hjson Hnodes).
  destruct (mapR transformChubCard nodes) as [transformed|e] eqn:Hmap; simpl.
  - assert (isOk (mapR transformChubCard nodes) = false) as Hfail.
    { apply mapR_isOk. exists node. split; [done|].
      by apply transformThrows_isOk. }
    by rewrite Hmap in Hfail.
  - apply mapR_throw in Hmap as (bad & _ & Hbad).
    by apply transformChubCard_error in Hbad as ->.
Qed.

(** X19. Which error [fetchChubCards] throws. A rejected [fetch] is
    rethrown as it is. For a response that is not ok the error message
    carries the status and the status text, and the body is not read. A
    body that fails to parse rethrows the parser's error. A body that is
    [null] gives a TypeError, any other body without an object [data.data]
    holding an array [nodes] gives "Invalid response format from Chub API",
    and a node [transformChubCard] throws on gives a TypeError. *)
Theorem fetchChubCards_error_kinds (options : FetchOptions number)
    (localStorage : Storage) (fetch : Fetch number) :
  match fetch (mkRequest (chubUrl options) (chubHeaders localStorage)) with
  | Throw e => fetchResult options localStorage fetch = Throw e
  | Ok response => errorKinds response (fetchResult options localStorage fetch)
  end.
Proof.
  unfold fetchResult, fetchChubCards.
  destruct (fetch _) as [response|e] eqn:Hfetch.
  - pose proof (readChubResponse_errorKinds response) as Hkinds.
    assert (∀ logged,
              (catchAndRethrow logged (bindR (Ok response) readChubResponse)).1
              = readChubResponse response) as Hrun.
    { intros logged. simpl. by destruct (readChubResponse response). }
    destruct (truthy (getChubToken localStorage)); by rewrite Hrun.
  - by destruct (truthy (getChubToken localStorage)).
Qed.

End FetchErrors.

(** ** The token and the request headers *)

Lemma trim_empty_string : trim "" = "".
Proof. reflexivity. Qed.

(** X20. The stored token decides how requests are authenticated. When
    [hasChubToken] holds, the request carries the stored token as
    [CH-API-KEY] and as a bearer [Authorization]; right after
    [saveChubToken] with a token that is not blank it carries the trimmed
    token; after a save that leaves no token, and after [clearChubToken],
    it carries only [Accept]. A blank token put in storage by other means
    is sent although [hasChubToken] denies it. *)
Theorem chubToken_authenticates_requests (localStorage : Storage)
    (token : option string) :
  (hasChubToken localStorage = true →
   ∃ stored, getChubToken localStorage = Some stored
             ∧ authenticated (chubHeaders localStorage) stored)
  ∧ (∀ t, token = Some t → trim t ≠ "" →
       authenticated (chubHeaders (saveChubToken token localStorage)) (trim t))
  ∧ (hasChubToken (saveChubToken token localStorage) = false →
     chubHeaders (saveChubToken token localStorage)
     = [("Accept", "application/json")])
  ∧ chubHeaders (clearChubToken localStorage) = [("Accept", "application/json")]
  ∧ (∀ stored, getChubToken localStorage = Some stored →
       stored ≠ "" → trim stored = "" →
       hasChubToken localStorage = false
       ∧ authenticated (chubHeaders localStorage) stored).
Proof.
  unfold authenticated, chubHeaders, hasChubToken.
  split; [|split; [|split; [|split]]].
  - destruct (getChubToken localStorage) as [stored|]; [|done].
    intros Hlen. exists stored. split; [done|].
    destruct stored as [|c s]; [done|]. reflexivity.
  - intros t -> Hne. unfold getChubToken, saveChubToken.
    assert (isEmpty t = false) as -> by (destruct t; [by destruct Hne|done]).
    assert (isEmpty (trim t) = false) as -> by (by destruct (trim t)).
    simpl. rewrite lookup_insert_eq. by destruct (trim t).
  - unfold getChubToken, saveChubToken. destruct token as [t|].
    + destruct (negb (isEmpty t) && negb (isEmpty (trim t))) eqn:Hkeep.
      * rewrite lookup_insert_eq, trim_idempotent.
        apply andb_true_iff in Hkeep as [_ Hkeep].
        by destruct (trim t).
      * by rewrite lookup_delete_eq.
    + by rewrite lookup_delete_eq.
  - unfold getChubToken, clearChubToken. by rewrite lookup_delete_eq.
  - intros stored -> Hne Hblank. rewrite Hblank. split; [done|].
    by destruct stored.
Qed.

(** ** The sort tokens *)

Lemma ownProperty_None {V} (props : list (string * V)) (key : string) :
  ownProperty props key = None ↔ key ∉ map fst props.
Proof.
  induction props as [|[k v] props IH]; simpl.
  - split; [intros _; by intros ?%elem_of_nil|done].
  - rewrite not_elem_of_cons. case_decide as Hk.
    + split; [done|]. intros [Hne _]. by destruct Hne.
    + rewrite IH. split; [by auto|by intros [_ ?]].
Qed.

(** X21. The two modules agree on the API-level sorts: [isApiLevelSort] of
    the card utilities and [isChubApiSort] of the Chub service accept the
    same tokens, which are the values [getChubSortOptions] offers and the
    keys of [SORT_MAP]; none of them is a local sort or [relevance]. *)
Theorem api_sort_tokens_agree (sortBy : string) :
  isApiLevelSort sortBy = isChubApiSort sortBy
  ∧ (isChubApiSort sortBy = true ↔ sortBy ∈ map value getChubSortOptions)
  ∧ (isChubApiSort sortBy = true ↔ is_Some (ownProperty SORT_MAP sortBy))
  ∧ (isApiLevelSort sortBy = true → (sortBy ∉ localSorts) ∧ sortBy ≠ "relevance").
Proof.
  split; [reflexivity|]. split; [|split].
  - unfold isChubApiSort, arrayIncludes. rewrite bool_decide_eq_true. simpl.
    rewrite !elem_of_cons, !elem_of_nil. tauto.
  - unfold isChubApiSort, arrayIncludes. rewrite bool_decide_eq_true.
    rewrite <- not_eq_None_Some, ownProperty_None.
    split; [by auto|]. intros Hnn. by destruct (decide (sortBy ∈ map fst SORT_MAP)).
  - unfold isApiLevelSort, arrayIncludes. rewrite bool_decide_eq_true.
    intros Hapi. split; [apply apiSorts_not_local; by left|].
    intros ->. revert Hapi. unfold apiSorts.
    rewrite !elem_of_cons, elem_of_nil. intuition discriminate.
Qed.

Section SortFallback.

Context {number : Type} {host : Host number}.

(** X22. A sort option the Chub API does not know falls back to
    [default]: when [options.sort] is left out, or is a token that is
    neither a key of [SORT_MAP] nor the name of an [Object.prototype]
    member, the [sort] query parameter is [default]. The local sorts and
    [relevance] are such tokens. *)
Theorem chub_sort_parameter_falls_back (options : FetchOptions number) :
  (options_sort options = None
   ∨ ∃ sort, options_sort options = Some sort
             ∧ (sort ∈ localSorts ∨ sort = "relevance"
                ∨ ((sort ∉ apiSorts) ∧ (sort ∉ objectPrototypeNames)))) →
  ownProperty (chubParams options) "sort" = Some "default".
Proof.
  rewrite chubParams_sort. intros [->|(sort & -> & Hsort)]; [reflexivity|].
  simpl. f_equal.
  assert ((sort ∉ apiSorts) ∧ (sort ∉ objectPrototypeNames)) as [Hapi Hproto].
  { destruct Hsort as [Hlocal|[->|?]]; [| |done].
    - unfold localSorts in Hlocal. rewrite !elem_of_cons, elem_of_nil in Hlocal.
      unfold apiSorts, objectPrototypeNames.
      rewrite !not_elem_of_cons. 
      repeat destruct Hlocal as [Hlocal|Hlocal]; try done; subst sort;
        repeat split; first [done | by intros ?%elem_of_nil].
    - unfold apiSorts, objectPrototypeNames. rewrite !not_elem_of_cons.
      repeat split; first [done | by intros ?%elem_of_nil]. }
  unfold apiSortOf.
  assert (ownProperty SORT_MAP sort = None) as -> by by apply ownProperty_None.
  unfold arrayIncludes. by rewrite bool_decide_eq_false_2.
Qed.

End SortFallback.


(** ** More on getRandomCard *)

Lemma loadAllServices_throws loader services acc :
  isOk (loadAllServices loader services acc) = false
  ↔ ∃ serviceName, serviceName ∈ services ∧ isOk (loader serviceName) = false.
Proof.
  revert acc. induction services as [|serviceName rest IH]; intros acc; simpl.
  - split; [done|]. by intros (? & ?%elem_of_nil & _).
  - destruct (loader serviceName) as [serviceCards|e] eqn:Hload; simpl.
    + rewrite IH. split.
      * intros (s & Hin & Hs). exists s. split; [apply elem_of_cons; by right|done].
      * intros (s & [->|Hin]%elem_of_cons & Hs); [by rewrite Hload in Hs|eauto].
    + split; [|done]. intros _. exists serviceName.
      rewrite Hload. split; [apply elem_of_cons; by left|done].
Qed.

Lemma loadAllServices_origin loader services acc cards card :
  loadAllServices loader services acc = Ok cards →
  card ∈ cards →
  card ∈ acc
  ∨ ∃ serviceName serviceCards original,
      serviceName ∈ services ∧ loader serviceName = Ok serviceCards
      ∧ original ∈ serviceCards
      ∧ card = withSourceService serviceName original
      ∧ hasImageUrl card = true.
Proof.
  revert acc. induction services as [|serviceName rest IH]; intros acc; simpl.
  - intros [= <-]. by left.
  - destruct (loader serviceName) as [serviceCards|e] eqn:Hload; simpl; [|done].
    intros Hrest Hin.
    destruct (IH _ Hrest Hin) as [Hacc|(s & cs & o & Hs & Hl & Ho & Hc & Hi)].
    + apply elem_of_app in Hacc as [?|Hnew]; [by left|]. right.
      apply list_elem_of_filter in Hnew as [Himage Hnew].
      change (map ?f ?l) with (f <$> l) in Hnew.
      apply list_elem_of_fmap in Hnew as (original & -> & Horiginal).
      exists serviceName, serviceCards, original.
      split; [apply elem_of_cons; by left|done].
    + right. exists s, cs, o. split; [apply elem_of_cons; by right|done].
Qed.

Lemma getRandomCard_result_from_candidates source currentCards loader random card :
  (getRandomCard source currentCards loader random).1 = Some card →
  ∃ cards, (candidateCards source currentCards loader).1 = Ok cards ∧ card ∈ cards.
Proof.
  unfold getRandomCard.
  destruct (candidateCards source currentCards loader) as [[cards|e] toasts];
    cbn [fst]; [|done].
  destruct (length cards =? 0); [done|].
  destruct (_ <? 0)%Z; [done|].
  destruct (cards !! _) as [picked|] eqn:Hpick; [|done].
  cbn [fst]. intros [= <-]. exists cards. split; [done|].
  by eapply list_elem_of_lookup_2.
Qed.

Lemma candidateCards_all source currentCards loader :
  allSources source →
  candidateCards source currentCards loader
  = (loadAllServices loader serviceNames [], [ToastInfo "Loading all cards..."]).
Proof. by intros [->|[->| ->]]. Qed.

Lemma candidateCards_view source currentCards loader :
  truthy source = true → source ≠ Some "all" →
  candidateCards source currentCards loader
  = (Ok (filter (λ card, hasImageUrl card = true) currentCards), []).
Proof.
  intros Htruthy Hall. unfold candidateCards.
  destruct (bool_decide (source = Some "current") && (0 <? length currentCards));
    [done|].
  rewrite Htruthy, bool_decide_eq_false_2 by done. done.
Qed.

(** X23. With the source ['all'], or with no source, [getRandomCard] loads
    every service and recovers from no failure: if loading any one of the
    services fails, the result is [null] and an error toast follows the
    loading toast. A card that is returned is a copy of a card of one of
    the services, with [sourceService] set to that service, and it passed
    the image URL filter. [currentCards] plays no part. *)
Theorem getRandomCard_all_services
    (source : option string) (currentCards : list Card)
    (loadServiceIndexFunc : string → Result (list Card)) (random : Q) :
  allSources source →
  ((∃ serviceName, serviceName ∈ serviceNames
                   ∧ isOk (loadServiceIndexFunc serviceName) = false) →
   getRandomCard source currentCards loadServiceIndexFunc random
   = (None, [ToastInfo "Loading all cards...";
             ToastError "Failed to get random card"]))
  ∧ (∀ card,
       (getRandomCard source currentCards loadServiceIndexFunc random).1 = Some card →
       ∃ serviceName serviceCards original,
         serviceName ∈ serviceNames
         ∧ loadServiceIndexFunc serviceName = Ok serviceCards
         ∧ original ∈ serviceCards
         ∧ card = withSourceService serviceName original
         ∧ sourceService card = Some serviceName
         ∧ hasHttpImage card)
  ∧ getRandomCard source currentCards loadServiceIndexFunc random
    = getRandomCard source [] loadServiceIndexFunc random.
Proof.
  intros Hall. split; [|split].
  - intros Hfails.
    pose proof (proj2 (loadAllServices_throws loadServiceIndexFunc serviceNames [])
                  Hfails) as Hthrows.
    unfold getRandomCard. rewrite candidateCards_all by done.
    by destruct (loadAllServices loadServiceIndexFunc serviceNames []).
  - intros card (cards & Hcandidates & Hin)%getRandomCard_result_from_candidates.
    rewrite candidateCards_all in Hcandidates by done. cbn [fst] in Hcandidates.
    destruct (loadAllServices_origin _ _ _ _ _ Hcandidates Hin)
      as [?%elem_of_nil|(s & cs & o & Hs & Hl & Ho & -> & Hi)]; [done|].
    exists s, cs, o. repeat split; try done. by apply hasImageUrl_spec.
  - unfold getRandomCard. by rewrite !candidateCards_all.
Qed.

(** X24. With any other source (['current'] or a service name),
    [getRandomCard] picks from [currentCards] alone: the loader is never
    consulted, the loading toast is never shown, a returned card is one of
    [currentCards] that passed the image URL filter, and with no current
    card the result is [null] with the warning "No cards available". *)
Theorem getRandomCard_current_view
    (source : option string) (currentCards : list Card)
    (loadServiceIndexFunc otherLoader : string → Result (list Card)) (random : Q) :
  truthy source = true → source ≠ Some "all" →
  getRandomCard source currentCards loadServiceIndexFunc random
  = getRandomCard source currentCards otherLoader random
  ∧ (∀ card,
       (getRandomCard source currentCards loadServiceIndexFunc random).1 = Some card →
       card ∈ currentCards ∧ hasHttpImage card)
  ∧ (∀ message,
       ToastInfo message
       ∉ (getRandomCard source currentCards loadServiceIndexFunc random).2)
  ∧ (currentCards = [] →
     getRandomCard source currentCards loadServiceIndexFunc random
     = (None, [ToastWarning "No cards available"])).
Proof.
  intros Htruthy Hnotall. split; [|split; [|split]].
  - unfold getRandomCard. by rewrite !candidateCards_view.
  - intros card (cards & Hcandidates & Hin)%getRandomCard_result_from_candidates.
    rewrite candidateCards_view in Hcandidates by done.
    injection Hcandidates as <-.
    apply list_elem_of_filter in Hin as [Hpass Hin].
    split; [done|by apply hasImageUrl_spec].
  - intros message. unfold getRandomCard. rewrite candidateCards_view by done.
    destruct (length _ =? 0); cbn [snd app].
    + by intros [?|?%elem_of_nil]%elem_of_cons.
    + destruct (if (_ <? 0)%Z then None else _); cbn [snd app].
      * by intros ?%elem_of_nil.
      * by intros [?|?%elem_of_nil]%elem_of_cons.
  - intros ->. unfold getRandomCard. by rewrite candidateCards_view.
Qed.

(** ** getRandomCard: failure, candidates and the card returned *)

Lemma loadAllServices_complete loader services acc cards card :
  loadAllServices loader services acc = Ok cards →
  (card ∈ acc
   ∨ ∃ serviceName serviceCards original,
       serviceName ∈ services ∧ loader serviceName = Ok serviceCards
       ∧ original ∈ serviceCards
       ∧ card = withSourceService serviceName original
       ∧ hasImageUrl card = true) →
  card ∈ cards.
Proof.
  revert acc. induction services as [|s rest IH]; intros acc; simpl.
  - intros [= <-] [Hacc|(? & ? & ? & Hin%elem_of_nil & _)]; done.
  - destruct (loader s) as [loadedCards|e] eqn:Hs; simpl; [|done].
    intros Hload Hcard. apply (IH _ Hload).
    destruct Hcard as [Hacc|(s' & cs & o & Hin & Hl & Ho & -> & Hi)].
    + left. apply elem_of_app. by left.
    + apply elem_of_cons in Hin as [->|Hin].
      * left. apply elem_of_app. right. apply list_elem_of_filter.
        split; [done|]. rewrite Hs in Hl. injection Hl as ->.
        change (map ?f ?l) with (f <$> l). by apply list_elem_of_fmap_2.
      * right. by exists s', cs, o.
Qed.

Lemma not_allSources source :
  ¬ allSources source → truthy source = true ∧ source ≠ Some "all".
Proof.
  unfold allSources. intros Hnot. destruct source as [[|c s]|].
  - destruct Hnot. by do 2 right.
  - split; [done|]. intros Hall. destruct Hnot. by left.
  - destruct Hnot. right. by left.
Qed.

Lemma allSources_dec source : {allSources source} + {¬ allSources source}.
Proof. unfold allSources. exact (decide _). Qed.

Lemma candidateCards_isCandidate source currentCards loader cards card :
  (candidateCards source currentCards loader).1 = Ok cards →
  (card ∈ cards ↔ isCandidate source currentCards loader card).
Proof.
  unfold isCandidate. destruct (allSources_dec source) as [Hall|Hnot].
  - rewrite candidateCards_all by done. cbn [fst]. intros Hload. split.
    + intros Hin.
      destruct (loadAllServices_origin _ _ _ _ _ Hload Hin)
        as [?%elem_of_nil|(s & cs & o & Hs & Hl & Ho & -> & Hi)]; [done|].
      split; [by apply hasImageUrl_spec|]. left. split; [done|].
      by exists s, cs, o.
    + intros [Hhttp [[_ (s & cs & o & Hs & Hl & Ho & ->)]|[Hnot _]]]; [|done].
      apply (loadAllServices_complete _ _ _ _ _ Hload). right.
      exists s, cs, o. repeat split; try done. by apply hasImageUrl_spec.
  - destruct (not_allSources _ Hnot) as [Htruthy Hsource].
    rewrite candidateCards_view by done. cbn [fst]. intros [= <-].
    rewrite list_elem_of_filter, hasImageUrl_spec. split.
    + intros [? ?]. split; [done|]. by right.
    + intros [? [[? _]|[_ ?]]]; done.
Qed.

Lemma candidateCards_throws source currentCards loader :
  isOk (candidateCards source currentCards loader).1 = false
  ↔ loadingFails source loader.
Proof.
  unfold loadingFails. destruct (allSources_dec source) as [Hall|Hnot].
  - rewrite candidateCards_all by done. cbn [fst].
    rewrite loadAllServices_throws. split; [by intros ?|by intros [_ ?]].
  - destruct (not_allSources _ Hnot) as [Htruthy Hsource].
    rewrite candidateCards_view by done. cbn [fst]. simpl.
    split; [done|by intros [? _]].
Qed.

Lemma getRandomCard_null_iff source currentCards loader random :
  (0 <= random)%Q → (random < 1)%Q →
  (getRandomCard source currentCards loader random).1 = None
  ↔ loadingFails source loader
    ∨ ∀ card, ¬ isCandidate source currentCards loader card.
Proof.
  intros Hlo Hhi.
  pose proof (getRandomCard_picks source currentCards loader random Hlo Hhi)
    as Hpick.
  pose proof (candidateCards_throws source currentCards loader) as Hthrows.
  pose proof (candidateCards_isCandidate source currentCards loader) as Hcand.
  destruct (candidateCards source currentCards loader).1 as [candidates|e].
  - destruct Hpick as [Hnil Hcons]. simpl in Hthrows.
    destruct candidates as [|first rest].
    + split; [|by intros _; apply Hnil]. intros _. right.
      intros card Hcard. by apply (Hcand [] card eq_refl), elem_of_nil in Hcard.
    + destruct (Hcons ltac:(done)) as (picked & -> & Hin).
      split; [done|]. intros [Hfails|Hnone].
      * by apply Hthrows in Hfails.
      * destruct (Hnone first). apply (Hcand (first :: rest)); [done|].
        apply elem_of_cons. by left.
  - split; [|done]. intros _. left. by apply Hthrows.
Qed.

(** C6, as amended. With [Math.random()] in its range, [getRandomCard]
    returns [null] exactly when an exception occurs (every service is to be
    loaded and loading one of them fails) or there is no candidate;
    otherwise it returns a card, and a card it returns is a candidate: it
    passed the image URL filter and is a card of [currentCards] or, when
    every service is loaded, a card of one of the services. For the source
    [current], the result is [null] exactly when no card of [currentCards]
    has a non-blank image URL beginning with [http://] or [https://], the
    image URL being [avatar_url] when that is not empty and [image_url]
    otherwise. *)
Theorem getRandomCard_null_or_candidate
    (source : option string) (currentCards : list Card)
    (loadServiceIndexFunc : string → Result (list Card)) (random : Q) :
  (0 <= random)%Q → (random < 1)%Q →
  ((getRandomCard source currentCards loadServiceIndexFunc random).1 = None
   ↔ loadingFails source loadServiceIndexFunc
     ∨ ∀ card, ¬ isCandidate source currentCards loadServiceIndexFunc card)
  ∧ (∀ card,
       (getRandomCard source currentCards loadServiceIndexFunc random).1 = Some card →
       isCandidate source currentCards loadServiceIndexFunc card)
  ∧ (source = Some "current" →
     ((getRandomCard source currentCards loadServiceIndexFunc random).1 = None
      ↔ ∀ card, card ∈ currentCards → ¬ hasHttpImage card)).
Proof.
  intros Hlo Hhi.
  pose proof (getRandomCard_null_iff source currentCards loadServiceIndexFunc
                random Hlo Hhi) as Hnull.
  split; [exact Hnull|]. split.
  - intros card (cards & Hcards & Hin)%getRandomCard_result_from_candidates.
    by apply (candidateCards_isCandidate _ _ _ cards).
  - intros ->. rewrite Hnull. clear Hnull.
    assert (¬ allSources (Some "current")) as Hnot
      by (by intros [?|[?|?]]).
    split.
    + intros [[Hall _]|Hnone] card Hin Hhttp; [done|].
      apply (Hnone card). split; [done|]. by right.
    + intros Hnone. right. intros card [Hhttp [[Hall _]|[_ Hin]]]; [done|].
      by apply (Hnone card).
Qed.

(** C6 as stated counts a valid URL in either field. The copy of the
    knight has a local [avatar_url] and an [https://] [image_url]: the
    filter looks at the [avatar_url] alone, no candidate is left, and the
    result is [null] with the warning. *)
Lemma getRandomCard_either_field_counterexample :
  hasHttpInEitherField knightCopy
  ∧ getRandomCard (Some "current") [knightCopy] (λ _, Ok []) (1 # 2)
    = (None, [ToastWarning "No cards available"]).
Proof.
  split; [|reflexivity].
  right. exists "https://img.example/knight2.png". split; [reflexivity|].
  split; [discriminate|]. right. by exists "img.example/knight2.png".
Qed.

Lemma getRandomCard_null_or_candidate_witness :
  (0 <= 1 # 2)%Q ∧ (1 # 2 < 1)%Q
  ∧ ((getRandomCard (Some "current") sampleCards (λ _, Throw TypeError) (1 # 2)).1
     = None
     ↔ loadingFails (Some "current") (λ _, Throw TypeError)
       ∨ ∀ card, ¬ isCandidate (Some "current") sampleCards
                     (λ _, Throw TypeError) card)
  ∧ (∀ card,
       (getRandomCard (Some "current") sampleCards (λ _, Throw TypeError) (1 # 2)).1
       = Some card →
       isCandidate (Some "current") sampleCards (λ _, Throw TypeError) card).
Proof.
  assert (0 <= 1 # 2)%Q as Hlo by (unfold Qle; simpl; lia).
  assert (1 # 2 < 1)%Q as Hhi by (unfold Qlt; simpl; lia).
  pose proof (getRandomCard_null_or_candidate (Some "current") sampleCards
                (λ _, Throw TypeError) (1 # 2) Hlo Hhi) as (Hnull & Hcard & _).
  split; [exact Hlo|]. split; [exact Hhi|]. split; [exact Hnull|exact Hcard].
Defined.

(** ** Stricter settings *)

Lemma filter_sublist_impl {A} (P Q : A → Prop)
    `{!∀ x, Decision (P x)} `{!∀ x, Decision (Q x)} (l : list A) :
  (∀ x, P x → Q x) → filter P l `sublist_of` filter Q l.
Proof.
  intros Himpl. induction l as [|x l IH]; [done|].
  rewrite !filter_cons. destruct (decide (P x)) as [HP|HP].
  - rewrite decide_True by auto. by apply sublist_skip.
  - destruct (decide (Q x)); [by apply sublist_cons|done].
Qed.

(** X25. Blocking more never shows more: when the settings are replaced by
    settings that hide NSFW cards if the first did and block every term the
    first blocked, the result of [filterCards] is a subsequence of the
    former result. Settings that block the same normalized terms and agree
    on hiding NSFW cards give the same result, so the letter case and the
    surrounding blanks of blocklist terms do not matter. *)
Theorem filterCards_stricter_settings
    (cards : list Card) (filters : Filters) (fuse : option Fuse)
    (extensionName : string)
    (extension_settings stricter_settings : gmap string Settings)
    (settings stricter : Settings) (kept keptStricter : list Card) :
  searchInactive filters fuse →
  extension_settings !! extensionName = Some settings →
  stricter_settings !! extensionName = Some stricter →
  filterCards cards filters fuse extensionName extension_settings = Ok kept →
  filterCards cards filters fuse extensionName stricter_settings
  = Ok keptStricter →
  (blocksMore settings stricter → keptStricter `sublist_of` kept)
  ∧ (blocksMore settings stricter → blocksMore stricter settings →
     keptStricter = kept).
Proof.
  intros Hsearch Hsettings Hstricter.
  rewrite (filterCards_filter _ _ _ _ _ settings) by done.
  rewrite (filterCards_filter _ _ _ _ _ stricter) by done.
  intros [= <-] [= <-].
  assert (∀ s1 s2, blocksMore s1 s2 → ∀ card,
            keepsCard filters s2 card = true → keepsCard filters s1 card = true)
    as Hmono.
  { intros s1 s2 [Hnsfw Hterms] card. rewrite !keepsCard_spec.
    intros (Htags & Hcreator & Hhidden & Hblock).
    split; [done|]. split; [done|]. split.
    - intros [Hhide Hposs]. apply Hhidden. split; [by apply Hnsfw|done].
    - intros term Hterm. by apply Hblock, Hterms. }
  split.
  - intros Hmore. apply filter_sublist_impl. by apply Hmono.
  - intros Hmore Hless. apply list_filter_iff. intros card. split.
    + by apply Hmono.
    + by apply Hmono.
Qed.

(** ** With and without a token *)

Section TokenVersions.

Context {number : Type} {host : Host number}.

(** X26. The token changes the request headers and nothing else: both
    versions of [fetchChubCards] fetch the same URL, so against a [fetch]
    that answers by the URL alone they return the same cards or throw the
    same error, whatever token is stored. *)
Theorem fetchChubCards_token_only_changes_headers
    (options : FetchOptions number) (localStorage : Storage) (fetch : Fetch number) :
  ignoresHeaders fetch →
  (fetchChubCards options localStorage fetch).1
  = (fetchChubCardsAnonymous options fetch).1.
Proof.
  intros Hfetch. unfold fetchChubCards, fetchChubCardsAnonymous, catchAndRethrow.
  cbv zeta. rewrite (Hfetch (chubUrl options) (chubHeaders localStorage) []).
  destruct (fetch (mkRequest (chubUrl options) [])) as [response|e]; cbn [bindR];
    [destruct (readChubResponse response)|]; reflexivity.
Qed.

End TokenVersions.


(** ** The properties at work on the sample data *)

Lemma openSettings_neutral : neutralSettings openSettings.
Proof.
  split; [reflexivity|].
  intros term (raw & Hraw & -> & Hterm). apply Hterm.
  apply list_elem_of_singleton in Hraw as ->. reflexivity.
Qed.

Lemma getAllTags_same_tags_witness :
  getAllTags [knight; ghost] = getAllTags [ghost; knight; knight].
Proof.
  apply (getAllTags_same_tags [knight; ghost] [ghost; knight; knight]).
  intros tag. split; intros (card & cardTags & Hin & Htags & Htag);
    exists card, cardTags; (split; [|by split]);
    rewrite !elem_of_cons in Hin; rewrite !elem_of_cons; tauto.
Defined.

Lemma filterCards_no_filter_returns_all_witness :
  searchInactive openFilters None
  ∧ neutralSettings openSettings
  ∧ filterCards sampleCards openFilters None "bot-browser"
      {[ "bot-browser" := openSettings ]} = Ok sampleCards.
Proof.
  assert (searchInactive openFilters None) as Hsearch by (right; reflexivity).
  split; [exact Hsearch|]. split; [exact openSettings_neutral|].
  exact (filterCards_no_filter_returns_all sampleCards openFilters None
           "bot-browser" {[ "bot-browser" := openSettings ]} openSettings
           Hsearch eq_refl eq_refl eq_refl openSettings_neutral).
Defined.

Lemma filterCards_idempotent_witness :
  filterCards sampleCards sampleFilters None "bot-browser"
    {[ "bot-browser" := sampleSettings ]} = Ok [knight]
  ∧ filterCards [knight] sampleFilters None "bot-browser"
      {[ "bot-browser" := sampleSettings ]} = Ok [knight].
Proof.
  assert (searchInactive sampleFilters None) as Hsearch by (right; reflexivity).
  assert (filterCards sampleCards sampleFilters None "bot-browser"
            {[ "bot-browser" := sampleSettings ]} = Ok [knight]) as Hkept
    by reflexivity.
  split; [exact Hkept|].
  exact (filterCards_idempotent sampleCards [knight] sampleFilters None
           "bot-browser" {[ "bot-browser" := sampleSettings ]} sampleSettings
           Hsearch eq_refl Hkept).
Defined.



Lemma filterCards_search_filters_fuse_results_witness :
  ∃ kept,
    filterCards sampleCards searchFilters (Some sampleFuse) "bot-browser"
      {[ "bot-browser" := sampleSettings ]} = Ok kept
    ∧ kept `sublist_of` map item (sampleFuse "knight")
    ∧ (∀ card, card ∈ kept ↔
               card ∈ map item (sampleFuse "knight")
               ∧ matchesAllFilters searchFilters sampleSettings card)
    ∧ filterCards [] searchFilters (Some sampleFuse) "bot-browser"
        {[ "bot-browser" := sampleSettings ]} = Ok kept.
Proof.
  assert ("knight" ≠ "") as Hpattern by discriminate.
  exact (filterCards_search_filters_fuse_results sampleCards searchFilters
           sampleFuse "knight" "bot-browser"
           {[ "bot-browser" := sampleSettings ]} sampleSettings
           eq_refl Hpattern eq_refl).
Defined.

Lemma getAllTags_tag_selects_cards_witness :
  "Hero" ∈ getAllTags sampleCards
  ∧ ∃ kept,
      filterCards sampleCards (mkFilters None ["Hero"] None) None "bot-browser"
        {[ "bot-browser" := openSettings ]} = Ok kept
      ∧ kept ≠ []
      ∧ ∀ card, card ∈ kept ↔
                card ∈ sampleCards
                ∧ ∃ cardTags, tags card = Some cardTags ∧ "Hero" ∈ cardTags.
Proof.
  assert ("Hero" ∈ getAllTags sampleCards) as Htag
    by (apply list_elem_of_In; vm_compute; right; left; reflexivity).
  split; [exact Htag|].
  exact (getAllTags_tag_selects_cards sampleCards "Hero" "bot-browser"
           {[ "bot-browser" := openSettings ]} openSettings
           Htag eq_refl openSettings_neutral).
Defined.

Lemma getAllCreators_creator_selects_cards_witness :
  "Ben" ∈ getAllCreators sampleCards
  ∧ ∃ kept,
      filterCards sampleCards (mkFilters None [] (Some "Ben")) None "bot-browser"
        {[ "bot-browser" := openSettings ]} = Ok kept
      ∧ kept ≠ []
      ∧ ∀ card, card ∈ kept ↔ card ∈ sampleCards ∧ creator card = Some "Ben".
Proof.
  assert ("Ben" ∈ getAllCreators sampleCards) as Hcreator
    by (apply list_elem_of_In; vm_compute; right; left; reflexivity).
  split; [exact Hcreator|].
  exact (getAllCreators_creator_selects_cards sampleCards "Ben" "bot-browser"
           {[ "bot-browser" := openSettings ]} openSettings
           Hcreator eq_refl openSettings_neutral).
Defined.

Lemma sortCards_twice_witness :
  ∃ sorted h' again h'' result,
    sortCards codeUnitCompare 1%positive "name_desc" sampleHeap = Ok (sorted, h')
    ∧ sortCards codeUnitCompare sorted "name_desc" h' = Ok (again, h'')
    ∧ h' !! sorted = Some result
    ∧ h'' !! again = Some result
    ∧ h'' !! sorted = Some result
    ∧ again ≠ sorted.
Proof.
  assert (sampleHeap !! 1%positive = Some sampleCards) as Hcards by reflexivity.
  exact (sortCards_twice codeUnitCompare sampleHeap 1%positive sampleCards
           "name_desc" codeUnitCompare_consistent Hcards).
Defined.

Lemma transformChubCard_sample :
  transformChubCard (host := integerHost) sampleNode = Ok sampleChubCard.
Proof. vm_compute. reflexivity. Qed.

Lemma transformChubCard_card_shape_witness :
  fieldNames sampleChubCard = cardFieldNames
  ∧ propertyOf sampleChubCard "service" = VStr "chub"
  ∧ propertyOf sampleChubCard "sourceService" = VStr "chub"
  ∧ propertyOf sampleChubCard "chunk" = VNull
  ∧ (∃ topics : list string,
       propertyOf sampleChubCard "tags" = VArr (VStr <$> topics))
  ∧ isStringValue (propertyOf sampleChubCard "id")
  ∧ isStringValue (propertyOf sampleChubCard "creator")
  ∧ isStringValue (propertyOf sampleChubCard "image_url")
  ∧ truthyV (host := integerHost) (propertyOf sampleChubCard "name") = true.
Proof.
  exact (transformChubCard_card_shape (host := integerHost) sampleNode
           sampleChubCard transformChubCard_sample).
Defined.

Lemma transformChubCard_desc_preview_witness :
  ∃ preview rest,
    propertyOf sampleChubCard "desc_preview" = VStr preview
    ∧ "A brave knight" = preview +:+ rest
    ∧ String.length preview = min 150 (String.length "A brave knight").
Proof.
  exact (proj1 (proj2 (transformChubCard_desc_preview (host := integerHost)
                         sampleNode sampleChubCard transformChubCard_sample))
           eq_refl "A brave knight" eq_refl).
Defined.

Lemma transformChubCard_path_fields_witness :
  propertyOf sampleChubCard "id" = VStr "https://chub.ai/characters/ann/knight"
  ∧ propertyOf sampleChubCard "image_url"
    = VStr "https://chub.ai/characters/ann/knight"
  ∧ ∃ owner,
      propertyOf sampleChubCard "creator" = VStr owner
      ∧ ¬ isSubstringOf "/" owner
      ∧ ("ann/knight" = owner ∨ ∃ rest, "ann/knight" = owner +:+ "/" +:+ rest).
Proof.
  assert ("ann/knight" ≠ "") as Hpath by discriminate.
  exact (proj1 (transformChubCard_path_fields (host := integerHost)
                  sampleNode sampleChubCard transformChubCard_sample)
           "ann/knight" eq_refl Hpath).
Defined.

Lemma transformChubCard_possibleNsfw_witness :
  topicFlagged sampleNode
  ∧ propertyOf sampleChubCard "possibleNsfw" = VBool true.
Proof.
  assert (topicFlagged sampleNode) as Hflagged.
  { exists [VStr "Fantasy"; VStr "NSFW"], "NSFW", "nsfw".
    split; [reflexivity|]. split; [rewrite !elem_of_cons; right; left; reflexivity|].
    split; [unfold nsfwKeywords; rewrite !elem_of_cons; left; reflexivity|].
    exists "", "". reflexivity. }
  split; [exact Hflagged|].
  exact (proj1 (transformChubCard_possibleNsfw (host := integerHost)
                  sampleNode sampleChubCard transformChubCard_sample) Hflagged).
Defined.

Lemma chub_sort_parameter_falls_back_witness :
  "name_asc" ∈ localSorts
  ∧ ownProperty (chubParams (host := integerHost) nameSortOptions) "sort"
    = Some "default".
Proof.
  assert ("name_asc" ∈ localSorts) as Hlocal
    by (unfold localSorts; rewrite !elem_of_cons; left; reflexivity).
  split; [exact Hlocal|].
  apply (chub_sort_parameter_falls_back (host := integerHost) nameSortOptions).
  right. exists "name_asc". split; [reflexivity|]. left. exact Hlocal.
Defined.

Lemma getRandomCard_all_services_witness :
  getRandomCard (Some "all") sampleCards (λ _, Ok [knight; ghost]) (1 # 2)
  = getRandomCard (Some "all") [] (λ _, Ok [knight; ghost]) (1 # 2).
Proof.
  assert (allSources (Some "all")) as Hall by (left; reflexivity).
  exact (proj2 (proj2 (getRandomCard_all_services (Some "all") sampleCards
                         (λ _, Ok [knight; ghost]) (1 # 2) Hall))).
Defined.

Lemma getRandomCard_current_view_witness :
  truthy (Some "current") = true
  ∧ getRandomCard (Some "current") sampleCards (λ _, Throw TypeError) (1 # 2)
    = getRandomCard (Some "current") sampleCards (λ _, Ok []) (1 # 2)
  ∧ (∀ card,
       (getRandomCard (Some "current") sampleCards (λ _, Throw TypeError) (1 # 2)).1
       = Some card →
       card ∈ sampleCards ∧ hasHttpImage card).
Proof.
  assert (Some "current" ≠ Some "all") as Hsource by discriminate.
  pose proof (getRandomCard_current_view (Some "current") sampleCards
                (λ _, Throw TypeError) (λ _, Ok []) (1 # 2) eq_refl Hsource)
    as (Hloader & Hcard & _).
  split; [reflexivity|]. split; [exact Hloader|exact Hcard].
Defined.

Lemma sampleSettings_blocksMore : blocksMore openSettings sampleSettings.
Proof.
  split; [done|].
  intros term (raw & Hraw & -> & Hterm). destruct Hterm.
  apply list_elem_of_singleton in Hraw as ->. reflexivity.
Qed.

Lemma filterCards_stricter_settings_witness :
  blocksMore openSettings sampleSettings
  ∧ [knight; knightCopy; nameless] `sublist_of` sampleCards.
Proof.
  assert (searchInactive openFilters None) as Hsearch by (right; reflexivity).
  split; [exact sampleSettings_blocksMore|].
  exact (proj1 (filterCards_stricter_settings sampleCards openFilters None
                  "bot-browser" {[ "bot-browser" := openSettings ]}
                  {[ "bot-browser" := sampleSettings ]}
                  openSettings sampleSettings sampleCards
                  [knight; knightCopy; nameless]
                  Hsearch eq_refl eq_refl eq_refl eq_refl)
           sampleSettings_blocksMore).
Defined.

Lemma fetchChubCards_token_only_changes_headers_witness :
  ignoresHeaders sampleFetch
  ∧ (fetchChubCards (host := integerHost) defaultOptions
       {[ CHUB_TOKEN_KEY := "secret" ]} sampleFetch).1
    = (fetchChubCardsAnonymous (host := integerHost) defaultOptions sampleFetch).1.
Proof.
  assert (ignoresHeaders sampleFetch) as Hfetch
    by (intros url headers1 headers2; reflexivity).
  split; [exact Hfetch|].
  exact (fetchChubCards_token_only_changes_headers (host := integerHost)
           defaultOptions {[ CHUB_TOKEN_KEY := "secret" ]} sampleFetch Hfetch).
Defined.

